(** * Job orchestration core of youtube-audio-api-scalable

    A shallow embedding of the Go sources (shared/config.go,
    shared/ratelimit.go, shared/db.go, shared/db_redis.go, shared/queue.go,
    api-gateway/main.go, worker/main.go) together with the properties of
    the orchestration subsystem that the specification states about them.

    Conventions.
    - Go [int] is the 64-bit two's-complement integer; it is carried as a
      [Z] and every arithmetic operation of the source that can leave the
      range is wrapped with [int_wrap].
    - [time.Now()], [uuid.New()], the outcome of a Redis round trip, the
      outcome of the external executor and the case chosen by a [select]
      are inputs of the functions that consult them.
    - Go pointers are locations of an explicit heap, so that two handles on
      one object stay two handles on one object. *)

From Stdlib Require Import ZArith Lia Bool List Ascii String.
From stdpp Require Import base option gmap strings list fin_maps pretty.

Local Open Scope Z_scope.

(** ** Go machine integers *)

Module GoInt.

Definition int_min : Z := - 2 ^ 63.
Definition int_max : Z := 2 ^ 63 - 1.

(** Wrap-around of a mathematical integer into [int]. *)
Definition int_wrap (z : Z) : Z := (z + 2 ^ 63) mod 2 ^ 64 - 2 ^ 63.

Definition in_int (z : Z) : Prop := int_min <= z <= int_max.

Definition int_add (a b : Z) : Z := int_wrap (a + b).
Definition int_sub (a b : Z) : Z := int_wrap (a - b).

End GoInt.

Import GoInt.

(** ** strconv.Atoi

    The standard library's decimal parser, as [shared/config.go] uses it:
    an optional sign followed by at least one decimal digit.  The second
    component is [true] when Go returns a non-nil error (syntax error, or
    range error, in which case the value is the nearest bound of [int]). *)

Module Strconv.

Definition digit_of (c : ascii) : option Z :=
  let d := Z.of_nat (nat_of_ascii c) - 48 in
  if (0 <=? d) && (d <=? 9) then Some d else None.

Fixpoint digits (s : string) (acc : Z) : option Z :=
  match s with
  | EmptyString => Some acc
  | String c rest =>
      match digit_of c with
      | Some d => digits rest (acc * 10 + d)
      | None => None
      end
  end.

Definition split_sign (s : string) : bool * string :=
  match s with
  | String c rest =>
      if Ascii.eqb c "-"%char then (true, rest)
      else if Ascii.eqb c "+"%char then (false, rest)
      else (false, s)
  | EmptyString => (false, s)
  end.

Definition Atoi (s : string) : Z * bool :=
  let '(neg, body) := split_sign s in
  match body with
  | EmptyString => (0, true)
  | _ =>
      match digits body 0 with
      | None => (0, true)
      | Some un =>
          if neg then (if 2 ^ 63 <? un then (int_min, true) else (- un, false))
          else (if 2 ^ 63 <=? un then (int_max, true) else (un, false))
      end
  end.

End Strconv.

(** ** shared/config.go *)

Module Config.

Definition DefaultMaxWorkers : Z := 3.
Definition DefaultRateLimitRPM : Z := 300.
Definition DefaultMaxVideoDurationSeconds : Z := 1200.

(** The fields of [Config] that are read by the orchestration core.  The
    comma-separated lists and the admin token are request-surface settings
    and are left out. *)
Record Config := mkConfig {
  APIGatewayPort : string;
  WorkerPort : string;
  MaxWorkers : Z;
  RedisAddr : string;
  RedisPassword : string;
  RedisDB : Z;
  QueueMaxLength : Z;
  RateLimitRPM : Z;
  MaxVideoDurationSeconds : Z
}.

(** The process environment; [os.Getenv] yields the empty string for a
    variable that is not set. *)
Definition Getenv (env : gmap string string) (k : string) : string :=
  default EmptyString (env !! k).

Section LoadConfig.

(** [LoadConfig] is first written over an arbitrary parser, which shows
    that its lower bounds do not rest on what [Atoi] accepts. *)
Variable atoi : string -> Z * bool.

(** The pattern of the optional integer settings:
    [if v := os.Getenv(k); v != "" { if n, err := strconv.Atoi(v);
    err == nil && n >= lo { x = n } }], with [x] preset to [dflt]. *)
Definition env_int (lo dflt : Z) (v : string) : Z :=
  if String.eqb v EmptyString then dflt
  else let '(n, err) := atoi v in
       if negb err && (lo <=? n) then n else dflt.

Definition LoadConfig_with (env : gmap string string) : Config :=
  let maxWorkersStr := Getenv env "MAX_WORKERS" in
  let '(maxWorkers0, err) := atoi maxWorkersStr in
  let maxWorkers :=
    if err || (maxWorkers0 <=? 0) then DefaultMaxWorkers else maxWorkers0 in
  let redisDB := env_int 0 0 (Getenv env "REDIS_DB") in
  let rateLimit := env_int 1 DefaultRateLimitRPM (Getenv env "RATE_LIMIT_RPM") in
  let queueMaxLen := env_int 0 0 (Getenv env "QUEUE_MAX_LENGTH") in
  let maxDur :=
    env_int 1 DefaultMaxVideoDurationSeconds
      (Getenv env "MAX_VIDEO_DURATION_SECONDS") in
  {| APIGatewayPort := Getenv env "API_GATEWAY_PORT";
     WorkerPort := Getenv env "WORKER_PORT";
     MaxWorkers := maxWorkers;
     RedisAddr := Getenv env "REDIS_ADDR";
     RedisPassword := Getenv env "REDIS_PASSWORD";
     RedisDB := redisDB;
     QueueMaxLength := queueMaxLen;
     RateLimitRPM := rateLimit;
     MaxVideoDurationSeconds := maxDur |}.

End LoadConfig.

Definition LoadConfig : gmap string string -> Config :=
  LoadConfig_with Strconv.Atoi.

End Config.

(** ** Wall-clock time

    A [time.Time] is the number of nanoseconds since the zero [Time]
    (January 1, year 1, 00:00 UTC); a [time.Duration] is a number of
    nanoseconds held in an [int64]. *)

Module GoTime.

Definition zeroTime : Z := 0.
Definition Second : Z := 1000000000.

(** Seconds between the zero [Time] and the Unix epoch. *)
Definition unixToInternal : Z := 62135596800.

(** [t.Unix()]: whole seconds since the Unix epoch. *)
Definition Unix (t : Z) : Z := t `div` Second - unixToInternal.

(** [t.Sub(u)]: the difference, saturated to the range of [Duration]. *)
Definition Sub (t u : Z) : Z := Z.max int_min (Z.min int_max (t - u)).

End GoTime.

(** ** The Redis server, as far as the sources talk to it

    Counters written by INCR, string values written by SET, one sorted
    set per key, and absolute expiry deadlines.  A key whose deadline has
    passed is gone.  Every command is a network round trip whose fate is
    an input: the command may be answered, may never reach the server, or
    may be executed with the answer lost (client-side timeout). *)

Module Redis.

Inductive Net := Answered | Unreached | ReplyLost.

Definition applied (n : Net) : bool :=
  match n with Unreached => false | _ => true end.

Definition failed (n : Net) : bool :=
  match n with Answered => false | _ => true end.

Record Server := mkServer {
  counters : gmap string Z;
  deadlines : gmap string Z;
  values : gmap string string;
  zsets : gmap string (gmap string Z)
}.

Definition empty : Server :=
  {| counters := ∅; deadlines := ∅; values := ∅; zsets := ∅ |}.

Definition expired (srv : Server) (key : string) (now : Z) : bool :=
  match deadlines srv !! key with
  | Some d => d <=? now
  | None => false
  end.

(** The value INCR finds under [key]: zero for an absent or expired key. *)
Definition live_counter (srv : Server) (key : string) (now : Z) : Z :=
  if expired srv key now then 0 else default 0 (counters srv !! key).

(** INCR: [None] is the server's overflow error, which leaves the key. *)
Definition incr (srv : Server) (key : string) (now : Z) : Server * option Z :=
  let old := live_counter srv key now in
  if int_max <=? old then (srv, None)
  else
    let n := old + 1 in
    ({| counters := <[key := n]> (counters srv);
        deadlines := if expired srv key now then delete key (deadlines srv)
                     else deadlines srv;
        values := values srv;
        zsets := zsets srv |}, Some n).

(** EXPIRE key ttl, on a key that exists. *)
Definition expire (srv : Server) (key : string) (now ttl : Z) : Server :=
  match counters srv !! key with
  | Some _ =>
      if expired srv key now then srv
      else {| counters := counters srv;
              deadlines := <[key := now + ttl]> (deadlines srv);
              values := values srv;
              zsets := zsets srv |}
  | None => srv
  end.

(** The client's view of INCR over the network. *)
Definition Incr (srv : Server) (key : string) (now : Z) (net : Net)
  : Server * option Z :=
  match net with
  | Answered => incr srv key now
  | Unreached => (srv, None)
  | ReplyLost => (fst (incr srv key now), None)
  end.

Definition Expire (srv : Server) (key : string) (now ttl : Z) (net : Net)
  : Server :=
  if applied net then expire srv key now ttl else srv.

End Redis.

(** ** shared/ratelimit.go *)

Module RateLimit.

Import Config GoTime.

(** A non-nil [*redis.Client]: the connection options of
    [NewRedisClient]. *)
Record Client := mkClient { Addr : string; Password : string; DB : Z }.

Definition NewRedisClient (c : Config) : option Client :=
  if String.eqb (RedisAddr c) EmptyString then None
  else Some {| Addr := RedisAddr c; Password := RedisPassword c;
               DB := RedisDB c |}.

Record RateLimiter := mkRateLimiter {
  cfg : Config;
  redis : option Client;
  inMemCount : gmap string Z;
  inMemTTL : Z
}.

Definition NewRateLimiter (c : Config) (redisClient : option Client)
  : RateLimiter :=
  {| cfg := c; redis := redisClient; inMemCount := ∅; inMemTTL := zeroTime |}.

(** Key for the current minute window. *)
Definition minuteKey (ip : string) (now : Z) : string :=
  "ratelimit:" +:+ ip +:+ ":" +:+ pretty (Z.quot (Unix now) 60).

Definition allowInMem (r : RateLimiter) (ip : string) (rpm : Z) (now : Z)
  : (bool * Z) * RateLimiter :=
  let '(count, ttl) :=
    if 60 * Second <? Sub now (inMemTTL r) then (∅, now)
    else (inMemCount r, inMemTTL r) in
  let n := int_add (default 0 (count !! ip)) 1 in
  let remaining := int_sub rpm n in
  ((n <=? rpm, remaining),
   {| cfg := cfg r; redis := redis r;
      inMemCount := <[ip := n]> count; inMemTTL := ttl |}).

(** [Allow]: [tk] is the clock reading of [minuteKey], [tm] the one of
    [allowInMem]; [n1] and [n2] are the fates of INCR and EXPIRE. *)
Definition Allow (r : RateLimiter) (srv : Redis.Server) (ip : string)
    (tk tm : Z) (n1 n2 : Redis.Net)
  : (bool * Z) * RateLimiter * Redis.Server :=
  let rpm := RateLimitRPM (cfg r) in
  if rpm <=? 0 then ((true, rpm), r, srv)
  else
    match redis r with
    | Some _ =>
        let key := minuteKey ip tk in
        match Redis.Incr srv key tk n1 with
        | (srv1, None) =>
            let '(res, r') := allowInMem r ip rpm tm in (res, r', srv1)
        | (srv1, Some n) =>
            let srv2 :=
              if n =? 1 then Redis.Expire srv1 key tk (65 * Second) n2
              else srv1 in
            let remaining := int_sub rpm n in
            ((n <=? rpm, remaining), r, srv2)
        end
    | None =>
        let '(res, r') := allowInMem r ip rpm tm in (res, r', srv)
    end.

(** The counter a call reads before it adds itself. *)
Definition mem_count_before (r : RateLimiter) (ip : string) (now : Z) : Z :=
  if 60 * Second <? Sub now (inMemTTL r) then 0
  else default 0 (inMemCount r !! ip).

(** Whether a call is answered from the Redis counter. *)
Definition served_by_redis (r : RateLimiter) (srv : Redis.Server)
    (ip : string) (tk : Z) (n1 : Redis.Net) : bool :=
  match redis r with
  | Some _ =>
      match Redis.Incr srv (minuteKey ip tk) tk n1 with
      | (_, Some _) => true
      | (_, None) => false
      end
  | None => false
  end.

(** The number of requests of [ip] counted in the current window, this
    one included, by the backend that answers the call. *)
Definition currentCount (r : RateLimiter) (srv : Redis.Server)
    (ip : string) (tk tm : Z) (n1 : Redis.Net) : Z :=
  if served_by_redis r srv ip tk n1
  then Redis.live_counter srv (minuteKey ip tk) tk + 1
  else mem_count_before r ip tm + 1.

(** The counter of [ip] as the answering backend holds it after a call. *)
Definition stored_count (r' : RateLimiter) (srv' : Redis.Server)
    (by_redis : bool) (ip : string) (tk : Z) : Z :=
  if by_redis then default 0 (Redis.counters srv' !! minuteKey ip tk)
  else default 0 (inMemCount r' !! ip).

(** A sequence of calls on the volatile path, oldest first. *)
Fixpoint allowInMem_run (r : RateLimiter) (ip : string) (rpm : Z)
    (ts : list Z) : list (bool * Z) * RateLimiter :=
  match ts with
  | [] => ([], r)
  | t :: ts' =>
      let '(res, r1) := allowInMem r ip rpm t in
      let '(out, r2) := allowInMem_run r1 ip rpm ts' in
      (res :: out, r2)
  end.

End RateLimit.

(** ** shared/job.go *)

Module Job.

Inductive JobStatus :=
  | JobStatusPending
  | JobStatusProcessing
  | JobStatusCompleted
  | JobStatusFailed.

#[global] Instance JobStatus_eq_dec : EqDecision JobStatus.
Proof. solve_decision. Defined.

(** Go pointers: addresses into the heap below. *)
Definition loc := positive.

(** [Duration] is a float64, carried as its 64 bits. *)
Record Metadata := mkMetadata {
  Title : string;
  Uploader : string;
  Duration : Z;
  AudioURL : string;
  Ext : string;
  Abr : Z
}.

(** The struct [Job].  Its three pointer fields ([Metadata], [StartedAt],
    [CompletedAt] in the source) are addresses, [None] being nil; the
    first is named [Meta] here because the type already has the name. *)
Record Job := mkJob {
  ID : string;
  OriginalURL : string;
  Status : JobStatus;
  Meta : option loc;
  DownloadEndpoint : string;
  Error : string;
  CreatedAt : Z;
  StartedAt : option loc;
  CompletedAt : option loc;
  FilePath : string
}.

Record Heap := mkHeap {
  jobs_at : gmap loc Job;
  metas_at : gmap loc Metadata;
  times_at : gmap loc Z
}.

Definition empty_heap : Heap :=
  {| jobs_at := ∅; metas_at := ∅; times_at := ∅ |}.

(** [&Job{...}], [&Metadata{...}] and [&now]: a fresh address. *)
Definition new_job (h : Heap) (j : Job) : loc * Heap :=
  let p := fresh (dom (jobs_at h)) in
  (p, {| jobs_at := <[p := j]> (jobs_at h);
         metas_at := metas_at h; times_at := times_at h |}).

Definition new_meta (h : Heap) (m : Metadata) : loc * Heap :=
  let p := fresh (dom (metas_at h)) in
  (p, {| jobs_at := jobs_at h;
         metas_at := <[p := m]> (metas_at h); times_at := times_at h |}).

Definition new_time (h : Heap) (t : Z) : loc * Heap :=
  let p := fresh (dom (times_at h)) in
  (p, {| jobs_at := jobs_at h; metas_at := metas_at h;
         times_at := <[p := t]> (times_at h) |}).

(** Assignment through a pointer: [*p = j] and [*m = v]. *)
Definition store_job (h : Heap) (p : loc) (j : Job) : Heap :=
  {| jobs_at := <[p := j]> (jobs_at h);
     metas_at := metas_at h; times_at := times_at h |}.

Definition store_meta (h : Heap) (m : loc) (v : Metadata) : Heap :=
  {| jobs_at := jobs_at h;
     metas_at := <[m := v]> (metas_at h); times_at := times_at h |}.

Definition set_Status (s : JobStatus) (j : Job) : Job :=
  {| ID := ID j; OriginalURL := OriginalURL j; Status := s; Meta := Meta j;
     DownloadEndpoint := DownloadEndpoint j; Error := Error j;
     CreatedAt := CreatedAt j; StartedAt := StartedAt j;
     CompletedAt := CompletedAt j; FilePath := FilePath j |}.

Definition set_Error (e : string) (j : Job) : Job :=
  {| ID := ID j; OriginalURL := OriginalURL j; Status := Status j;
     Meta := Meta j; DownloadEndpoint := DownloadEndpoint j; Error := e;
     CreatedAt := CreatedAt j; StartedAt := StartedAt j;
     CompletedAt := CompletedAt j; FilePath := FilePath j |}.

Definition set_StartedAt (t : option loc) (j : Job) : Job :=
  {| ID := ID j; OriginalURL := OriginalURL j; Status := Status j;
     Meta := Meta j; DownloadEndpoint := DownloadEndpoint j;
     Error := Error j; CreatedAt := CreatedAt j; StartedAt := t;
     CompletedAt := CompletedAt j; FilePath := FilePath j |}.

Definition set_CompletedAt (t : option loc) (j : Job) : Job :=
  {| ID := ID j; OriginalURL := OriginalURL j; Status := Status j;
     Meta := Meta j; DownloadEndpoint := DownloadEndpoint j;
     Error := Error j; CreatedAt := CreatedAt j; StartedAt := StartedAt j;
     CompletedAt := t; FilePath := FilePath j |}.

Definition set_Meta (m : option loc) (j : Job) : Job :=
  {| ID := ID j; OriginalURL := OriginalURL j; Status := Status j;
     Meta := m; DownloadEndpoint := DownloadEndpoint j;
     Error := Error j; CreatedAt := CreatedAt j; StartedAt := StartedAt j;
     CompletedAt := CompletedAt j; FilePath := FilePath j |}.

Definition set_FilePath (f : string) (j : Job) : Job :=
  {| ID := ID j; OriginalURL := OriginalURL j; Status := Status j;
     Meta := Meta j; DownloadEndpoint := DownloadEndpoint j;
     Error := Error j; CreatedAt := CreatedAt j; StartedAt := StartedAt j;
     CompletedAt := CompletedAt j; FilePath := f |}.

Definition set_DownloadEndpoint (d : string) (j : Job) : Job :=
  {| ID := ID j; OriginalURL := OriginalURL j; Status := Status j;
     Meta := Meta j; DownloadEndpoint := d;
     Error := Error j; CreatedAt := CreatedAt j; StartedAt := StartedAt j;
     CompletedAt := CompletedAt j; FilePath := FilePath j |}.

Definition set_Title (t : string) (m : Metadata) : Metadata :=
  {| Title := t; Uploader := Uploader m; Duration := Duration m;
     AudioURL := AudioURL m; Ext := Ext m; Abr := Abr m |}.

(** What a reader of the job at [p] sees, pointers followed. *)
Record JobView := mkJobView {
  v_job : Job;
  v_meta : option Metadata;
  v_started : option Z;
  v_completed : option Z
}.

Definition view (h : Heap) (p : loc) : option JobView :=
  j ← jobs_at h !! p;
  Some {| v_job := j;
          v_meta := m ← Meta j; metas_at h !! m;
          v_started := t ← StartedAt j; times_at h !! t;
          v_completed := t ← CompletedAt j; times_at h !! t |}.

End Job.

(** ** shared/db.go: the volatile store *)

Module DB.

Import Job.

(** The errors of the store contract.  The sources build them with
    [fmt.Errorf]: "job with ID %s already exists", "... not found",
    "... not found for update", "... not found for deletion"; a failed
    round trip to Redis surfaces the client's error. *)
Inductive error := AlreadyExists | NotFound | BackendUnavailable.

Record InMemoryDB := mkInMemoryDB { jobs : gmap string loc }.

Definition NewInMemoryDB : InMemoryDB := {| jobs := ∅ |}.

(** Every operation runs under [jobsMutex] and is one atomic step.  A
    [job] argument is a non-nil pointer; the functions read [job.ID]
    through it. *)
Definition CreateJob (db : InMemoryDB) (h : Heap) (job : loc)
  : option error * InMemoryDB :=
  match jobs_at h !! job with
  | None => (Some NotFound, db)
  | Some j =>
      match jobs db !! ID j with
      | Some _ => (Some AlreadyExists, db)
      | None => (None, {| jobs := <[ID j := job]> (jobs db) |})
      end
  end.

Definition GetJob (db : InMemoryDB) (h : Heap) (jobID : string)
  : (error + loc) * Heap :=
  match jobs db !! jobID with
  | None => (inl NotFound, h)
  | Some job =>
      match jobs_at h !! job with
      | None => (inl NotFound, h)
      | Some j => let '(copiedJob, h') := new_job h j in (inr copiedJob, h')
      end
  end.

Definition UpdateJob (db : InMemoryDB) (h : Heap) (job : loc)
  : option error * InMemoryDB :=
  match jobs_at h !! job with
  | None => (Some NotFound, db)
  | Some j =>
      match jobs db !! ID j with
      | None => (Some NotFound, db)
      | Some _ => (None, {| jobs := <[ID j := job]> (jobs db) |})
      end
  end.

Definition DeleteJob (db : InMemoryDB) (jobID : string)
  : option error * InMemoryDB :=
  match jobs db !! jobID with
  | None => (Some NotFound, db)
  | Some _ => (None, {| jobs := delete jobID (jobs db) |})
  end.

(** The record the store holds under [jobID], as a reader sees it. *)
Definition stored (db : InMemoryDB) (h : Heap) (jobID : string)
  : option JobView :=
  p ← jobs db !! jobID; view h p.

(** Every pointer held by the store is allocated. *)
Definition wf (db : InMemoryDB) (h : Heap) : Prop :=
  ∀ id p, jobs db !! id = Some p → is_Some (jobs_at h !! p).

End DB.

(** ** shared/db_redis.go: the durable store *)

Module RedisDB.

Import DB.

Definition jobKey (id : string) : string := "job:" +:+ id.

(** The transaction of [DeleteJob]: DEL job:<id> and ZREM jobs <id>. *)
Definition del_zrem (srv : Redis.Server) (jobID : string) : Redis.Server :=
  {| Redis.counters := Redis.counters srv;
     Redis.deadlines := Redis.deadlines srv;
     Redis.values := delete (jobKey jobID) (Redis.values srv);
     Redis.zsets :=
       match Redis.zsets srv !! "jobs" with
       | Some z => <["jobs" := delete jobID z]> (Redis.zsets srv)
       | None => Redis.zsets srv
       end |}.

(** The transaction of [CreateJob]: SET job:<id> b and ZADD jobs score id;
    [b] is [json.Marshal(job)] and [score] is [job.CreatedAt.Unix()]. *)
Definition set_zadd (srv : Redis.Server) (jobID b : string) (score : Z)
  : Redis.Server :=
  {| Redis.counters := Redis.counters srv;
     Redis.deadlines := Redis.deadlines srv;
     Redis.values := <[jobKey jobID := b]> (Redis.values srv);
     Redis.zsets :=
       <["jobs" := <[jobID := score]> (default ∅ (Redis.zsets srv !! "jobs"))]>
         (Redis.zsets srv) |}.

Definition exists_key (srv : Redis.Server) (key : string) : bool :=
  bool_decide (is_Some (Redis.values srv !! key)).

Definition CreateJob (srv : Redis.Server) (jobID b : string) (score : Z)
    (n1 n2 : Redis.Net) : option error * Redis.Server :=
  if Redis.failed n1 then (Some BackendUnavailable, srv)
  else if exists_key srv (jobKey jobID) then (Some AlreadyExists, srv)
  else
    let srv' := if Redis.applied n2 then set_zadd srv jobID b score else srv in
    (if Redis.failed n2 then Some BackendUnavailable else None, srv').

(** [GetJob] up to [json.Unmarshal]: the bytes stored under the key. *)
Definition GetJob (srv : Redis.Server) (jobID : string) (n1 : Redis.Net)
  : error + string :=
  if Redis.failed n1 then inl BackendUnavailable
  else match Redis.values srv !! jobKey jobID with
       | None => inl NotFound
       | Some b => inr b
       end.

Definition UpdateJob (srv : Redis.Server) (jobID b : string)
    (n1 n2 : Redis.Net) : option error * Redis.Server :=
  if Redis.failed n1 then (Some BackendUnavailable, srv)
  else if negb (exists_key srv (jobKey jobID)) then (Some NotFound, srv)
  else
    let srv' :=
      if Redis.applied n2 then
        {| Redis.counters := Redis.counters srv;
           Redis.deadlines := Redis.deadlines srv;
           Redis.values := <[jobKey jobID := b]> (Redis.values srv);
           Redis.zsets := Redis.zsets srv |}
      else srv in
    (if Redis.failed n2 then Some BackendUnavailable else None, srv').

(** [DeleteJob] sends the transaction and returns the error of [Exec]. *)
Definition DeleteJob (srv : Redis.Server) (jobID : string) (n1 : Redis.Net)
  : option error * Redis.Server :=
  let srv' := if Redis.applied n1 then del_zrem srv jobID else srv in
  (if Redis.failed n1 then Some BackendUnavailable else None, srv').

(** A record is present when its key or its index entry is. *)
Definition present (srv : Redis.Server) (jobID : string) : bool :=
  exists_key srv (jobKey jobID)
  || bool_decide (is_Some (default ∅ (Redis.zsets srv !! "jobs") !! jobID)).

End RedisDB.

(** ** shared/queue.go: the volatile message bus *)

Module Queue.

Record JobMessage := mkJobMessage { JobID : string; OriginalURL : string }.

(** A buffered channel: the messages in the buffer (oldest first), the
    capacity given to [make], and whether [close] was called. *)
Record Chan := mkChan {
  buf : list JobMessage;
  cap : Z;
  closed : bool
}.

(** [stop] carries no values, so only its being closed matters; [once]
    is whether the [sync.Once] of [Close] has fired. *)
Record InMemoryQueue := mkInMemoryQueue {
  queue : Chan;
  stop : bool;
  once : bool
}.

Definition NewInMemoryQueue (bufferSize : Z) : InMemoryQueue :=
  {| queue := {| buf := []; cap := bufferSize; closed := false |};
     stop := false; once := false |}.

Inductive PublishResult :=
  | Published            (* nil *)
  | QueueClosed          (* "queue is closed, cannot publish" *)
  | QueueFull            (* "queue is full, cannot publish job %s" *)
  | SendOnClosedChannel. (* run-time panic *)

#[global] Instance PublishResult_eq_dec : EqDecision PublishResult.
Proof. solve_decision. Defined.

(** When several cases of a [select] can proceed, Go picks one at random;
    the pick is an input. *)
Inductive Select := SendCase | StopCase.

(** A channel send can proceed when there is room in the buffer, and also
    when the channel is closed, in which case it panics.  No goroutine is
    taken to be blocked receiving: a waiting consumer takes the message
    from the buffer in a step of its own. *)
Definition send_ready (c : Chan) : bool :=
  closed c || (Z.of_nat (length (buf c)) <? cap c).

Definition send (q : InMemoryQueue) (message : JobMessage)
  : PublishResult * InMemoryQueue :=
  if closed (queue q) then (SendOnClosedChannel, q)
  else (Published,
        {| queue := {| buf := buf (queue q) ++ [message];
                       cap := cap (queue q); closed := false |};
           stop := stop q; once := once q |}).

Definition Publish (q : InMemoryQueue) (message : JobMessage) (pick : Select)
  : PublishResult * InMemoryQueue :=
  match send_ready (queue q), stop q with
  | true, true =>
      match pick with
      | SendCase => send q message
      | StopCase => (QueueClosed, q)
      end
  | true, false => send q message
  | false, true => (QueueClosed, q)
  | false, false => (QueueFull, q)
  end.

Definition Close (q : InMemoryQueue) : InMemoryQueue :=
  if once q then q
  else {| queue := {| buf := buf (queue q); cap := cap (queue q);
                      closed := true |};
          stop := true; once := true |}.

(** One receive on the channel returned by [Consume]: the oldest message
    when there is one; [None] when the receive cannot proceed now. *)
Definition receive (q : InMemoryQueue) : option (JobMessage * InMemoryQueue) :=
  match buf (queue q) with
  | [] => None
  | m :: rest =>
      Some (m, {| queue := {| buf := rest; cap := cap (queue q);
                              closed := closed (queue q) |};
                  stop := stop q; once := once q |})
  end.

(** Publishing a list of messages, in order, with no consumer. *)
Fixpoint publish_all (q : InMemoryQueue) (ms : list JobMessage) (pick : Select)
  : list PublishResult * InMemoryQueue :=
  match ms with
  | [] => ([], q)
  | m :: ms' =>
      let '(r, q1) := Publish q m pick in
      let '(rs, q2) := publish_all q1 ms' pick in
      (r :: rs, q2)
  end.

End Queue.

(** ** api-gateway/main.go and worker/main.go

    The gateway's submission handler and the worker's dispatcher, run
    against one store and one bus (the sources create both with
    [NewInMemoryDB()] and [NewInMemoryQueue(100)] and note that the two
    services have to share the instances). *)

Module System.

Import Config Job DB Queue.

(** Calls made on the shared components, in the order they return. *)
Inductive Event :=
  | EvAllow (ip : string) (allowed : bool)
  | EvCreateJob (id : string) (st : JobStatus) (err : option error)
  | EvGetJob (id : string) (err : option error)
  | EvUpdateJob (id : string) (st : JobStatus) (err : option error)
  | EvPublish (id : string) (res : PublishResult).

(** The goroutine spawned for a message: where it stands in
    [processJob], with the pointer [job] once [GetJob] has returned. *)
Inductive PC :=
  | AtGetJob
  | AtProcessing (job : loc)
  | AtExecutor (job : loc)
  | Returned.

Record Worker := mkWorker { jobMessage : JobMessage; pc : PC }.

(** The loop of [startQueueConsumer]. *)
Inductive Dispatcher :=
  | Ranging
  | Acquiring (msg : JobMessage).

Record World := mkWorld {
  heap : Heap;
  db : InMemoryDB;
  mq : InMemoryQueue;
  workerLimiter : nat;
  dispatcher : Dispatcher;
  workers : list Worker;
  trace : list Event
}.

Definition init : World :=
  {| heap := empty_heap; db := NewInMemoryDB; mq := NewInMemoryQueue 100;
     workerLimiter := 0; dispatcher := Ranging; workers := []; trace := [] |}.

Definition with_heap (h : Heap) (w : World) : World :=
  {| heap := h; db := db w; mq := mq w; workerLimiter := workerLimiter w;
     dispatcher := dispatcher w; workers := workers w; trace := trace w |}.

Definition with_mq (q : InMemoryQueue) (w : World) : World :=
  {| heap := heap w; db := db w; mq := q; workerLimiter := workerLimiter w;
     dispatcher := dispatcher w; workers := workers w; trace := trace w |}.

Definition with_workers (ws : list Worker) (w : World) : World :=
  {| heap := heap w; db := db w; mq := mq w;
     workerLimiter := workerLimiter w; dispatcher := dispatcher w;
     workers := ws; trace := trace w |}.

Definition log (e : Event) (w : World) : World :=
  {| heap := heap w; db := db w; mq := mq w;
     workerLimiter := workerLimiter w; dispatcher := dispatcher w;
     workers := workers w; trace := trace w ++ [e] |}.

(** The store calls, with their record in the trace. *)
Definition db_CreateJob (w : World) (job : loc) : option error * World :=
  let '(err, db') := CreateJob (db w) (heap w) job in
  let w' := {| heap := heap w; db := db'; mq := mq w;
               workerLimiter := workerLimiter w; dispatcher := dispatcher w;
               workers := workers w; trace := trace w |} in
  match jobs_at (heap w) !! job with
  | Some j => (err, log (EvCreateJob (ID j) (Status j) err) w')
  | None => (err, w')
  end.

Definition db_UpdateJob (w : World) (job : loc) : option error * World :=
  let '(err, db') := UpdateJob (db w) (heap w) job in
  let w' := {| heap := heap w; db := db'; mq := mq w;
               workerLimiter := workerLimiter w; dispatcher := dispatcher w;
               workers := workers w; trace := trace w |} in
  match jobs_at (heap w) !! job with
  | Some j => (err, log (EvUpdateJob (ID j) (Status j) err) w')
  | None => (err, w')
  end.

Definition db_GetJob (w : World) (jobID : string) : (error + loc) * World :=
  let '(res, h') := GetJob (db w) (heap w) jobID in
  (res, log (EvGetJob jobID (match res with inl e => Some e | inr _ => None end))
            (with_heap h' w)).

Definition mq_Publish (w : World) (m : JobMessage) (pick : Select)
  : PublishResult * World :=
  let '(res, q') := Publish (mq w) m pick in
  (res, log (EvPublish (JobID m) res) (with_mq q' w)).

(** Assignment to fields of [*job]. *)
Definition assign (w : World) (job : loc) (f : Job → Job) : World :=
  match jobs_at (heap w) !! job with
  | Some j => with_heap (store_job (heap w) job (f j)) w
  | None => w
  end.

(** *** handleExtract *)

(** [shared.Request], and the request as the handler reads it: the method
    and the outcome of decoding the body ([None]: not valid JSON). *)
Record Request := mkRequest { URL : string }.
Record HttpRequest := mkHttpRequest { Method : string; decoded : option Request }.

Inductive Reply :=
  | Empty
  | Aborted
  | HttpError (code : Z) (msg : string)
  | Accepted (job_id : string) (status : JobStatus).

(** [err.Error()] for the errors of [Publish]. *)
Definition errorText (r : PublishResult) (jobID : string) : string :=
  match r with
  | QueueClosed => "queue is closed, cannot publish"
  | QueueFull => "queue is full, cannot publish job " +:+ jobID
  | _ => ""
  end.

(** [jobID] is the value of [uuid.New().String()] and [now] the one of
    [time.Now()].  A panic of [Publish] ends the handler's goroutine; the
    HTTP server recovers it and the connection is dropped. *)
Definition handleExtract (w : World) (r : HttpRequest) (jobID : string)
    (now : Z) (pick : Select) : Reply * World :=
  if String.eqb (Method r) "OPTIONS" then (Empty, w)
  else if negb (String.eqb (Method r) "POST")
  then (HttpError 405 "Invalid request method", w)
  else
    match decoded r with
    | None => (HttpError 400 "Invalid JSON", w)
    | Some req =>
        if String.eqb (URL req) "" then (HttpError 400 "Missing YouTube URL", w)
        else
          let '(job, h1) :=
            new_job (heap w)
              {| ID := jobID; Job.OriginalURL := URL req;
                 Status := JobStatusPending; Meta := None;
                 DownloadEndpoint := ""; Error := ""; CreatedAt := now;
                 StartedAt := None; CompletedAt := None; FilePath := "" |} in
          let w1 := with_heap h1 w in
          match db_CreateJob w1 job with
          | (Some _, w2) => (HttpError 500 "Failed to initialize job", w2)
          | (None, w2) =>
              let jobMessage :=
                {| JobID := jobID; Queue.OriginalURL := URL req |} in
              match mq_Publish w2 jobMessage pick with
              | (Published, w3) => (Accepted jobID JobStatusPending, w3)
              | (SendOnClosedChannel, w3) => (Aborted, w3)
              | (res, w3) =>
                  let w4 := assign w3 job (set_Status JobStatusFailed) in
                  let w5 :=
                    assign w4 job
                      (set_Error ("Failed to queue job: " +:+ errorText res jobID)) in
                  let '(_, w6) := db_UpdateJob w5 job in
                  (HttpError 500 "Failed to submit job to processing queue", w6)
              end
          end
    end.

(** *** processJob *)

(** What the external executor reports: [getAudioStream] failed,
    [convertToMP3] failed, or both succeeded. *)
Inductive Outcome :=
  | YtDlpFailed (err : string)
  | FfmpegFailed (audioURL : string) (meta : Metadata) (err : string)
  | Converted (audioURL : string) (meta : Metadata) (filePath : string).

Definition handleJobFailure (w : World) (job : loc) (errMsg : string)
    (failedNow : Z) : World :=
  let w1 := assign w job (set_Status JobStatusFailed) in
  let w2 := assign w1 job (set_Error errMsg) in
  let '(t, h) := new_time (heap w2) failedNow in
  let w3 := assign (with_heap h w2) job (set_CompletedAt (Some t)) in
  snd (db_UpdateJob w3 job).

(** Lines 84-94: load the job. *)
Definition processJob_get (w : World) (m : JobMessage) : PC * World :=
  match db_GetJob w (JobID m) with
  | (inl _, w') => (Returned, w')
  | (inr job, w') => (AtProcessing job, w')
  end.

(** Lines 96-103: mark it as processing. *)
Definition processJob_mark (w : World) (job : loc) (now : Z) : PC * World :=
  let w1 := assign w job (set_Status JobStatusProcessing) in
  let '(t, h) := new_time (heap w1) now in
  let w2 := assign (with_heap h w1) job (set_StartedAt (Some t)) in
  (AtExecutor job, snd (db_UpdateJob w2 job)).

(** Lines 105-135: the executor has reported; record the result. *)
Definition processJob_finish (c : Config) (w : World) (m : JobMessage)
    (job : loc) (out : Outcome) (now : Z) : PC * World :=
  match out with
  | YtDlpFailed err =>
      (Returned, handleJobFailure w job ("yt-dlp failed: " +:+ err) now)
  | FfmpegFailed _ meta err =>
      let '(_, h) := new_meta (heap w) meta in
      (Returned,
       handleJobFailure (with_heap h w) job ("ffmpeg failed: " +:+ err) now)
  | Converted _ meta filePath =>
      let '(mp, h) := new_meta (heap w) meta in
      let w0 := with_heap h w in
      let w1 := assign w0 job (set_Status JobStatusCompleted) in
      let w2 := assign w1 job (set_Meta (Some mp)) in
      let w3 := assign w2 job (set_FilePath filePath) in
      let w4 :=
        assign w3 job
          (set_DownloadEndpoint
             ("http://localhost:" +:+ APIGatewayPort c +:+ "/download/"
              +:+ JobID m)) in
      let '(t, h') := new_time (heap w4) now in
      let w5 := assign (with_heap h' w4) job (set_CompletedAt (Some t)) in
      (Returned, snd (db_UpdateJob w5 job))
  end.

(** *** The interleavings

    One action is one atomic step of one goroutine: a whole run of the
    submission handler, or a step of the dispatch loop, or a step of a
    spawned goroutine, named by its position in [workers]. *)
Inductive Action :=
  | Submit (r : HttpRequest) (jobID : string) (now : Z) (pick : Select)
  | Receive
  | Acquire
  | GetStep (i : nat)
  | MarkStep (i : nat) (now : Z)
  | FinishStep (i : nat) (out : Outcome) (now : Z)
  | Release (i : nat).

Definition set_worker (i : nat) (wk : Worker) (pcw : PC * World) : World :=
  with_workers
    (<[i := {| jobMessage := jobMessage wk; pc := fst pcw |}]> (workers (snd pcw)))
    (snd pcw).

(** [None]: the action cannot proceed in this state (the goroutine is
    blocked, or is not at that point). *)
Definition exec (c : Config) (a : Action) (w : World) : option World :=
  match a with
  | Submit r jobID now pick => Some (snd (handleExtract w r jobID now pick))
  | Receive =>
      match dispatcher w with
      | Ranging =>
          '(msg, q') ← receive (mq w);
          Some {| heap := heap w; db := db w; mq := q';
                  workerLimiter := workerLimiter w;
                  dispatcher := Acquiring msg;
                  workers := workers w; trace := trace w |}
      | Acquiring _ => None
      end
  | Acquire =>
      match dispatcher w with
      | Acquiring msg =>
          if Z.of_nat (workerLimiter w) <? MaxWorkers c then
            Some {| heap := heap w; db := db w; mq := mq w;
                    workerLimiter := S (workerLimiter w);
                    dispatcher := Ranging;
                    workers := workers w ++ [{| jobMessage := msg; pc := AtGetJob |}];
                    trace := trace w |}
          else None
      | Ranging => None
      end
  | GetStep i =>
      wk ← workers w !! i;
      match pc wk with
      | AtGetJob => Some (set_worker i wk (processJob_get w (jobMessage wk)))
      | _ => None
      end
  | MarkStep i now =>
      wk ← workers w !! i;
      match pc wk with
      | AtProcessing job => Some (set_worker i wk (processJob_mark w job now))
      | _ => None
      end
  | FinishStep i out now =>
      wk ← workers w !! i;
      match pc wk with
      | AtExecutor job =>
          Some (set_worker i wk (processJob_finish c w (jobMessage wk) job out now))
      | _ => None
      end
  | Release i =>
      wk ← workers w !! i;
      match pc wk, workerLimiter w with
      | Returned, S n =>
          Some {| heap := heap w; db := db w; mq := mq w;
                  workerLimiter := n; dispatcher := dispatcher w;
                  workers := delete i (workers w); trace := trace w |}
      | _, _ => None
      end
  end.

Fixpoint run (c : Config) (acts : list Action) (w : World) : option World :=
  match acts with
  | [] => Some w
  | a :: rest => w' ← exec c a w; run c rest w'
  end.

(** The goroutines that are inside [processJob]. *)
Definition running (wk : Worker) : bool :=
  match pc wk with Returned => false | _ => true end.

Definition executing (w : World) : nat := length (filter running (workers w)).

(** The statuses written to the store under [id], oldest first: those of
    the [CreateJob] and [UpdateJob] calls that succeeded. *)
Fixpoint statuses (id : string) (tr : list Event) : list JobStatus :=
  match tr with
  | [] => []
  | EvCreateJob id' st None :: rest
  | EvUpdateJob id' st None :: rest =>
      if String.eqb id id' then st :: statuses id rest else statuses id rest
  | _ :: rest => statuses id rest
  end.

Definition is_allow (e : Event) : bool :=
  match e with EvAllow _ _ => true | _ => false end.

Definition is_create (e : Event) : bool :=
  match e with EvCreateJob _ _ _ => true | _ => false end.

End System.

(** * Properties *)

(** ** Machine integers and time *)

Module GoIntFacts.

Lemma int_wrap_id z : in_int z → int_wrap z = z.
Proof.
  unfold in_int, int_min, int_max, int_wrap. intros Hz.
  rewrite Z.mod_small by lia. lia.
Qed.

Lemma int_wrap_in_int z : in_int (int_wrap z).
Proof.
  unfold in_int, int_min, int_max, int_wrap.
  pose proof (Z.mod_pos_bound (z + 2 ^ 63) (2 ^ 64) ltac:(lia)). lia.
Qed.

Lemma int_add_small a b : in_int (a + b) → int_add a b = a + b.
Proof. apply int_wrap_id. Qed.

Lemma int_sub_small a b : in_int (a - b) → int_sub a b = a - b.
Proof. apply int_wrap_id. Qed.

Lemma Sub_small t u : in_int (t - u) → GoTime.Sub t u = t - u.
Proof. unfold in_int, GoTime.Sub. lia. Qed.

End GoIntFacts.

(** ** Configuration *)

Module ConfigFacts.

Import Config.

(** A decimal integer of at least one that fits an [int]. *)
Definition positive_int (s : string) : option Z :=
  match Strconv.Atoi s with
  | (n, false) => if 1 <=? n then Some n else None
  | (_, true) => None
  end.

Section AnyParser.

Variable atoi : string → Z * bool.

Lemma env_int_lower lo dflt v : lo <= dflt → lo <= env_int atoi lo dflt v.
Proof.
  intros Hd. unfold env_int.
  destruct (String.eqb v EmptyString); [exact Hd|].
  destruct (atoi v) as [n err].
  destruct (negb err && (lo <=? n)) eqn:E; [|exact Hd].
  apply andb_true_iff in E as [_ E]. lia.
Qed.

Lemma LoadConfig_with_MaxWorkers env :
  1 <= MaxWorkers (LoadConfig_with atoi env).
Proof.
  unfold LoadConfig_with.
  destruct (atoi (Getenv env "MAX_WORKERS")) as [n err]. simpl.
  destruct (err || (n <=? 0)) eqn:E; [unfold DefaultMaxWorkers; lia|].
  apply orb_false_iff in E as [_ E]. lia.
Qed.

Lemma LoadConfig_with_RateLimitRPM env :
  1 <= RateLimitRPM (LoadConfig_with atoi env).
Proof.
  unfold LoadConfig_with.
  destruct (atoi (Getenv env "MAX_WORKERS")) as [n err]. simpl.
  apply env_int_lower. unfold DefaultRateLimitRPM. lia.
Qed.

End AnyParser.

Lemma Atoi_empty : Strconv.Atoi "" = (0, true).
Proof. reflexivity. Qed.

Lemma MaxWorkers_value env :
  MaxWorkers (LoadConfig env)
  = default 3 (positive_int (Getenv env "MAX_WORKERS")).
Proof.
  unfold LoadConfig, LoadConfig_with, positive_int.
  destruct (Strconv.Atoi (Getenv env "MAX_WORKERS")) as [n [|]]; simpl; [done|].
  destruct (n <=? 0) eqn:E1, (1 <=? n) eqn:E2; simpl; try done; lia.
Qed.

Lemma RateLimitRPM_value env :
  RateLimitRPM (LoadConfig env)
  = default 300 (positive_int (Getenv env "RATE_LIMIT_RPM")).
Proof.
  unfold LoadConfig, LoadConfig_with, positive_int.
  destruct (Strconv.Atoi (Getenv env "MAX_WORKERS")) as [n0 e0]. simpl.
  unfold env_int.
  destruct (String.eqb (Getenv env "RATE_LIMIT_RPM") "") eqn:E.
  - apply String.eqb_eq in E. rewrite E. reflexivity.
  - destruct (Strconv.Atoi (Getenv env "RATE_LIMIT_RPM")) as [n [|]]; simpl;
      [done|]. by destruct (1 <=? n).
Qed.

Example MaxWorkers_unset : MaxWorkers (LoadConfig ∅) = 3.
Proof. reflexivity. Qed.

Example MaxWorkers_not_numeric :
  MaxWorkers (LoadConfig {[ "MAX_WORKERS" := "four" ]}) = 3.
Proof. vm_compute. reflexivity. Qed.

Example MaxWorkers_zero :
  MaxWorkers (LoadConfig {[ "MAX_WORKERS" := "0" ]}) = 3.
Proof. vm_compute. reflexivity. Qed.

Example MaxWorkers_negative :
  MaxWorkers (LoadConfig {[ "MAX_WORKERS" := "-2" ]}) = 3.
Proof. vm_compute. reflexivity. Qed.

Example MaxWorkers_set :
  MaxWorkers (LoadConfig {[ "MAX_WORKERS" := "8" ]}) = 8.
Proof. vm_compute. reflexivity. Qed.

Example RateLimitRPM_unset : RateLimitRPM (LoadConfig ∅) = 300.
Proof. reflexivity. Qed.

Example RateLimitRPM_zero :
  RateLimitRPM (LoadConfig {[ "RATE_LIMIT_RPM" := "0" ]}) = 300.
Proof. vm_compute. reflexivity. Qed.

Example RateLimitRPM_negative :
  RateLimitRPM (LoadConfig {[ "RATE_LIMIT_RPM" := "-10" ]}) = 300.
Proof. vm_compute. reflexivity. Qed.

Example RateLimitRPM_too_large :
  RateLimitRPM (LoadConfig {[ "RATE_LIMIT_RPM" := "9223372036854775808" ]})
  = 300.
Proof. vm_compute. reflexivity. Qed.

Example RateLimitRPM_set :
  RateLimitRPM (LoadConfig {[ "RATE_LIMIT_RPM" := "2" ]}) = 2.
Proof. vm_compute. reflexivity. Qed.

(** C10.  Whatever the environment holds, [LoadConfig] returns a
    configuration with at least one worker and a quota of at least one
    request per minute: a value of MAX_WORKERS (RATE_LIMIT_RPM) that is
    unset, not a number, zero or negative gives the default 3 (300).  The
    quota is therefore never zero or negative, so the branch of [Allow]
    that switches limiting off is not taken for a limiter built from the
    environment. *)
Theorem LoadConfig_bounds (env : gmap string string) :
  1 <= MaxWorkers (LoadConfig env)
  ∧ 1 <= RateLimitRPM (LoadConfig env)
  ∧ MaxWorkers (LoadConfig env)
    = default 3 (positive_int (Getenv env "MAX_WORKERS"))
  ∧ RateLimitRPM (LoadConfig env)
    = default 300 (positive_int (Getenv env "RATE_LIMIT_RPM"))
  ∧ (RateLimitRPM (LoadConfig env) <=? 0) = false.
Proof.
  pose proof (LoadConfig_with_MaxWorkers Strconv.Atoi env) as Hw.
  pose proof (LoadConfig_with_RateLimitRPM Strconv.Atoi env) as Hr.
  fold (LoadConfig env) in Hw, Hr.
  repeat split; try assumption.
  - apply MaxWorkers_value.
  - apply RateLimitRPM_value.
  - lia.
Qed.

End ConfigFacts.

(** ** Rate limiter *)

Module RateLimitFacts.

Import Config GoTime RateLimit GoIntFacts.

(** The four calls of the scenario: one client, clock readings [t1] to
    [t4], every INCR answered, [n2] the fate of EXPIRE. *)
Definition four_calls (r : RateLimiter) (srv : Redis.Server) (ip : string)
    (t1 t2 t3 t4 : Z) (n2 : Redis.Net) : list (bool * Z) :=
  let '(a1, r1, s1) := Allow r srv ip t1 t1 Redis.Answered n2 in
  let '(a2, r2, s2) := Allow r1 s1 ip t2 t2 Redis.Answered n2 in
  let '(a3, r3, s3) := Allow r2 s2 ip t3 t3 Redis.Answered n2 in
  let '(a4, _, _) := Allow r3 s3 ip t4 t4 Redis.Answered n2 in
  [a1; a2; a3; a4].

(** Three calls in one window and a fourth after it: for the volatile
    path, the first call opens a window that holds the next two and that
    the fourth is past; for the durable path, the first three calls fall
    under one minute key that the server does not hold yet and that has
    not expired, and the fourth under another one. *)
Definition rapid_then_rollover (client : option Client) (srv : Redis.Server)
    (ip : string) (t1 t2 t3 t4 : Z) : Prop :=
  match client with
  | None =>
      60 * Second < Sub t1 zeroTime
      ∧ Sub t2 t1 <= 60 * Second ∧ Sub t3 t1 <= 60 * Second
      ∧ 60 * Second < Sub t4 t1
  | Some _ =>
      minuteKey ip t2 = minuteKey ip t1 ∧ minuteKey ip t3 = minuteKey ip t1
      ∧ minuteKey ip t4 ≠ minuteKey ip t1
      ∧ t2 < t1 + 65 * Second ∧ t3 < t1 + 65 * Second
      ∧ Redis.counters srv !! minuteKey ip t1 = None
      ∧ Redis.deadlines srv !! minuteKey ip t1 = None
      ∧ Redis.counters srv !! minuteKey ip t4 = None
      ∧ Redis.deadlines srv !! minuteKey ip t4 = None
  end.

Definition quota2 : Config :=
  {| APIGatewayPort := ""; WorkerPort := ""; MaxWorkers := 3;
     RedisAddr := ""; RedisPassword := ""; RedisDB := 0;
     QueueMaxLength := 0; RateLimitRPM := 2;
     MaxVideoDurationSeconds := 1200 |}.

(** Clock readings of 14 November 2023, 22:13:20 UTC and a little
    later: three calls inside one second, and one 61 seconds after the
    first. *)
Definition at_unix (sec nsec : Z) : Z := (unixToInternal + sec) * Second + nsec.

Definition t_first : Z := at_unix 1700000000 0.
Definition t_second : Z := at_unix 1700000000 1000.
Definition t_third : Z := at_unix 1700000000 2000.
Definition t_later : Z := at_unix 1700000061 0.

(** *** One call on the volatile path *)

Lemma allowInMem_same_window r ip rpm now :
  Sub now (inMemTTL r) <= 60 * Second →
  allowInMem r ip rpm now =
    let n := int_add (default 0 (inMemCount r !! ip)) 1 in
    ((n <=? rpm, int_sub rpm n),
     {| cfg := cfg r; redis := redis r;
        inMemCount := <[ip := n]> (inMemCount r); inMemTTL := inMemTTL r |}).
Proof.
  intros H. unfold allowInMem.
  destruct (60 * Second <? Sub now (inMemTTL r)) eqn:E; [lia|]. reflexivity.
Qed.

Lemma allowInMem_new_window r ip rpm now :
  60 * Second < Sub now (inMemTTL r) →
  allowInMem r ip rpm now =
    ((1 <=? rpm, int_sub rpm 1),
     {| cfg := cfg r; redis := redis r;
        inMemCount := {[ ip := 1 ]}; inMemTTL := now |}).
Proof.
  intros H. unfold allowInMem.
  destruct (60 * Second <? Sub now (inMemTTL r)) eqn:E; [|lia].
  rewrite lookup_empty. reflexivity.
Qed.

Lemma allowInMem_verdict r ip rpm now :
  0 < rpm → in_int rpm → 0 <= mem_count_before r ip now < int_max →
  fst (allowInMem r ip rpm now)
  = (mem_count_before r ip now + 1 <=? rpm,
     rpm - (mem_count_before r ip now + 1))
  ∧ inMemCount (snd (allowInMem r ip rpm now)) !! ip
    = Some (mem_count_before r ip now + 1).
Proof.
  intros Hq Hin Hc. unfold allowInMem, mem_count_before in *.
  unfold in_int, int_min, int_max in *.
  destruct (60 * Second <? Sub now (inMemTTL r)); simpl;
    rewrite ?lookup_empty in *; simpl in *;
    rewrite lookup_insert_eq;
    rewrite (int_add_small _ 1) by (unfold in_int, int_min, int_max; lia);
    rewrite int_sub_small by (unfold in_int, int_min, int_max; lia);
    done.
Qed.

(** *** Calls of one client inside one window *)

Lemma allowInMem_run_window ts : ∀ r ip rpm c0,
  0 < rpm → in_int rpm →
  default 0 (inMemCount r !! ip) = c0 → 0 <= c0 →
  c0 + Z.of_nat (length ts) < int_max →
  Forall (λ t, Sub t (inMemTTL r) <= 60 * Second) ts →
  (∀ k, (k < length ts)%nat →
        fst (allowInMem_run r ip rpm ts) !! k
        = Some (c0 + Z.of_nat k + 1 <=? rpm, rpm - (c0 + Z.of_nat k + 1)))
  ∧ inMemTTL (snd (allowInMem_run r ip rpm ts)) = inMemTTL r
  ∧ default 0 (inMemCount (snd (allowInMem_run r ip rpm ts)) !! ip)
    = c0 + Z.of_nat (length ts).
Proof.
  induction ts as [|t ts IH]; intros r ip rpm c0 Hq Hin Hc0 Hpos Hmax Hall.
  - simpl. split; [intros k Hk; lia|]. split; [done|]. rewrite Hc0. lia.
  - apply Forall_cons in Hall as [Ht Hall]. simpl.
    rewrite (allowInMem_same_window _ _ _ _ Ht). cbn zeta.
    rewrite Hc0.
    rewrite (int_add_small c0 1)
      by (unfold in_int, int_min, int_max in *; simpl length in Hmax; lia).
    rewrite int_sub_small
      by (unfold in_int, int_min, int_max in *; simpl length in Hmax; lia).
    set (r1 := {| cfg := cfg r; redis := redis r;
                  inMemCount := <[ip := c0 + 1]> (inMemCount r);
                  inMemTTL := inMemTTL r |}).
    specialize (IH r1 ip rpm (c0 + 1) Hq Hin).
    destruct (allowInMem_run r1 ip rpm ts) as [out r2] eqn:Erun.
    destruct IH as (IHk & IHttl & IHc).
    + subst r1. simpl. by rewrite lookup_insert_eq.
    + lia.
    + simpl length in Hmax. lia.
    + exact Hall.
    + simpl. split; [|split].
      * intros [|k] Hk; simpl.
        -- by replace (c0 + Z.of_nat 0 + 1) with (c0 + 1) by lia.
        -- simpl in IHk. rewrite IHk by (simpl in Hk; lia).
           by replace (c0 + 1 + Z.of_nat k + 1)
             with (c0 + Z.of_nat (S k) + 1) by lia.
      * exact IHttl.
      * simpl in IHc. rewrite IHc. lia.
Qed.

(** *** One call of [Allow] *)

Lemma Expire_counters srv key now ttl net :
  Redis.counters (Redis.Expire srv key now ttl net) = Redis.counters srv.
Proof.
  unfold Redis.Expire, Redis.expire.
  destruct (Redis.applied net); [|done].
  destruct (Redis.counters srv !! key); [|done].
  by destruct (Redis.expired srv key now).
Qed.

Lemma incr_reply srv key now n srv' :
  Redis.incr srv key now = (srv', Some n) →
  n = Redis.live_counter srv key now + 1
  ∧ Redis.live_counter srv key now < int_max
  ∧ Redis.counters srv' !! key = Some n.
Proof.
  unfold Redis.incr. intros H.
  destruct (int_max <=? Redis.live_counter srv key now) eqn:E; [done|].
  inversion H; subst; clear H. simpl.
  rewrite lookup_insert_eq. repeat split; lia.
Qed.

Lemma Incr_reply srv key now net n srv' :
  Redis.Incr srv key now net = (srv', Some n) →
  net = Redis.Answered ∧ Redis.incr srv key now = (srv', Some n).
Proof. destruct net; simpl; intros H; try done. Qed.

Lemma Incr_failed srv key now net :
  Redis.failed net = true → snd (Redis.Incr srv key now net) = None.
Proof. by destruct net. Qed.

(** C5.  [Allow] under quota [q]: a quota of zero or less allows every
    request; otherwise the request is allowed exactly when the number of
    requests counted for the client in the current window, this one
    included, is at most [q], and the remaining quota is [q] minus that
    number, which is also the counter the answering backend then holds
    for the client. *)
Theorem Allow_quota (r : RateLimiter) (srv : Redis.Server) (ip : string)
    (tk tm : Z) (n1 n2 : Redis.Net) :
  in_int (RateLimitRPM (cfg r)) →
  0 <= mem_count_before r ip tm < int_max →
  0 <= Redis.live_counter srv (minuteKey ip tk) tk →
  let q := RateLimitRPM (cfg r) in
  let n := currentCount r srv ip tk tm n1 in
  let res := Allow r srv ip tk tm n1 n2 in
  if q <=? 0 then fst (fst (fst res)) = true
  else fst (fst (fst res)) = (n <=? q)
       ∧ snd (fst (fst res)) = q - n
       ∧ stored_count (snd (fst res)) (snd res)
           (served_by_redis r srv ip tk n1) ip tk = n.
Proof.
  intros Hin Hmem Hred q n res. subst n res.
  unfold Allow, currentCount, served_by_redis, stored_count. fold q.
  destruct (q <=? 0) eqn:Hq; [done|].
  assert (0 < q) as Hq' by lia.
  pose proof (allowInMem_verdict r ip q tm Hq' Hin Hmem) as [Hv Hs].
  destruct (redis r) as [c|].
  - destruct (Redis.Incr srv (minuteKey ip tk) tk n1) as [srv1 [n|]] eqn:EI.
    + apply Incr_reply in EI as [-> EI].
      apply incr_reply in EI as (-> & Hlt & Hc). simpl.
      split; [done|]. split.
      * apply int_sub_small.
        unfold in_int, int_min, int_max in *. lia.
      * destruct (_ =? 1); rewrite ?Expire_counters, Hc; done.
    + destruct (allowInMem r ip q tm) as [[a rem] r'] eqn:EA. simpl in *.
      inversion Hv; subst. rewrite Hs. done.
  - destruct (allowInMem r ip q tm) as [[a rem] r'] eqn:EA. simpl in *.
    inversion Hv; subst. rewrite Hs. done.
Qed.

Lemma Allow_quota_witness :
  fst (fst (fst (Allow (NewRateLimiter quota2 None) Redis.empty "A"
                   t_first t_first Redis.Answered Redis.Answered)))
  = true.
Proof.
  pose proof (Allow_quota (NewRateLimiter quota2 None) Redis.empty "A"
                t_first t_first Redis.Answered Redis.Answered) as H.
  simpl in H. apply H.
  - unfold in_int, int_min, int_max. lia.
  - vm_compute. split; congruence.
  - vm_compute. congruence.
Defined.

(** C9.  When the increment on the durable backend fails (the command
    does not get through, its answer is lost, or the server answers with
    an error), [Allow] returns what the volatile path returns for that
    call and leaves the limiter as the volatile path leaves it; so a
    client below its quota on the volatile path is allowed. *)
Theorem Allow_falls_back (r : RateLimiter) (srv : Redis.Server) (ip : string)
    (tk tm : Z) (n1 n2 : Redis.Net) :
  0 < RateLimitRPM (cfg r) →
  snd (Redis.Incr srv (minuteKey ip tk) tk n1) = None →
  fst (fst (Allow r srv ip tk tm n1 n2))
  = fst (allowInMem r ip (RateLimitRPM (cfg r)) tm)
  ∧ snd (fst (Allow r srv ip tk tm n1 n2))
    = snd (allowInMem r ip (RateLimitRPM (cfg r)) tm)
  ∧ (in_int (RateLimitRPM (cfg r)) →
     0 <= mem_count_before r ip tm < RateLimitRPM (cfg r) →
     fst (fst (fst (Allow r srv ip tk tm n1 n2))) = true).
Proof.
  intros Hq Herr.
  assert (fst (Allow r srv ip tk tm n1 n2)
          = allowInMem r ip (RateLimitRPM (cfg r)) tm) as Heq.
  { unfold Allow.
    destruct (RateLimitRPM (cfg r) <=? 0) eqn:E; [lia|].
    destruct (redis r).
    - destruct (Redis.Incr srv (minuteKey ip tk) tk n1) as [srv1 [n|]];
        [done|].
      by destruct (allowInMem r ip (RateLimitRPM (cfg r)) tm) as [res r'].
    - by destruct (allowInMem r ip (RateLimitRPM (cfg r)) tm) as [res r']. }
  rewrite Heq. repeat split.
  intros Hin Hc.
  destruct (allowInMem_verdict r ip _ tm Hq Hin) as [Hv _].
  { unfold in_int, int_max in *. lia. }
  rewrite Hv. simpl. lia.
Qed.

Definition redis_limiter (q : Z) : RateLimiter :=
  NewRateLimiter
    {| APIGatewayPort := ""; WorkerPort := ""; MaxWorkers := 3;
       RedisAddr := "localhost:6379"; RedisPassword := ""; RedisDB := 0;
       QueueMaxLength := 0; RateLimitRPM := q;
       MaxVideoDurationSeconds := 1200 |}
    (Some {| Addr := "localhost:6379"; Password := ""; DB := 0 |}).

Lemma Allow_falls_back_witness :
  fst (fst (Allow (redis_limiter 2) Redis.empty "A" t_first t_first
              Redis.Unreached Redis.Answered))
  = (true, 1).
Proof.
  destruct (Allow_falls_back (redis_limiter 2) Redis.empty "A"
              t_first t_first Redis.Unreached Redis.Answered)
    as (H & _ & _).
  - simpl. lia.
  - reflexivity.
  - rewrite H. vm_compute. reflexivity.
Defined.

(** *** The scenario with quota 2 *)

Lemma Allow_volatile r srv ip tk tm n1 n2 :
  0 < RateLimitRPM (cfg r) → redis r = None →
  Allow r srv ip tk tm n1 n2
  = (fst (allowInMem r ip (RateLimitRPM (cfg r)) tm),
     snd (allowInMem r ip (RateLimitRPM (cfg r)) tm), srv).
Proof.
  intros Hq Hr. unfold Allow. rewrite Hr.
  destruct (RateLimitRPM (cfg r) <=? 0) eqn:E; [lia|].
  by destruct (allowInMem r ip (RateLimitRPM (cfg r)) tm).
Qed.

(** An answered call on the durable path: the reply, and what the server
    holds afterwards. *)
Lemma Allow_durable r srv ip tk tm n2 c v :
  0 < RateLimitRPM (cfg r) → redis r = Some c →
  Redis.live_counter srv (minuteKey ip tk) tk = v → v < int_max →
  ∃ srv',
    Allow r srv ip tk tm Redis.Answered n2
    = ((v + 1 <=? RateLimitRPM (cfg r), int_sub (RateLimitRPM (cfg r)) (v + 1)),
       r, srv')
    ∧ Redis.counters srv' = <[minuteKey ip tk := v + 1]> (Redis.counters srv)
    ∧ (∀ k, k ≠ minuteKey ip tk →
            Redis.deadlines srv' !! k = Redis.deadlines srv !! k)
    ∧ (∀ d, Redis.deadlines srv' !! minuteKey ip tk = Some d →
            Redis.expired srv (minuteKey ip tk) tk = false
            ∧ Redis.deadlines srv !! minuteKey ip tk = Some d
            ∨ v = 0 ∧ d = tk + 65 * Second).
Proof.
  intros Hq Hr Hv Hlt. unfold Allow. rewrite Hr.
  destruct (RateLimitRPM (cfg r) <=? 0) eqn:E; [lia|].
  unfold Redis.Incr, Redis.incr. rewrite Hv.
  destruct (int_max <=? v) eqn:E2; [lia|].
  set (key := minuteKey ip tk).
  set (srv1 := {| Redis.counters := <[key := v + 1]> (Redis.counters srv);
                  Redis.deadlines := _; Redis.values := _;
                  Redis.zsets := _ |}).
  assert (∀ k, k ≠ key →
            Redis.deadlines srv1 !! k = Redis.deadlines srv !! k) as Hother.
  { intros k Hk. subst srv1. simpl.
    destruct (Redis.expired srv key tk); [|done].
    by rewrite lookup_delete_ne. }
  assert (∀ d, Redis.deadlines srv1 !! key = Some d →
            Redis.expired srv key tk = false
            ∧ Redis.deadlines srv !! key = Some d) as Hkey.
  { intros d. subst srv1. simpl.
    destruct (Redis.expired srv key tk); [|done].
    by rewrite lookup_delete_eq. }
  destruct (v + 1 =? 1) eqn:E1.
  - eexists. split; [reflexivity|].
    rewrite Expire_counters. split; [done|].
    unfold Redis.Expire, Redis.expire.
    destruct (Redis.applied n2); [|by eauto].
    assert (Redis.counters srv1 !! key = Some (v + 1)) as ->
      by (subst srv1; simpl; apply lookup_insert_eq).
    destruct (Redis.expired srv1 key tk); [by eauto|]. simpl.
    split.
    + intros k Hk. rewrite lookup_insert_ne by done. by apply Hother.
    + intros d. rewrite lookup_insert_eq. intros [= <-]. right. lia.
  - eexists. split; [reflexivity|]. split; [done|]. by eauto.
Qed.

Lemma live_counter_after (srv' : Redis.Server) key v d0 now :
  Redis.counters srv' !! key = Some v →
  (∀ d, Redis.deadlines srv' !! key = Some d → d = d0) →
  now < d0 →
  Redis.live_counter srv' key now = v.
Proof.
  intros Hc Hd Hnow. unfold Redis.live_counter, Redis.expired.
  destruct (Redis.deadlines srv' !! key) as [d|] eqn:E.
  - rewrite (Hd d eq_refl). destruct (d0 <=? now) eqn:E2; [lia|].
    by rewrite Hc.
  - by rewrite Hc.
Qed.

Lemma live_counter_absent (srv : Redis.Server) key now :
  Redis.counters srv !! key = None → Redis.live_counter srv key now = 0.
Proof.
  intros Hc. unfold Redis.live_counter. rewrite Hc.
  by destruct (Redis.expired srv key now).
Qed.

Lemma scenario_volatile c srv ip t1 t2 t3 t4 n2 :
  RateLimitRPM c = 2 →
  rapid_then_rollover None srv ip t1 t2 t3 t4 →
  four_calls (NewRateLimiter c None) srv ip t1 t2 t3 t4 n2
  = [(true, 1); (true, 0); (false, -1); (true, 1)].
Proof.
  intros Hq (H1 & H2 & H3 & H4). unfold four_calls.
  rewrite Allow_volatile by (simpl; lia || done). simpl cfg. rewrite Hq.
  rewrite allowInMem_new_window by exact H1. cbn [fst snd].
  rewrite Allow_volatile by (simpl; lia || done). simpl cfg. rewrite Hq.
  rewrite allowInMem_same_window by exact H2. cbn [fst snd cfg redis inMemCount inMemTTL].
  rewrite lookup_singleton_eq. cbn [default].
  rewrite Allow_volatile by (simpl; lia || done). simpl cfg. rewrite Hq.
  rewrite allowInMem_same_window by exact H3. cbn [fst snd cfg redis inMemCount inMemTTL].
  rewrite lookup_insert_eq. cbn [default].
  rewrite Allow_volatile by (simpl; lia || done). simpl cfg. rewrite Hq.
  rewrite allowInMem_new_window by exact H4. cbn [fst snd].
  reflexivity.
Qed.

Lemma scenario_durable c cl srv ip t1 t2 t3 t4 n2 :
  RateLimitRPM c = 2 →
  rapid_then_rollover (Some cl) srv ip t1 t2 t3 t4 →
  four_calls (NewRateLimiter c (Some cl)) srv ip t1 t2 t3 t4 n2
  = [(true, 1); (true, 0); (false, -1); (true, 1)].
Proof.
  intros Hq (K2 & K3 & K4 & L2 & L3 & C1 & D1 & C4 & D4).
  set (r := NewRateLimiter c (Some cl)).
  assert (0 < RateLimitRPM (cfg r)) as Hpos by (simpl; lia).
  assert (redis r = Some cl) as Hr by done.
  set (k1 := minuteKey ip t1) in *.
  unfold four_calls.
  (* first call *)
  destruct (Allow_durable r srv ip t1 t1 n2 cl 0 Hpos Hr) as (s1 & E1 & Hc1 & Ho1 & Hd1).
  { by apply live_counter_absent. } { unfold int_max; lia. }
  rewrite E1. fold k1 in Hc1, Ho1, Hd1.
  assert (∀ d, Redis.deadlines s1 !! k1 = Some d → d = t1 + 65 * Second) as Hd1'.
  { intros d Hd. destruct (Hd1 d Hd) as [[_ Hx]|[_ Hx]]; [congruence|done]. }
  (* second call *)
  destruct (Allow_durable r s1 ip t2 t2 n2 cl 1 Hpos Hr) as (s2 & E2 & Hc2 & Ho2 & Hd2).
  { rewrite K2. eapply live_counter_after; [|exact Hd1'|lia].
    rewrite Hc1. apply lookup_insert_eq. }
  { unfold int_max; lia. }
  rewrite E2. rewrite K2 in Hc2, Ho2, Hd2.
  assert (∀ d, Redis.deadlines s2 !! k1 = Some d → d = t1 + 65 * Second) as Hd2'.
  { intros d Hd. destruct (Hd2 d Hd) as [[_ Hx]|[Hx _]]; [by apply Hd1'|lia]. }
  (* third call *)
  destruct (Allow_durable r s2 ip t3 t3 n2 cl 2 Hpos Hr) as (s3 & E3 & Hc3 & Ho3 & Hd3).
  { rewrite K3. eapply live_counter_after; [|exact Hd2'|lia].
    rewrite Hc2. apply lookup_insert_eq. }
  { unfold int_max; lia. }
  rewrite E3. rewrite K3 in Hc3, Ho3, Hd3.
  (* fourth call *)
  destruct (Allow_durable r s3 ip t4 t4 n2 cl 0 Hpos Hr) as (s4 & E4 & _).
  { apply live_counter_absent.
    rewrite Hc3, Hc2, Hc1. by rewrite !lookup_insert_ne. }
  { unfold int_max; lia. }
  rewrite E4. simpl cfg. rewrite Hq. reflexivity.
Qed.

(** C6, as the sources behave.  With a quota of 2 per minute and a fresh
    limiter, three calls of one client inside one window give: allowed
    with 1 remaining, allowed with 0 remaining, rejected with remaining
    quota -1 (the quota minus the three requests counted); a fourth call
    after the window has rolled over is allowed, with 1 remaining.  This
    holds on the volatile path and, with every increment answered, on the
    durable path. *)
Theorem quota_two_scenario (c : Config) (client : option Client)
    (srv : Redis.Server) (ip : string) (t1 t2 t3 t4 : Z) (n2 : Redis.Net) :
  RateLimitRPM c = 2 →
  rapid_then_rollover client srv ip t1 t2 t3 t4 →
  four_calls (NewRateLimiter c client) srv ip t1 t2 t3 t4 n2
  = [(true, 1); (true, 0); (false, -1); (true, 1)].
Proof.
  destruct client as [cl|].
  - apply scenario_durable.
  - apply scenario_volatile.
Qed.

Lemma quota_two_scenario_witness :
  four_calls (NewRateLimiter quota2 None) Redis.empty "A"
    t_first t_second t_third t_later Redis.Answered
  = [(true, 1); (true, 0); (false, -1); (true, 1)]
  ∧ four_calls (redis_limiter 2) Redis.empty "A"
      t_first t_second t_third t_later Redis.Answered
    = [(true, 1); (true, 0); (false, -1); (true, 1)].
Proof.
  split.
  - apply quota_two_scenario.
    + reflexivity.
    + unfold rapid_then_rollover. vm_compute. repeat split; congruence.
  - apply quota_two_scenario.
    + reflexivity.
    + unfold rapid_then_rollover. vm_compute. repeat split; congruence.
Defined.

(** The scenario as the specification words it (third call rejected with
    remaining quota 0) does not happen. *)
Lemma third_call_remaining_not_zero :
  ¬ ∃ a1 a2 a4 : Z,
      four_calls (NewRateLimiter quota2 None) Redis.empty "A"
        t_first t_second t_third t_later Redis.Answered
      = [(true, a1); (true, a2); (false, 0); (true, a4)].
Proof.
  intros (a1 & a2 & a4 & H). vm_compute in H. discriminate H.
Qed.

End RateLimitFacts.

(** ** Job stores *)

Module StoreFacts.

Import Job DB.

(** What a caller can do with the pointer [job] that [GetJob] returned:
    assign to a field of [*job], and assign through the [Metadata]
    pointer it holds ([job.Metadata.Title = ...]). *)
Definition caller_sets_field (h : Heap) (job : loc) (f : Job → Job) : Heap :=
  match jobs_at h !! job with
  | Some j => store_job h job (f j)
  | None => h
  end.

Definition caller_sets_through_Metadata (h : Heap) (job : loc)
    (f : Metadata → Metadata) : Heap :=
  match jobs_at h !! job with
  | Some j =>
      match Meta j with
      | Some m =>
          match metas_at h !! m with
          | Some v => store_meta h m (f v)
          | None => h
          end
      | None => h
      end
  | None => h
  end.

(** A store that holds one completed job, with metadata. *)
Definition sample_meta : Metadata :=
  {| Title := "Song"; Uploader := "Band"; Duration := 0;
     AudioURL := "http://audio"; Ext := "webm"; Abr := 128 |}.

Definition sample_job (m : loc) : Job :=
  {| ID := "j1"; OriginalURL := "http://video";
     Status := JobStatusCompleted; Meta := Some m;
     DownloadEndpoint := "http://localhost:8080/download/j1"; Error := "";
     CreatedAt := 100; StartedAt := None; CompletedAt := None;
     FilePath := "out/j1.mp3" |}.

Definition sample_store : InMemoryDB * Heap :=
  let '(m, h1) := new_meta empty_heap sample_meta in
  let '(p, h2) := new_job h1 (sample_job m) in
  (snd (CreateJob NewInMemoryDB h2 p), h2).

(** *** The volatile store *)

Lemma DeleteJob_absent db id :
  jobs db !! id = None → DeleteJob db id = (Some NotFound, db).
Proof. intros H. unfold DeleteJob. by rewrite H. Qed.

Lemma DeleteJob_present db id p :
  jobs db !! id = Some p →
  fst (DeleteJob db id) = None
  ∧ jobs (snd (DeleteJob db id)) !! id = None
  ∧ ∀ id', id' ≠ id → jobs (snd (DeleteJob db id)) !! id' = jobs db !! id'.
Proof.
  intros H. unfold DeleteJob. rewrite H. simpl.
  split; [done|]. split; [apply lookup_delete_eq|].
  intros id' Hne. by apply lookup_delete_ne.
Qed.

Lemma new_job_fresh h j : jobs_at h !! fst (new_job h j) = None.
Proof.
  unfold new_job. simpl. apply not_elem_of_dom. apply is_fresh.
Qed.

(** Assigning to the fields of the copy leaves every stored record as it
    was. *)
Lemma GetJob_copy_fields db h id job h' f :
  wf db h → GetJob db h id = (inr job, h') →
  ∀ id', stored db (caller_sets_field h' job f) id' = stored db h id'.
Proof.
  intros Hwf Hget id'. unfold GetJob in Hget.
  destruct (jobs db !! id) as [p|] eqn:Ep; [|done].
  destruct (jobs_at h !! p) as [j|] eqn:Ej; [|done].
  pose proof (new_job_fresh h j) as Hfresh.
  unfold new_job in *. simpl in *.
  inversion Hget; subst; clear Hget.
  set (job := fresh (dom (jobs_at h))) in *.
  unfold caller_sets_field. simpl. rewrite lookup_insert_eq.
  unfold stored. destruct (jobs db !! id') as [q|] eqn:Eq; [|done]. simpl.
  destruct (Hwf _ _ Eq) as [jq Hjq].
  assert (q ≠ job) as Hne by congruence.
  unfold view, store_job. simpl.
  by rewrite !lookup_insert_ne.
Qed.

(** Assigning through the [Metadata] pointer of the copy changes the
    stored record: the copy shares the pointer with it. *)
Lemma GetJob_copy_shares_Metadata db h id p j m v job h' f :
  jobs db !! id = Some p → jobs_at h !! p = Some j →
  Meta j = Some m → metas_at h !! m = Some v → f v ≠ v →
  GetJob db h id = (inr job, h') →
  stored db (caller_sets_through_Metadata h' job f) id ≠ stored db h id.
Proof.
  intros Ep Ej Em Ev Hf Hget. unfold GetJob in Hget.
  rewrite Ep, Ej in Hget.
  pose proof (new_job_fresh h j) as Hfresh.
  unfold new_job in *. simpl in *.
  inversion Hget; subst; clear Hget.
  set (job := fresh (dom (jobs_at h))) in *.
  assert (p ≠ job) as Hne by congruence.
  unfold caller_sets_through_Metadata. simpl.
  rewrite lookup_insert_eq, Em, Ev.
  unfold stored. rewrite Ep. simpl.
  unfold view, store_meta. simpl.
  rewrite lookup_insert_ne by done. rewrite Ej. simpl.
  rewrite Em. simpl. rewrite lookup_insert_eq, Ev.
  intros [= H]. done.
Qed.

(** C8.  [GetJob] copies the struct but not what its pointer fields
    point to.  On the store with the one completed job "j1": assigning to
    a field of the returned job leaves the stored record alone, while
    assigning through its [Metadata] pointer changes the title that the
    store holds for "j1", with no call of [UpdateJob]. *)
Theorem GetJob_copy_is_shallow :
  let '(db, h) := sample_store in
  ∃ job h',
    GetJob db h "j1" = (inr job, h')
    ∧ stored db (caller_sets_field h' job (set_Status JobStatusFailed)) "j1"
      = stored db h "j1"
    ∧ (v_meta <$> stored db h "j1") = Some (Some sample_meta)
    ∧ (v_meta <$> stored db
         (caller_sets_through_Metadata h' job (set_Title "changed")) "j1")
      = Some (Some (set_Title "changed" sample_meta)).
Proof.
  vm_compute. do 2 eexists. repeat split.
Qed.

(** *** The durable store *)

Lemma RedisDB_DeleteJob_removes srv id :
  RedisDB.present (snd (RedisDB.DeleteJob srv id Redis.Answered)) id = false.
Proof.
  unfold RedisDB.DeleteJob, RedisDB.present, RedisDB.exists_key. simpl.
  apply orb_false_iff. split; apply bool_decide_eq_false; intros [x Hx].
  - by rewrite lookup_delete_eq in Hx.
  - destruct (Redis.zsets srv !! "jobs") as [z|] eqn:Ez.
    + rewrite lookup_insert_eq in Hx. simpl in Hx.
      by rewrite lookup_delete_eq in Hx.
    + rewrite Ez in Hx. simpl in Hx. by rewrite lookup_empty in Hx.
Qed.

(** The durable [DeleteJob] never reports a missing record: whenever the
    transaction is answered it returns nil. *)
Lemma RedisDB_DeleteJob_never_NotFound srv id net :
  fst (RedisDB.DeleteJob srv id net) ≠ Some NotFound.
Proof. by destruct net. Qed.

Lemma RedisDB_DeleteJob_absent srv id :
  RedisDB.present srv id = false →
  fst (RedisDB.DeleteJob srv id Redis.Answered) = None.
Proof. done. Qed.

(** C4.  Deleting an id that is not there: the volatile store fails with
    [NotFound]; the durable store, on a server that holds neither the
    record nor an index entry, returns nil. *)
Theorem DeleteJob_absent_backends :
  jobs NewInMemoryDB !! "no-such-job" = None
  ∧ fst (DeleteJob NewInMemoryDB "no-such-job") = Some NotFound
  ∧ RedisDB.present Redis.empty "no-such-job" = false
  ∧ fst (RedisDB.DeleteJob Redis.empty "no-such-job" Redis.Answered) = None.
Proof. repeat split. Qed.

End StoreFacts.

(** ** The volatile message bus *)

Module QueueFacts.

Import Queue.

Definition open (q : InMemoryQueue) : Prop :=
  closed (queue q) = false ∧ stop q = false.

Definition room (q : InMemoryQueue) : bool :=
  Z.of_nat (length (buf (queue q))) <? cap (queue q).

Lemma Publish_open_room q m pick :
  open q → room q = true →
  Publish q m pick
  = (Published,
     {| queue := {| buf := buf (queue q) ++ [m]; cap := cap (queue q);
                    closed := false |};
        stop := stop q; once := once q |}).
Proof.
  intros [Hc Hs] Hr. unfold Publish, send_ready, send. unfold room in Hr.
  by rewrite Hc, Hs, Hr.
Qed.

Lemma Publish_open_full q m pick :
  open q → room q = false → Publish q m pick = (QueueFull, q).
Proof.
  intros [Hc Hs] Hr. unfold Publish, send_ready. unfold room in Hr.
  by rewrite Hc, Hs, Hr.
Qed.

(** On a queue that was not closed, [Publish] fails exactly when the
    buffer is full, and then changes nothing. *)
Lemma Publish_open_error_iff q m pick :
  open q →
  (fst (Publish q m pick) ≠ Published ↔ room q = false)
  ∧ (fst (Publish q m pick) ≠ Published →
     Publish q m pick = (QueueFull, q)).
Proof.
  intros Ho. destruct (room q) eqn:Hr.
  - rewrite Publish_open_room by done. simpl. split; [split|]; done.
  - rewrite Publish_open_full by done. simpl. split; [split|]; done.
Qed.

Lemma Close_closes q :
  once q = false →
  stop (Close q) = true ∧ closed (queue (Close q)) = true
  ∧ once (Close q) = true.
Proof. intros E. unfold Close. by rewrite E. Qed.

Lemma Close_idempotent q : Close (Close q) = Close q.
Proof. unfold Close. destruct (once q) eqn:E; simpl; by rewrite ?E. Qed.

(** After [Close], the case that reads [stop] gives [QueueClosed]. *)
Lemma Publish_after_Close_stop_case bufferSize m :
  Publish (Close (NewInMemoryQueue bufferSize)) m StopCase
  = (QueueClosed, Close (NewInMemoryQueue bufferSize)).
Proof. reflexivity. Qed.

(** Publishing into an open queue with no consumer: the [i]-th message
    gets in while there is room. *)
Lemma publish_all_open ms : ∀ q pick,
  open q →
  fst (publish_all q ms pick)
  = (λ i : nat,
       if Z.of_nat (length (buf (queue q)) + i) <? cap (queue q)
       then Published else QueueFull) <$> seq 0 (length ms).
Proof.
  induction ms as [|m ms IH]; intros q pick Ho; [done|].
  simpl. destruct (room q) eqn:Hr.
  - rewrite Publish_open_room by done.
    set (q1 := {| queue := _; stop := _; once := _ |}).
    specialize (IH q1 pick).
    destruct (publish_all q1 ms pick) as [rs q2]. simpl in *.
    unfold room in Hr. rewrite Nat.add_0_r, Hr. f_equal.
    rewrite IH by (destruct Ho; split; done).
    rewrite <- fmap_S_seq, <- list_fmap_compose.
    apply list_fmap_ext. intros _ i _. simpl.
    rewrite length_app. simpl.
    by replace (length (buf (queue q)) + 1 + i)%nat
      with (length (buf (queue q)) + S i)%nat by lia.
  - rewrite Publish_open_full by done.
    specialize (IH q pick Ho).
    destruct (publish_all q ms pick) as [rs q2]. simpl in *.
    unfold room in Hr. rewrite Nat.add_0_r, Hr. f_equal.
    rewrite IH. clear IH.
    rewrite <- fmap_S_seq, <- list_fmap_compose.
    apply list_fmap_ext. intros _ i _. simpl.
    apply Z.ltb_ge in Hr.
    destruct (Z.ltb_spec (Z.of_nat (length (buf (queue q)) + i)) (cap (queue q))),
             (Z.ltb_spec (Z.of_nat (length (buf (queue q)) + S i)) (cap (queue q)));
      try done; exfalso; lia.
Qed.

(** [bufferSize + 1] messages with no consumer: the last one, and only
    the last one, is refused with [QueueFull]. *)
Lemma publish_one_too_many (bufferSize : nat) ms pick :
  length ms = S bufferSize →
  fst (publish_all (NewInMemoryQueue (Z.of_nat bufferSize)) ms pick)
  = replicate bufferSize Published ++ [QueueFull].
Proof.
  intros Hlen. rewrite publish_all_open by done. rewrite Hlen. simpl length.
  rewrite seq_S, fmap_app. simpl.
  f_equal.
  - assert (∀ k, (k ≤ bufferSize)%nat →
        (λ i : nat, if Z.of_nat i <? Z.of_nat bufferSize
                    then Published else QueueFull) <$> seq 0 k
        = replicate k Published) as H.
    { induction k as [|k IHk]; intros Hk; [done|].
      rewrite seq_S, fmap_app, IHk by lia. simpl.
      destruct (Z.ltb_spec (Z.of_nat k) (Z.of_nat bufferSize)); [|lia].
      symmetry. apply (replicate_S_end k Published). }
    by apply H.
  - destruct (Z.ltb_spec (Z.of_nat bufferSize) (Z.of_nat bufferSize));
      [lia|done].
Qed.

(** C7.  After [Close], a [Publish] whose [select] takes the send case
    panics with a send on the closed channel instead of failing with
    [QueueClosed]: [Close] closes [queue] as well as [stop], so both cases
    can proceed and Go picks either. *)
Theorem Publish_after_Close_can_panic (bufferSize : Z) (m : JobMessage) :
  Publish (Close (NewInMemoryQueue bufferSize)) m SendCase
  = (SendOnClosedChannel, Close (NewInMemoryQueue bufferSize))
  ∧ send_ready (queue (Close (NewInMemoryQueue bufferSize))) = true
  ∧ stop (Close (NewInMemoryQueue bufferSize)) = true.
Proof. repeat split. Qed.

End QueueFacts.

(** ** Gateway and worker *)

Module SystemFacts.

Import Config Job DB Queue System.

(** *** Counting in lists *)

Definition b2n (b : bool) : nat := if b then 1%nat else 0%nat.

Fixpoint count {A} (f : A → bool) (l : list A) : nat :=
  match l with
  | [] => 0%nat
  | x :: l' => (b2n (f x) + count f l')%nat
  end.

Lemma count_app {A} (f : A → bool) l1 l2 :
  count f (l1 ++ l2) = (count f l1 + count f l2)%nat.
Proof. induction l1 as [|x l1 IH]; simpl; [done|]. rewrite IH. lia. Qed.

Lemma count_insert {A} (f : A → bool) l : ∀ i x y,
  l !! i = Some x →
  (count f (<[i := y]> l) + b2n (f x) = count f l + b2n (f y))%nat.
Proof.
  induction l as [|z l IH]; intros [|i] x y H; simpl in *; try done.
  - inversion H; subst. lia.
  - specialize (IH i x y H). lia.
Qed.

Lemma count_delete {A} (f : A → bool) l : ∀ i x,
  l !! i = Some x → (count f (delete i l) + b2n (f x) = count f l)%nat.
Proof.
  induction l as [|z l IH]; intros [|i] x H; simpl in *; try done.
  - inversion H; subst. lia.
  - specialize (IH i x H). lia.
Qed.

Lemma count_le_length {A} (f : A → bool) l : (count f l ≤ length l)%nat.
Proof.
  induction l as [|x l IH]; simpl; [done|]. destruct (f x); simpl; lia.
Qed.

Lemma count_filter_length {A} (f : A → bool) l :
  length (filter f l) = count f l.
Proof.
  induction l as [|x l IH]; simpl; [done|].
  rewrite filter_cons. destruct (f x) eqn:E; simpl; by rewrite IH.
Qed.

(** *** The heap only grows, and objects keep their [ID] *)

Definition heap_le (h h' : Heap) : Prop :=
  ∀ p j, jobs_at h !! p = Some j →
         ∃ j', jobs_at h' !! p = Some j' ∧ ID j' = ID j.

Lemma heap_le_refl h : heap_le h h.
Proof. intros p j H. eauto. Qed.

Lemma heap_le_trans h1 h2 h3 : heap_le h1 h2 → heap_le h2 h3 → heap_le h1 h3.
Proof.
  intros H12 H23 p j H. destruct (H12 p j H) as (j2 & H2 & E2).
  destruct (H23 p j2 H2) as (j3 & H3 & E3). exists j3. split; congruence.
Qed.

Lemma heap_le_jobs_at h h' : jobs_at h' = jobs_at h → heap_le h h'.
Proof. intros E p j H. rewrite E. eauto. Qed.

Lemma new_job_lookup h j :
  jobs_at (snd (new_job h j)) !! fst (new_job h j) = Some j.
Proof. unfold new_job. simpl. apply lookup_insert_eq. Qed.

Lemma new_job_le h j : heap_le h (snd (new_job h j)).
Proof.
  intros p j0 H. unfold new_job. simpl. exists j0. split; [|done].
  rewrite lookup_insert_ne; [done|]. intros <-.
  pose proof (StoreFacts.new_job_fresh h j) as Hf. unfold new_job in Hf.
  simpl in Hf. congruence.
Qed.

Lemma store_job_le h p j j' :
  jobs_at h !! p = Some j → ID j' = ID j → heap_le h (store_job h p j').
Proof.
  intros Hp Hid q j0 H. unfold store_job. simpl.
  destruct (decide (p = q)) as [<-|Hne].
  - rewrite lookup_insert_eq. exists j'. split; congruence.
  - rewrite lookup_insert_ne by done. eauto.
Qed.

Create HintDb sys.
#[local] Hint Resolve heap_le_refl new_job_le : sys.

(** *** The effect of the store and bus calls *)

(** Two worlds that differ at most in the heap. *)
Definition only_heap (w w' : World) : Prop :=
  db w' = db w ∧ mq w' = mq w ∧ workerLimiter w' = workerLimiter w
  ∧ dispatcher w' = dispatcher w ∧ workers w' = workers w
  ∧ trace w' = trace w.

(** Two worlds with the same semaphore, dispatcher and goroutines. *)
Definition same_pool (w w' : World) : Prop :=
  workerLimiter w' = workerLimiter w ∧ dispatcher w' = dispatcher w
  ∧ workers w' = workers w.

Lemma only_heap_refl w : only_heap w w.
Proof. by repeat split. Qed.

Lemma only_heap_trans w1 w2 w3 :
  only_heap w1 w2 → only_heap w2 w3 → only_heap w1 w3.
Proof.
  intros (?&?&?&?&?&?) (?&?&?&?&?&?). repeat split; congruence.
Qed.

Lemma with_heap_only_heap h w : only_heap w (with_heap h w).
Proof. by repeat split. Qed.

Lemma assign_hit w p f j :
  jobs_at (heap w) !! p = Some j →
  assign w p f = with_heap (store_job (heap w) p (f j)) w.
Proof. intros H. unfold assign. by rewrite H. Qed.

(** A field assignment that keeps [ID]. *)
Lemma assign_spec w p f j :
  jobs_at (heap w) !! p = Some j → ID (f j) = ID j →
  only_heap w (assign w p f)
  ∧ heap_le (heap w) (heap (assign w p f))
  ∧ jobs_at (heap (assign w p f)) !! p = Some (f j).
Proof.
  intros H Hid. rewrite (assign_hit _ _ _ _ H). simpl.
  split; [apply with_heap_only_heap|]. split.
  - by eapply store_job_le.
  - apply lookup_insert_eq.
Qed.

Lemma db_UpdateJob_spec w p j :
  jobs_at (heap w) !! p = Some j →
  let w' := snd (db_UpdateJob w p) in
  heap w' = heap w ∧ mq w' = mq w ∧ same_pool w w'
  ∧ match jobs (db w) !! ID j with
    | Some _ =>
        jobs (db w') = <[ID j := p]> (jobs (db w))
        ∧ trace w' = trace w ++ [EvUpdateJob (ID j) (Status j) None]
    | None =>
        db w' = db w
        ∧ trace w' = trace w ++ [EvUpdateJob (ID j) (Status j) (Some NotFound)]
    end.
Proof.
  intros H. unfold db_UpdateJob, UpdateJob. rewrite H.
  destruct (jobs (db w) !! ID j); simpl; by repeat split.
Qed.

Lemma db_CreateJob_spec w p j :
  jobs_at (heap w) !! p = Some j →
  heap (snd (db_CreateJob w p)) = heap w
  ∧ mq (snd (db_CreateJob w p)) = mq w
  ∧ same_pool w (snd (db_CreateJob w p))
  ∧ match jobs (db w) !! ID j with
    | Some _ =>
        fst (db_CreateJob w p) = Some AlreadyExists
        ∧ db (snd (db_CreateJob w p)) = db w
        ∧ trace (snd (db_CreateJob w p))
          = trace w ++ [EvCreateJob (ID j) (Status j) (Some AlreadyExists)]
    | None =>
        fst (db_CreateJob w p) = None
        ∧ jobs (db (snd (db_CreateJob w p))) = <[ID j := p]> (jobs (db w))
        ∧ trace (snd (db_CreateJob w p))
          = trace w ++ [EvCreateJob (ID j) (Status j) None]
    end.
Proof.
  intros H. unfold db_CreateJob, CreateJob. rewrite H.
  destruct (jobs (db w) !! ID j); simpl; by repeat split.
Qed.

(** [Publish] either appends the message or leaves the bus as it is. *)
Lemma Publish_cases q m pick :
  (fst (Publish q m pick) = Published
   ∧ buf (queue (snd (Publish q m pick))) = buf (queue q) ++ [m])
  ∨ (fst (Publish q m pick) ≠ Published ∧ snd (Publish q m pick) = q).
Proof.
  unfold Publish, send.
  destruct (send_ready (queue q)), (stop q), pick, (closed (queue q));
    simpl; auto.
Qed.

Lemma mq_Publish_spec w m pick :
  let w' := snd (mq_Publish w m pick) in
  heap w' = heap w ∧ db w' = db w ∧ same_pool w w'
  ∧ fst (mq_Publish w m pick) = fst (Publish (mq w) m pick)
  ∧ mq w' = snd (Publish (mq w) m pick)
  ∧ trace w' = trace w ++ [EvPublish (JobID m) (fst (Publish (mq w) m pick))].
Proof.
  unfold mq_Publish. destruct (Publish (mq w) m pick) as [res q'].
  simpl. by repeat split.
Qed.

(** *** handleExtract *)

(** The calls one run of [handleExtract] makes, as a list of events. *)
Inductive submission (id : string) : list Event → Prop :=
  | sub_refused : submission id []
  | sub_exists :
      submission id [EvCreateJob id JobStatusPending (Some AlreadyExists)]
  | sub_published :
      submission id [EvCreateJob id JobStatusPending None;
                     EvPublish id Published]
  | sub_panicked :
      submission id [EvCreateJob id JobStatusPending None;
                     EvPublish id SendOnClosedChannel]
  | sub_not_queued res :
      res = QueueFull ∨ res = QueueClosed →
      submission id [EvCreateJob id JobStatusPending None;
                     EvPublish id res;
                     EvUpdateJob id JobStatusFailed None].

Lemma handleExtract_effect w r id now pick :
  let w' := snd (handleExtract w r id now pick) in
  same_pool w w' ∧ heap_le (heap w) (heap w')
  ∧ ∃ evs, trace w' = trace w ++ evs ∧ submission id evs
    ∧ match evs with
      | [] => w' = w
      | [_] => is_Some (jobs (db w) !! id) ∧ db w' = db w ∧ mq w' = mq w
      | _ :: EvPublish _ res :: _ =>
          jobs (db w) !! id = None
          ∧ (∃ p j, jobs (db w') = <[id := p]> (jobs (db w))
                    ∧ jobs_at (heap w') !! p = Some j ∧ ID j = id)
          ∧ (if decide (res = Published)
             then ∃ url, buf (queue (mq w'))
                         = buf (queue (mq w))
                           ++ [{| JobID := id; Queue.OriginalURL := url |}]
             else mq w' = mq w)
      | _ => False
      end.
Proof.
  unfold handleExtract.
  destruct (String.eqb (Method r) "OPTIONS");
    [simpl; split; [done|]; split; [auto with sys|];
     exists []; rewrite app_nil_r; repeat split; constructor|].
  destruct (negb (String.eqb (Method r) "POST"));
    [simpl; split; [done|]; split; [auto with sys|];
     exists []; rewrite app_nil_r; repeat split; constructor|].
  destruct (decoded r) as [req|];
    [|simpl; split; [done|]; split; [auto with sys|];
      exists []; rewrite app_nil_r; repeat split; constructor].
  destruct (String.eqb (URL req) "");
    [simpl; split; [done|]; split; [auto with sys|];
     exists []; rewrite app_nil_r; repeat split; constructor|].
  set (j0 := {| ID := id; Job.OriginalURL := URL req;
                Status := JobStatusPending; Meta := None;
                DownloadEndpoint := ""; Error := ""; CreatedAt := now;
                StartedAt := None; CompletedAt := None; FilePath := "" |}).
  pose proof (new_job_lookup (heap w) j0) as Hp.
  pose proof (new_job_le (heap w) j0) as Hle.
  destruct (new_job (heap w) j0) as [p h1]. simpl in Hp, Hle.
  set (w1 := with_heap h1 w).
  destruct (db_CreateJob_spec w1 p j0 Hp) as (Hh2 & Hq2 & Hpool2 & Hc).
  destruct (db_CreateJob w1 p) as [err w2]. simpl in Hh2, Hq2, Hpool2, Hc.
  change (ID j0) with id in Hc. change (Status j0) with JobStatusPending in Hc.
  change (jobs (db w1)) with (jobs (db w)) in Hc.
  change (trace w1) with (trace w) in Hc.
  destruct (jobs (db w) !! id) as [p0|] eqn:Elook.
  { destruct Hc as (-> & Hdb & Htr). simpl.
    split; [exact Hpool2|]. split; [by rewrite Hh2|].
    eexists. split; [exact Htr|]. split; [constructor|].
    split; [by eauto|]. split; [done|]. by rewrite Hq2. }
  destruct Hc as (-> & Hdb & Htr).
  set (m := {| JobID := id; Queue.OriginalURL := URL req |}).
  destruct (mq_Publish_spec w2 m pick) as (Hh3 & Hd3 & Hpool3 & Hr3 & Hq3 & Ht3).
  destruct (mq_Publish w2 m pick) as [res w3]. simpl in Hh3, Hd3, Hpool3, Hr3, Hq3, Ht3.
  assert (same_pool w w3) as Hpool.
  { destruct Hpool2 as (?&?&?), Hpool3 as (?&?&?).
    repeat split; simpl in *; congruence. }
  assert (jobs_at (heap w3) !! p = Some j0) as Hp3 by (rewrite Hh3, Hh2; done).
  destruct (Publish_cases (mq w2) m pick) as [[Hres Hbuf]|[Hres Hsame]].
  - rewrite Hres in Hr3, Ht3. subst res. simpl.
    split; [exact Hpool|]. split; [by rewrite Hh3, Hh2|].
    eexists. split; [rewrite Ht3, Htr, <- app_assoc; reflexivity|].
    split; [constructor|].
    split; [done|]. split; [by exists p, j0; rewrite Hd3|].
    rewrite decide_True by done. exists (URL req).
    by rewrite Hq3, Hbuf, Hq2.
  - rewrite <- Hr3 in Hres, Ht3.
    assert (mq w3 = mq w) as Hmq by (rewrite Hq3, Hsame, Hq2; done).
    destruct res eqn:Eres; [done| | |].
    + (* QueueClosed *)
      destruct (assign_spec w3 p (set_Status JobStatusFailed) j0 Hp3 eq_refl)
        as (Ho4 & Hle4 & Hp4).
      set (w4 := assign w3 p (set_Status JobStatusFailed)) in *.
      destruct (assign_spec w4 p
                  (set_Error ("Failed to queue job: " +:+ errorText QueueClosed id))
                  _ Hp4 eq_refl) as (Ho5 & Hle5 & Hp5).
      set (w5 := assign w4 p _) in *.
      destruct (db_UpdateJob_spec w5 p _ Hp5) as (Hh6 & Hq6 & Hpool6 & Hu).
      destruct (db_UpdateJob w5 p) as [e6 w6]. simpl in Hh6, Hq6, Hpool6, Hu.
      simpl ID in Hu. simpl Status in Hu.
      destruct (only_heap_trans _ _ _ Ho4 Ho5) as (Ed & Eq & El & Edi & Ew & Et).
      rewrite Ed, Hd3, Hdb, lookup_insert_eq in Hu.
      destruct Hu as [Hj6 Ht6]. simpl.
      split.
      { destruct Hpool as (?&?&?), Hpool6 as (?&?&?).
        repeat split; simpl in *; congruence. }
      split.
      { rewrite Hh6. eapply heap_le_trans; [exact Hle|].
        eapply heap_le_trans; [|exact Hle5].
        eapply heap_le_trans; [|exact Hle4]. rewrite Hh3, Hh2.
        apply heap_le_refl. }
      eexists. split.
      { rewrite Ht6, Et, Ht3, Htr, <- !app_assoc. simpl. reflexivity. }
      split; [constructor; auto|].
      split; [done|]. split.
      { exists p. eexists. rewrite Hj6, insert_insert_eq, Hh6. eauto. }
      rewrite decide_False by done. by rewrite Hq6, Eq.
    + (* QueueFull *)
      destruct (assign_spec w3 p (set_Status JobStatusFailed) j0 Hp3 eq_refl)
        as (Ho4 & Hle4 & Hp4).
      set (w4 := assign w3 p (set_Status JobStatusFailed)) in *.
      destruct (assign_spec w4 p
                  (set_Error ("Failed to queue job: " +:+ errorText QueueFull id))
                  _ Hp4 eq_refl) as (Ho5 & Hle5 & Hp5).
      set (w5 := assign w4 p _) in *.
      destruct (db_UpdateJob_spec w5 p _ Hp5) as (Hh6 & Hq6 & Hpool6 & Hu).
      destruct (db_UpdateJob w5 p) as [e6 w6]. simpl in Hh6, Hq6, Hpool6, Hu.
      simpl ID in Hu. simpl Status in Hu.
      destruct (only_heap_trans _ _ _ Ho4 Ho5) as (Ed & Eq & El & Edi & Ew & Et).
      rewrite Ed, Hd3, Hdb, lookup_insert_eq in Hu.
      destruct Hu as [Hj6 Ht6]. simpl.
      split.
      { destruct Hpool as (?&?&?), Hpool6 as (?&?&?).
        repeat split; simpl in *; congruence. }
      split.
      { rewrite Hh6. eapply heap_le_trans; [exact Hle|].
        eapply heap_le_trans; [|exact Hle5].
        eapply heap_le_trans; [|exact Hle4]. rewrite Hh3, Hh2.
        apply heap_le_refl. }
      eexists. split.
      { rewrite Ht6, Et, Ht3, Htr, <- !app_assoc. simpl. reflexivity. }
      split; [constructor; auto|].
      split; [done|]. split.
      { exists p. eexists. rewrite Hj6, insert_insert_eq, Hh6. eauto. }
      rewrite decide_False by done. by rewrite Hq6, Eq.
    + (* panic *)
      simpl. split; [exact Hpool|]. split; [by rewrite Hh3, Hh2|].
      eexists. split; [rewrite Ht3, Htr, <- app_assoc; reflexivity|].
      split; [constructor|].
      split; [done|]. split; [by exists p, j0; rewrite Hd3|].
      by rewrite decide_False by done.
Qed.

(** *** processJob *)

(** [w'] is [w] after assignments to [*p] that keep its [ID]; [j'] is
    the value of [*p] in [w']. *)
Definition stage (w : World) (p : loc) (j : Job) (w' : World) (j' : Job)
  : Prop :=
  only_heap w w' ∧ heap_le (heap w) (heap w')
  ∧ jobs_at (heap w') !! p = Some j' ∧ ID j' = ID j.

Lemma stage_start w p j : jobs_at (heap w) !! p = Some j → stage w p j w j.
Proof.
  intros H. split; [apply only_heap_refl|]. split; [apply heap_le_refl|]. done.
Qed.

Lemma stage_assign w p j w1 j1 f :
  stage w p j w1 j1 → ID (f j1) = ID j1 →
  stage w p j (assign w1 p f) (f j1).
Proof.
  intros (Ho & Hle & Hp & Hid) Hf.
  destruct (assign_spec w1 p f j1 Hp Hf) as (Ho' & Hle' & Hp').
  split; [by eapply only_heap_trans|].
  split; [by eapply heap_le_trans|]. split; [done|congruence].
Qed.

Lemma stage_new_time w p j w1 j1 t l h :
  new_time (heap w1) t = (l, h) →
  stage w p j w1 j1 → stage w p j (with_heap h w1) j1.
Proof.
  intros E (Ho & Hle & Hp & Hid). unfold new_time in E.
  inversion E; subst; clear E.
  split; [eapply only_heap_trans; [exact Ho|apply with_heap_only_heap]|].
  split; [|done].
  eapply heap_le_trans; [exact Hle|]. by apply heap_le_jobs_at.
Qed.

Lemma stage_new_meta w p j w1 j1 m l h :
  new_meta (heap w1) m = (l, h) →
  stage w p j w1 j1 → stage w p j (with_heap h w1) j1.
Proof.
  intros E (Ho & Hle & Hp & Hid). unfold new_meta in E.
  inversion E; subst; clear E.
  split; [eapply only_heap_trans; [exact Ho|apply with_heap_only_heap]|].
  split; [|done].
  eapply heap_le_trans; [exact Hle|]. by apply heap_le_jobs_at.
Qed.

(** What a goroutine's write-back does: the record of [ID j] is replaced
    by [p] and the status of [*p] is logged, or, when the store has no
    such record, nothing but the failed call is logged. *)
Definition written (w : World) (p : loc) (j : Job) (st : JobStatus)
    (w' : World) : Prop :=
  same_pool w w' ∧ mq w' = mq w ∧ heap_le (heap w) (heap w')
  ∧ (∃ j', jobs_at (heap w') !! p = Some j' ∧ ID j' = ID j)
  ∧ match jobs (db w) !! ID j with
    | Some _ =>
        jobs (db w') = <[ID j := p]> (jobs (db w))
        ∧ trace w' = trace w ++ [EvUpdateJob (ID j) st None]
    | None =>
        db w' = db w
        ∧ trace w' = trace w ++ [EvUpdateJob (ID j) st (Some NotFound)]
    end.

Lemma stage_write_back w p j w1 j1 :
  stage w p j w1 j1 → written w p j (Status j1) (snd (db_UpdateJob w1 p)).
Proof.
  intros ((Ed & Eq & El & Edi & Ew & Et) & Hle & Hp & Hid).
  destruct (db_UpdateJob_spec w1 p j1 Hp) as (Hh & Hq & (Pl & Pd & Pw) & Hu).
  set (w' := snd (db_UpdateJob w1 p)) in *.
  split; [repeat split; congruence|]. split; [congruence|].
  split; [by rewrite Hh|]. split; [exists j1; by rewrite Hh|].
  rewrite Hid, Ed, Et in Hu. exact Hu.
Qed.

Lemma handleJobFailure_written w p j w1 j1 errMsg failedNow :
  stage w p j w1 j1 →
  written w p j JobStatusFailed (handleJobFailure w1 p errMsg failedNow).
Proof.
  intros Hs. unfold handleJobFailure.
  destruct (new_time _ failedNow) as [t h] eqn:E.
  apply (stage_write_back w p j _
           (set_CompletedAt (Some t)
              (set_Error errMsg (set_Status JobStatusFailed j1)))).
  apply stage_assign; [|done].
  eapply stage_new_time; [exact E|].
  apply stage_assign; [|done]. by apply stage_assign.
Qed.

Lemma processJob_mark_effect w p now j :
  jobs_at (heap w) !! p = Some j →
  fst (processJob_mark w p now) = AtExecutor p
  ∧ written w p j JobStatusProcessing (snd (processJob_mark w p now)).
Proof.
  intros H. unfold processJob_mark.
  destruct (new_time _ now) as [t h] eqn:E. split; [done|]. cbn [snd].
  apply (stage_write_back w p j _
           (set_StartedAt (Some t) (set_Status JobStatusProcessing j))).
  apply stage_assign; [|done].
  eapply stage_new_time; [exact E|].
  apply stage_assign; [|done]. by apply stage_start.
Qed.

Definition terminal (st : JobStatus) : Prop :=
  st = JobStatusCompleted ∨ st = JobStatusFailed.

Lemma processJob_finish_effect c w m p out now j :
  jobs_at (heap w) !! p = Some j →
  fst (processJob_finish c w m p out now) = Returned
  ∧ ∃ st, terminal st
          ∧ written w p j st (snd (processJob_finish c w m p out now)).
Proof.
  intros H. pose proof (stage_start w p j H) as H0.
  unfold processJob_finish. destruct out as [err|a meta err|a meta filePath].
  - split; [done|]. exists JobStatusFailed. split; [by right|]. cbn [snd].
    by eapply handleJobFailure_written.
  - destruct (new_meta _ meta) as [mp h] eqn:E.
    split; [done|]. exists JobStatusFailed. split; [by right|]. cbn [snd].
    eapply handleJobFailure_written. by eapply stage_new_meta.
  - destruct (new_meta _ meta) as [mp h] eqn:E.
    destruct (new_time _ now) as [t h'] eqn:E'.
    split; [done|]. exists JobStatusCompleted. split; [by left|]. cbn [snd].
    set (dl := "http://localhost:" +:+ APIGatewayPort c +:+ "/download/"
               +:+ JobID m) in *.
    apply (stage_write_back w p j _
             (set_CompletedAt (Some t)
                (set_DownloadEndpoint dl
                   (set_FilePath filePath
                      (set_Meta (Some mp)
                         (set_Status JobStatusCompleted j)))))).
    apply stage_assign; [|done].
    eapply stage_new_time; [exact E'|].
    do 4 (apply stage_assign; [|done]).
    by eapply stage_new_meta.
Qed.

Lemma processJob_get_effect w m :
  let w' := snd (processJob_get w m) in
  same_pool w w' ∧ db w' = db w ∧ mq w' = mq w
  ∧ heap_le (heap w) (heap w')
  ∧ (∃ e, trace w' = trace w ++ [EvGetJob (JobID m) e])
  ∧ match fst (processJob_get w m) with
    | Returned => True
    | AtProcessing p =>
        ∃ p0 j, jobs (db w) !! JobID m = Some p0
                ∧ jobs_at (heap w) !! p0 = Some j
                ∧ jobs_at (heap w') !! p = Some j
    | _ => False
    end.
Proof.
  unfold processJob_get, db_GetJob, GetJob.
  destruct (jobs (db w) !! JobID m) as [p0|] eqn:E0; simpl.
  - destruct (jobs_at (heap w) !! p0) as [j|] eqn:Ej; simpl.
    + split; [done|]. do 2 (split; [done|]).
      split; [apply (new_job_le (heap w) j)|]. split; [by eauto|].
      exists p0, j. do 2 (split; [done|]). apply lookup_insert_eq.
    + split; [done|]. do 2 (split; [done|]).
      split; [apply heap_le_refl|]. split; [by eauto|done].
  - split; [done|]. do 2 (split; [done|]).
    split; [apply heap_le_refl|]. split; [by eauto|done].
Qed.

(** *** Runs *)

Lemma run_invariant (c : Config) (P : World → Prop) :
  (∀ a w w', P w → exec c a w = Some w' → P w') →
  ∀ acts w0 w, P w0 → run c acts w0 = Some w → P w.
Proof.
  intros Hstep. induction acts as [|a acts IH]; intros w0 w H0 Hrun.
  - simpl in Hrun. by inversion Hrun; subst.
  - simpl in Hrun. destruct (exec c a w0) as [w1|] eqn:E; [|done].
    simpl in Hrun. eapply IH; [|exact Hrun]. by eapply Hstep.
Qed.

Lemma same_pool_trans w1 w2 w3 :
  same_pool w1 w2 → same_pool w2 w3 → same_pool w1 w3.
Proof. intros (?&?&?) (?&?&?). repeat split; congruence. Qed.

Lemma with_heap_same_pool h w : same_pool w (with_heap h w).
Proof. done. Qed.

Lemma assign_same_pool w p f : same_pool w (assign w p f).
Proof. unfold assign. by destruct (jobs_at (heap w) !! p). Qed.

Lemma db_UpdateJob_same_pool w p : same_pool w (snd (db_UpdateJob w p)).
Proof.
  unfold db_UpdateJob. destruct (UpdateJob (db w) (heap w) p) as [e d].
  by destruct (jobs_at (heap w) !! p).
Qed.

Lemma handleJobFailure_same_pool w p errMsg t :
  same_pool w (handleJobFailure w p errMsg t).
Proof.
  unfold handleJobFailure. destruct (new_time _ t) as [l h].
  eapply same_pool_trans; [|apply db_UpdateJob_same_pool].
  eapply same_pool_trans; [|apply assign_same_pool].
  eapply same_pool_trans; [apply assign_same_pool|].
  eapply same_pool_trans; [apply assign_same_pool|]. done.
Qed.

Lemma processJob_mark_same_pool w p now :
  same_pool w (snd (processJob_mark w p now)).
Proof.
  unfold processJob_mark. destruct (new_time _ now) as [l h]. cbn [snd].
  eapply same_pool_trans; [|apply db_UpdateJob_same_pool].
  eapply same_pool_trans; [|apply assign_same_pool].
  eapply same_pool_trans; [apply assign_same_pool|]. done.
Qed.

Lemma processJob_finish_same_pool c w m p out now :
  same_pool w (snd (processJob_finish c w m p out now)).
Proof.
  unfold processJob_finish. destruct out as [err|a meta err|a meta filePath].
  - apply handleJobFailure_same_pool.
  - destruct (new_meta _ meta) as [mp h]. cbn [snd].
    eapply same_pool_trans; [|apply handleJobFailure_same_pool]. done.
  - destruct (new_meta _ meta) as [mp h].
    destruct (new_time _ now) as [t h']. cbn [snd].
    eapply same_pool_trans; [|apply db_UpdateJob_same_pool].
    eapply same_pool_trans; [|apply assign_same_pool].
    eapply same_pool_trans; [|apply (with_heap_same_pool h')].
    do 4 (eapply same_pool_trans; [|apply assign_same_pool]). done.
Qed.

(** *** The semaphore bounds the goroutines *)

Definition pool_ok (c : Config) (w : World) : Prop :=
  length (workers w) = workerLimiter w
  ∧ Z.of_nat (workerLimiter w) <= MaxWorkers c.

Lemma set_worker_pool c w i wk pcw :
  pool_ok c w → same_pool w (snd pcw) → pool_ok c (set_worker i wk pcw).
Proof.
  intros [Hl Hm] (El & _ & Ew). unfold pool_ok, set_worker. simpl.
  rewrite length_insert, Ew, El. done.
Qed.

Lemma exec_pool_ok c a w w' :
  pool_ok c w → exec c a w = Some w' → pool_ok c w'.
Proof.
  intros Hp He. destruct a as [r id now pick| | |i|i now|i out now|i];
    simpl in He.
  - inversion He; subst; clear He.
    destruct (handleExtract_effect w r id now pick) as ((El & _ & Ew) & _).
    destruct Hp as [Hl Hm]. unfold pool_ok. by rewrite Ew, El.
  - destruct (dispatcher w); [|done].
    destruct (receive (mq w)) as [[msg q']|]; [|done].
    simpl in He. by inversion He; subst.
  - destruct (dispatcher w) as [|msg]; [done|].
    destruct (Z.ltb_spec (Z.of_nat (workerLimiter w)) (MaxWorkers c));
      [|done].
    inversion He; subst; clear He. destruct Hp as [Hl Hm].
    unfold pool_ok. simpl. rewrite length_app. simpl. lia.
  - destruct (workers w !! i) as [wk|]; [|done]. simpl in He.
    destruct (pc wk); try done. inversion He; subst; clear He.
    apply (set_worker_pool c w); [done|]. apply processJob_get_effect.
  - destruct (workers w !! i) as [wk|]; [|done]. simpl in He.
    destruct (pc wk); try done. inversion He; subst; clear He.
    apply (set_worker_pool c w); [done|]. apply processJob_mark_same_pool.
  - destruct (workers w !! i) as [wk|]; [|done]. simpl in He.
    destruct (pc wk); try done. inversion He; subst; clear He.
    apply (set_worker_pool c w); [done|]. apply processJob_finish_same_pool.
  - destruct (workers w !! i) as [wk|] eqn:Ei; [|done]. simpl in He.
    destruct (pc wk); try done.
    destruct (workerLimiter w) as [|n] eqn:En; [done|].
    inversion He; subst; clear He. destruct Hp as [Hl Hm].
    unfold pool_ok. simpl. rewrite length_delete by eauto. lia.
Qed.

(** C3.  In every state that the submission handler, the dispatch loop
    and the spawned goroutines can reach, in any interleaving of their
    steps, the number of goroutines inside [processJob] is at most
    [MaxWorkers]: each is spawned only after a slot of [workerLimiter]
    was taken, and gives the slot back only after [processJob] has
    returned. *)
Theorem executing_bounded (c : Config) (acts : list Action) (w : World) :
  0 <= MaxWorkers c →
  run c acts init = Some w →
  Z.of_nat (executing w) <= MaxWorkers c
  ∧ (executing w ≤ workerLimiter w)%nat.
Proof.
  intros Hc Hrun.
  assert (pool_ok c w) as [Hl Hm].
  { eapply (run_invariant c (pool_ok c)); [| |exact Hrun].
    - intros a w1 w2. apply exec_pool_ok.
    - split; [reflexivity|exact Hc]. }
  unfold executing. rewrite count_filter_length.
  pose proof (count_le_length running (workers w)). lia.
Qed.

Definition one_post : HttpRequest :=
  {| Method := "POST"; decoded := Some {| URL := "https://youtu.be/a" |} |}.

Definition one_job_running : list Action :=
  [Submit one_post "job-1" 1000 SendCase; Receive; Acquire; GetStep 0;
   MarkStep 0 2000].

Definition world_of (c : Config) (acts : list Action) : World :=
  default init (run c acts init).

Lemma executing_bounded_witness :
  run (LoadConfig ∅) one_job_running init
  = Some (world_of (LoadConfig ∅) one_job_running)
  ∧ executing (world_of (LoadConfig ∅) one_job_running) = 1%nat
  ∧ Z.of_nat (executing (world_of (LoadConfig ∅) one_job_running)) <= 3.
Proof.
  assert (run (LoadConfig ∅) one_job_running init
          = Some (world_of (LoadConfig ∅) one_job_running)) as Hrun
    by (vm_compute; reflexivity).
  split; [exact Hrun|]. split; [vm_compute; reflexivity|].
  refine (proj1 (executing_bounded (LoadConfig ∅) one_job_running _ _ Hrun)).
  vm_compute. congruence.
Defined.

(** *** The life of one job *)

Lemma statuses_app id tr evs :
  statuses id (tr ++ evs) = statuses id tr ++ statuses id evs.
Proof.
  induction tr as [|e tr IH]; [done|].
  destruct e as [ip ok|id' st [err|]|id' err|id' st [err|]|id' res]; simpl;
    try done; destruct (String.eqb id id'); simpl; by rewrite ?IH.
Qed.

Definition queued_of (id : string) (m : JobMessage) : bool :=
  String.eqb id (JobID m).

Definition held (id : string) (d : Dispatcher) : nat :=
  match d with
  | Acquiring m => b2n (queued_of id m)
  | Ranging => 0%nat
  end.

Definition pending_of (id : string) (wk : Worker) : bool :=
  queued_of id (jobMessage wk)
  && match pc wk with
     | AtGetJob | AtProcessing _ => true
     | _ => false
     end.

Definition marked_of (id : string) (wk : Worker) : bool :=
  queued_of id (jobMessage wk)
  && match pc wk with
     | AtExecutor _ => true
     | _ => false
     end.

(** The messages and goroutines of job [id] that have not yet written
    [processing], and the goroutines that have. *)
Definition unmarked (id : string) (w : World) : nat :=
  (count (queued_of id) (buf (queue (mq w))) + held id (dispatcher w)
   + count (pending_of id) (workers w))%nat.

Definition marked (id : string) (w : World) : nat :=
  count (marked_of id) (workers w).

(** Where a job stands: the statuses written so far, its record in the
    store, and how many messages or goroutines are still to write. *)
Inductive phase : list JobStatus → option loc → nat → nat → Prop :=
  | ph_absent : phase [] None 0 0
  | ph_pending p a :
      (a ≤ 1)%nat → phase [JobStatusPending] (Some p) a 0
  | ph_rejected p :
      phase [JobStatusPending; JobStatusFailed] (Some p) 0 0
  | ph_processing p b :
      (b ≤ 1)%nat →
      phase [JobStatusPending; JobStatusProcessing] (Some p) 0 b
  | ph_done p st :
      terminal st →
      phase [JobStatusPending; JobStatusProcessing; st] (Some p) 0 0.

Lemma phase_le s o a b a' b' :
  phase s o a b → (a' ≤ a)%nat → (b' ≤ b)%nat → phase s o a' b'.
Proof.
  intros H Ha Hb. destruct H;
    repeat match goal with
           | H : (_ ≤ 0)%nat |- _ => apply Nat.le_0_r in H; subst
           end; constructor; (lia || done).
Qed.

Definition store_ok (w : World) : Prop :=
  ∀ id p, jobs (db w) !! id = Some p →
          ∃ j, jobs_at (heap w) !! p = Some j ∧ ID j = id.

Definition worker_ok (h : Heap) (wk : Worker) : Prop :=
  match pc wk with
  | AtProcessing p | AtExecutor p =>
      ∃ j, jobs_at h !! p = Some j ∧ ID j = JobID (jobMessage wk)
  | _ => True
  end.

Definition Inv (w : World) : Prop :=
  store_ok w
  ∧ Forall (worker_ok (heap w)) (workers w)
  ∧ ∀ id, phase (statuses id (trace w)) (jobs (db w) !! id)
                (unmarked id w) (marked id w).

Lemma worker_ok_mono h h' wk : heap_le h h' → worker_ok h wk → worker_ok h' wk.
Proof.
  intros Hle. unfold worker_ok.
  destruct (pc wk); try done; intros (j & Hj & Hid);
    destruct (Hle _ _ Hj) as (j' & Hj' & Hid'); exists j'; split; congruence.
Qed.

Lemma workers_ok_mono h h' ws :
  heap_le h h' → Forall (worker_ok h) ws → Forall (worker_ok h') ws.
Proof.
  intros Hle H. eapply Forall_impl; [exact H|].
  intros wk. by apply worker_ok_mono.
Qed.

Lemma store_ok_mono w w' :
  store_ok w → heap_le (heap w) (heap w') → jobs (db w') = jobs (db w) →
  store_ok w'.
Proof.
  intros Hs Hle Hd id p Hp. rewrite Hd in Hp.
  destruct (Hs id p Hp) as (j & Hj & Hid).
  destruct (Hle _ _ Hj) as (j' & Hj' & Hid'). exists j'. split; congruence.
Qed.

Lemma store_ok_insert w w' id p j :
  store_ok w → heap_le (heap w) (heap w') →
  jobs (db w') = <[id := p]> (jobs (db w)) →
  jobs_at (heap w') !! p = Some j → ID j = id →
  store_ok w'.
Proof.
  intros Hs Hle Hd Hp Hid id' p' Hp'. rewrite Hd in Hp'.
  destruct (decide (id = id')) as [<-|Hne].
  - rewrite lookup_insert_eq in Hp'. inversion Hp'; subst. eauto.
  - rewrite lookup_insert_ne in Hp' by done.
    destruct (Hs id' p' Hp') as (j0 & Hj0 & Hid0).
    destruct (Hle _ _ Hj0) as (j' & Hj' & Hid'). exists j'. split; congruence.
Qed.

Lemma Inv_init : Inv init.
Proof.
  split; [|split].
  - intros id p H. simpl in H. by rewrite lookup_empty in H.
  - constructor.
  - intros id. simpl. rewrite lookup_empty. constructor.
Qed.

Lemma phase_absent_inv s a b :
  phase s None a b → s = [] ∧ a = 0%nat ∧ b = 0%nat.
Proof. by inversion 1. Qed.

Lemma phase_pending_inv s o a b :
  phase s o a b → (1 ≤ a)%nat →
  s = [JobStatusPending] ∧ a = 1%nat ∧ b = 0%nat ∧ is_Some o.
Proof. inversion 1; subst; intros Ha; try lia. repeat split; eauto; lia. Qed.

Lemma phase_marked_inv s o a b :
  phase s o a b → (1 ≤ b)%nat →
  s = [JobStatusPending; JobStatusProcessing] ∧ a = 0%nat ∧ b = 1%nat
  ∧ is_Some o.
Proof. inversion 1; subst; intros Hb; try lia. repeat split; eauto; lia. Qed.

Lemma queued_of_true id m : queued_of id m = true ↔ id = JobID m.
Proof. unfold queued_of. apply String.eqb_eq. Qed.

Lemma queued_of_false id m : queued_of id m = false ↔ id ≠ JobID m.
Proof. unfold queued_of. apply String.eqb_neq. Qed.

(** The counts after the goroutine at position [i] has moved on. *)
Lemma unmarked_set_worker id w w1 i wk pc' :
  workers w !! i = Some wk → same_pool w w1 → mq w1 = mq w →
  (unmarked id (set_worker i wk (pc', w1)) + b2n (pending_of id wk)
   = unmarked id w
     + b2n (pending_of id {| jobMessage := jobMessage wk; pc := pc' |}))%nat.
Proof.
  intros Hi (El & Ed & Ew) Eq. unfold unmarked, set_worker. simpl.
  rewrite Eq, Ed, Ew.
  pose proof (count_insert (pending_of id) (workers w) i wk
                {| jobMessage := jobMessage wk; pc := pc' |} Hi). lia.
Qed.

Lemma marked_set_worker id w w1 i wk pc' :
  workers w !! i = Some wk → same_pool w w1 →
  (marked id (set_worker i wk (pc', w1)) + b2n (marked_of id wk)
   = marked id w
     + b2n (marked_of id {| jobMessage := jobMessage wk; pc := pc' |}))%nat.
Proof.
  intros Hi (El & Ed & Ew). unfold marked, set_worker. simpl. rewrite Ew.
  apply (count_insert (marked_of id) (workers w) i wk
           {| jobMessage := jobMessage wk; pc := pc' |} Hi).
Qed.

Lemma workers_ok_set_worker h ws i wk pc' :
  Forall (worker_ok h) ws →
  worker_ok h {| jobMessage := jobMessage wk; pc := pc' |} →
  Forall (worker_ok h)
    (<[i := {| jobMessage := jobMessage wk; pc := pc' |}]> ws).
Proof. intros H Hw. by apply Forall_insert. Qed.

(** Submission keeps the invariant. *)
Lemma Inv_submit w r id0 now pick :
  Inv w → Inv (snd (handleExtract w r id0 now pick)).
Proof.
  intros (Hs & Hw & Hph).
  destruct (handleExtract_effect w r id0 now pick)
    as ((El & Ed & Ew) & Hle & evs & Htr & Hsub & Hm).
  set (w' := snd (handleExtract w r id0 now pick)) in *.
  destruct Hsub as [| | | |res Hres].
  - (* refused *) rewrite Hm. by repeat split.
  - (* the id exists *)
    destruct Hm as (Hex & Hdb & Hmq).
    split; [by eapply store_ok_mono; [exact Hs|exact Hle|rewrite Hdb]|].
    split; [rewrite Ew; by eapply workers_ok_mono|].
    intros id. specialize (Hph id).
    unfold unmarked, marked. rewrite Htr, statuses_app, Hdb, Hmq, Ed, Ew.
    simpl. by rewrite app_nil_r.
  - (* published *)
    destruct Hm as (Hnone & (p & j & Hdb & Hp & Hid) & Hq).
    rewrite decide_True in Hq by done. destruct Hq as [url Hbuf].
    split; [by eapply store_ok_insert|].
    split; [rewrite Ew; by eapply workers_ok_mono|].
    intros id. specialize (Hph id).
    unfold unmarked, marked in *.
    rewrite Htr, statuses_app, Hdb, Hbuf, Ed, Ew, count_app. simpl.
    destruct (String.eqb_spec id id0) as [->|Hne].
    + rewrite Hnone in Hph. apply phase_absent_inv in Hph as (-> & Ha & Hb).
      rewrite lookup_insert_eq. simpl.
      unfold queued_of at 2. simpl. rewrite String.eqb_refl. simpl.
      rewrite Hb. constructor. lia.
    + rewrite lookup_insert_ne by done. rewrite app_nil_r.
      unfold queued_of at 2. simpl.
      destruct (String.eqb_spec id id0) as [|_]; [done|]. simpl.
      eapply phase_le; [exact Hph|lia|lia].
  - (* the send panicked *)
    destruct Hm as (Hnone & (p & j & Hdb & Hp & Hid) & Hq).
    rewrite decide_False in Hq by done.
    split; [by eapply store_ok_insert|].
    split; [rewrite Ew; by eapply workers_ok_mono|].
    intros id. specialize (Hph id).
    unfold unmarked, marked in *.
    rewrite Htr, statuses_app, Hdb, Hq, Ed, Ew. simpl.
    destruct (String.eqb_spec id id0) as [->|Hne].
    + rewrite Hnone in Hph. apply phase_absent_inv in Hph as (-> & Ha & Hb).
      rewrite lookup_insert_eq. simpl. rewrite Ha, Hb. constructor. lia.
    + rewrite lookup_insert_ne by done. by rewrite app_nil_r.
  - (* not queued *)
    destruct Hm as (Hnone & (p & j & Hdb & Hp & Hid) & Hq).
    rewrite decide_False in Hq by (destruct Hres; by subst).
    split; [by eapply store_ok_insert|].
    split; [rewrite Ew; by eapply workers_ok_mono|].
    intros id. specialize (Hph id).
    unfold unmarked, marked in *.
    rewrite Htr, statuses_app, Hdb, Hq, Ed, Ew. simpl.
    destruct (String.eqb_spec id id0) as [->|Hne].
    + rewrite Hnone in Hph. apply phase_absent_inv in Hph as (-> & Ha & Hb).
      rewrite lookup_insert_eq. simpl. rewrite Ha, Hb. by constructor.
    + rewrite lookup_insert_ne by done. by rewrite app_nil_r.
Qed.

(** The steps of the dispatch loop keep the invariant. *)
Lemma Inv_receive w msg q' :
  Inv w → dispatcher w = Ranging → receive (mq w) = Some (msg, q') →
  Inv {| heap := heap w; db := db w; mq := q';
         workerLimiter := workerLimiter w; dispatcher := Acquiring msg;
         workers := workers w; trace := trace w |}.
Proof.
  intros (Hs & Hw & Hph) Hd Hr. unfold receive in Hr.
  destruct (buf (queue (mq w))) as [|m rest] eqn:Eb; [done|].
  inversion Hr; subst; clear Hr.
  split; [exact Hs|]. split; [exact Hw|].
  intros id. specialize (Hph id). unfold unmarked, marked in *. simpl.
  rewrite Eb, Hd in Hph. simpl in Hph.
  eapply phase_le; [exact Hph|lia|lia].
Qed.

Lemma Inv_acquire w msg :
  Inv w → dispatcher w = Acquiring msg →
  Inv {| heap := heap w; db := db w; mq := mq w;
         workerLimiter := S (workerLimiter w); dispatcher := Ranging;
         workers := workers w ++ [{| jobMessage := msg; pc := AtGetJob |}];
         trace := trace w |}.
Proof.
  intros (Hs & Hw & Hph) Hd.
  split; [exact Hs|]. split.
  { simpl. apply Forall_app. split; [exact Hw|]. by repeat constructor. }
  intros id. specialize (Hph id). unfold unmarked, marked in *. simpl.
  rewrite Hd in Hph. simpl in Hph. rewrite !count_app. simpl.
  unfold pending_of at 2, marked_of at 2. simpl.
  rewrite andb_true_r, andb_false_r. simpl.
  eapply phase_le; [exact Hph|lia|lia].
Qed.

(** Loading the job keeps the invariant. *)
Lemma Inv_get w i wk :
  Inv w → workers w !! i = Some wk → pc wk = AtGetJob →
  Inv (set_worker i wk (processJob_get w (jobMessage wk))).
Proof.
  intros (Hs & Hw & Hph) Hi Hpc.
  destruct (processJob_get_effect w (jobMessage wk))
    as (Hpool & Hdb & Hmq & Hle & (e & Htr) & Hres).
  destruct (processJob_get w (jobMessage wk)) as [pc' w1] eqn:Eget.
  cbn [fst snd] in *.
  split; [|split].
  - eapply (store_ok_mono w); [exact Hs|exact Hle|]. simpl. by rewrite Hdb.
  - unfold set_worker. simpl. destruct Hpool as (_ & _ & Ew). rewrite Ew.
    apply workers_ok_set_worker; [by eapply workers_ok_mono|].
    unfold worker_ok. simpl. destruct pc' as [|p|p|]; try done.
    destruct Hres as (p0 & j & Hp0 & Hj & Hp).
    destruct (Hs _ _ Hp0) as (j' & Hj' & Hid). exists j. split; congruence.
  - intros id. specialize (Hph id).
    pose proof (unmarked_set_worker id w w1 i wk pc' Hi Hpool Hmq) as Ha.
    pose proof (marked_set_worker id w w1 i wk pc' Hi Hpool) as Hb.
    change (trace (set_worker i wk (pc', w1))) with (trace w1).
    change (db (set_worker i wk (pc', w1))) with (db w1).
    rewrite Htr, statuses_app, Hdb. simpl. rewrite app_nil_r.
    unfold pending_of, marked_of in Ha, Hb. rewrite Hpc in Ha, Hb.
    simpl in Ha, Hb. rewrite andb_true_r in Ha. rewrite andb_false_r in Hb.
    eapply phase_le; [exact Hph| |].
    + destruct (queued_of id (jobMessage wk)), pc'; simpl in Ha; lia.
    + destruct (queued_of id (jobMessage wk)), pc'; simpl in Hb;
        try lia; done.
Qed.

(** A goroutine writes its job back and moves on: from [AtProcessing]
    to [AtExecutor] with [processing], or from [AtExecutor] to [Returned]
    with a terminal status. *)
Lemma Inv_write w i wk p j st pc' w1 :
  Inv w → workers w !! i = Some wk →
  jobs_at (heap w) !! p = Some j → ID j = JobID (jobMessage wk) →
  written w p j st w1 →
  (pc wk = AtProcessing p ∧ st = JobStatusProcessing ∧ pc' = AtExecutor p)
  ∨ (pc wk = AtExecutor p ∧ terminal st ∧ pc' = Returned) →
  Inv (set_worker i wk (pc', w1)).
Proof.
  intros (Hs & Hw & Hph) Hi Hj Hid (Hpool & Hmq & Hle & (j' & Hj' & Hid') & Hwr)
    Hcase.
  set (id0 := JobID (jobMessage wk)) in *.
  (* the job of this goroutine is in the store *)
  pose proof (Hph id0) as Hph0.
  assert (is_Some (jobs (db w) !! id0)) as [p0 Hp0].
  { destruct Hcase as [(Hpc & _)|(Hpc & _)].
    - eapply (phase_pending_inv _ _ _ _ Hph0).
      unfold unmarked.
      pose proof (count_insert (pending_of id0) (workers w) i wk wk Hi) as Hc.
      assert (pending_of id0 wk = true) as Hpe
        by (unfold pending_of; rewrite Hpc; simpl;
            rewrite andb_true_r; by apply queued_of_true).
      pose proof (count_delete (pending_of id0) (workers w) i wk Hi) as Hd.
      rewrite Hpe in Hd. simpl in Hd. lia.
    - eapply (phase_marked_inv _ _ _ _ Hph0).
      unfold marked.
      assert (marked_of id0 wk = true) as Hma
        by (unfold marked_of; rewrite Hpc; simpl;
            rewrite andb_true_r; by apply queued_of_true).
      pose proof (count_delete (marked_of id0) (workers w) i wk Hi) as Hd.
      rewrite Hma in Hd. simpl in Hd. lia. }
  rewrite Hid, Hp0 in Hwr. destruct Hwr as [Hdb Htr].
  split; [|split].
  - eapply (store_ok_insert w _ id0 p j'); try done. congruence.
  - unfold set_worker. simpl. destruct Hpool as (_ & _ & Ew). rewrite Ew.
    apply workers_ok_set_worker; [by eapply workers_ok_mono|].
    unfold worker_ok. simpl.
    destruct Hcase as [(_ & _ & ->)|(_ & _ & ->)]; [|done].
    exists j'. split; [done|]. rewrite Hid'. exact Hid.
  - intros id. specialize (Hph id).
    pose proof (unmarked_set_worker id w w1 i wk pc' Hi Hpool Hmq) as Ha.
    pose proof (marked_set_worker id w w1 i wk pc' Hi Hpool) as Hb.
    change (trace (set_worker i wk (pc', w1))) with (trace w1).
    change (db (set_worker i wk (pc', w1))) with (db w1).
    rewrite Htr, statuses_app, Hdb. simpl.
    unfold pending_of, marked_of in Ha, Hb. simpl in Ha, Hb.
    fold id0 in Ha, Hb.
    destruct (String.eqb_spec id id0) as [->|Hne].
    + rewrite lookup_insert_eq.
      assert (queued_of id0 (jobMessage wk) = true) as Hq
        by by apply queued_of_true.
      rewrite Hq in Ha, Hb. simpl in Ha, Hb.
      destruct Hcase as [(Hpc & -> & ->)|(Hpc & Hst & ->)];
        rewrite Hpc in Ha, Hb; simpl in Ha, Hb.
      * destruct (phase_pending_inv _ _ _ _ Hph) as (-> & Ha1 & Hb1 & _);
          [lia|].
        simpl. replace (unmarked id0 _) with 0%nat by lia.
        constructor. lia.
      * destruct (phase_marked_inv _ _ _ _ Hph) as (-> & Ha1 & Hb1 & _);
          [lia|].
        simpl. replace (marked id0 _) with 0%nat by lia.
        replace (unmarked id0 _) with 0%nat by lia. by constructor.
    + rewrite lookup_insert_ne by done. rewrite app_nil_r.
      assert (queued_of id (jobMessage wk) = false) as Hq
        by by apply queued_of_false.
      rewrite Hq in Ha, Hb. simpl in Ha, Hb.
      eapply phase_le; [exact Hph|lia|lia].
Qed.

Lemma worker_ok_lookup w i wk p :
  Inv w → workers w !! i = Some wk →
  pc wk = AtProcessing p ∨ pc wk = AtExecutor p →
  ∃ j, jobs_at (heap w) !! p = Some j ∧ ID j = JobID (jobMessage wk).
Proof.
  intros (_ & Hw & _) Hi Hpc.
  pose proof (proj1 (Forall_lookup _ _) Hw i wk Hi) as H.
  unfold worker_ok in H. destruct Hpc as [E|E]; rewrite E in H; exact H.
Qed.

Lemma Inv_release w i wk n :
  Inv w → workers w !! i = Some wk → pc wk = Returned →
  Inv {| heap := heap w; db := db w; mq := mq w; workerLimiter := n;
         dispatcher := dispatcher w; workers := delete i (workers w);
         trace := trace w |}.
Proof.
  intros (Hs & Hw & Hph) Hi Hpc.
  split; [exact Hs|]. split; [simpl; by apply Forall_delete|].
  intros id. specialize (Hph id). unfold unmarked, marked in *. simpl.
  pose proof (count_delete (pending_of id) (workers w) i wk Hi) as Ha.
  pose proof (count_delete (marked_of id) (workers w) i wk Hi) as Hb.
  unfold pending_of at 2 in Ha. unfold marked_of at 2 in Hb.
  rewrite Hpc, andb_false_r in Ha, Hb. simpl in Ha, Hb.
  eapply phase_le; [exact Hph|lia|lia].
Qed.

Lemma exec_Inv c a w w' : Inv w → exec c a w = Some w' → Inv w'.
Proof.
  intros HI He. destruct a as [r id now pick| | |i|i now|i out now|i];
    simpl in He.
  - inversion He; subst. by apply Inv_submit.
  - destruct (dispatcher w) eqn:Ed; [|done].
    destruct (receive (mq w)) as [[msg q']|] eqn:Er; [|done].
    simpl in He. inversion He; subst. by apply Inv_receive.
  - destruct (dispatcher w) as [|msg] eqn:Ed; [done|].
    destruct (Z.of_nat (workerLimiter w) <? MaxWorkers c); [|done].
    inversion He; subst. by apply Inv_acquire.
  - destruct (workers w !! i) as [wk|] eqn:Ei; [|done]. simpl in He.
    destruct (pc wk) eqn:Epc; try done. inversion He; subst.
    by apply Inv_get.
  - destruct (workers w !! i) as [wk|] eqn:Ei; [|done]. simpl in He.
    destruct (pc wk) as [|p|p|] eqn:Epc; try done. inversion He; subst.
    destruct (worker_ok_lookup w i wk p HI Ei) as (j & Hj & Hid); [by left|].
    destruct (processJob_mark_effect w p now j Hj) as [Hpc Hwr].
    destruct (processJob_mark w p now) as [pc' w1]. simpl in Hpc, Hwr.
    eapply Inv_write; eauto.
  - destruct (workers w !! i) as [wk|] eqn:Ei; [|done]. simpl in He.
    destruct (pc wk) as [|p|p|] eqn:Epc; try done. inversion He; subst.
    destruct (worker_ok_lookup w i wk p HI Ei) as (j & Hj & Hid); [by right|].
    destruct (processJob_finish_effect c w (jobMessage wk) p out now j Hj)
      as (Hpc & st & Hst & Hwr).
    destruct (processJob_finish c w (jobMessage wk) p out now) as [pc' w1].
    simpl in Hpc, Hwr. eapply Inv_write; eauto.
  - destruct (workers w !! i) as [wk|] eqn:Ei; [|done]. simpl in He.
    destruct (pc wk) eqn:Epc; try done.
    destruct (workerLimiter w) as [|n]; [done|].
    inversion He; subst. by eapply Inv_release.
Qed.

(** A job is [pending] then [failed] only after a failed [Publish]. *)
Definition not_queued (id : string) (tr : list Event) : Prop :=
  ∃ res, (res = QueueFull ∨ res = QueueClosed) ∧ EvPublish id res ∈ tr.

Definition rejected_ok (w : World) : Prop :=
  ∀ id, statuses id (trace w) = [JobStatusPending; JobStatusFailed] →
        not_queued id (trace w).

Lemma not_queued_app id tr evs : not_queued id tr → not_queued id (tr ++ evs).
Proof.
  intros (res & Hres & Hin). exists res. split; [done|].
  apply elem_of_app. by left.
Qed.

Lemma rejected_ok_silent w w' evs :
  rejected_ok w → trace w' = trace w ++ evs →
  (∀ id, statuses id evs = []) → rejected_ok w'.
Proof.
  intros HR Htr Hev id. rewrite Htr, statuses_app, Hev, app_nil_r.
  intros H. apply not_queued_app. by apply HR.
Qed.

Lemma rejected_ok_write w i wk p j st w1 :
  Inv w → rejected_ok w → workers w !! i = Some wk →
  ID j = JobID (jobMessage wk) → written w p j st w1 →
  (pc wk = AtProcessing p ∧ st = JobStatusProcessing)
  ∨ (pc wk = AtExecutor p ∧ terminal st) →
  ∀ id, statuses id (trace w1) = [JobStatusPending; JobStatusFailed] →
        not_queued id (trace w1).
Proof.
  intros (_ & _ & Hph) HR Hi Hid (_ & _ & _ & _ & Hwr) Hcase id.
  destruct (jobs (db w) !! ID j) as [p0|].
  - destruct Hwr as [_ Htr]. rewrite Htr, statuses_app. simpl.
    destruct (String.eqb_spec id (ID j)) as [->|Hne].
    + specialize (Hph (ID j)). rewrite Hid in *.
      destruct Hcase as [(Hpc & ->)|(Hpc & Hst)].
      * intros H. destruct (statuses _ (trace w)) as [|? [|? [|? ?]]];
          simpl in H; try done.
      * assert (marked_of (JobID (jobMessage wk)) wk = true) as Hma
          by (unfold marked_of; rewrite Hpc; simpl;
              rewrite andb_true_r; by apply queued_of_true).
        pose proof (count_delete (marked_of (JobID (jobMessage wk)))
                      (workers w) i wk Hi) as Hd.
        rewrite Hma in Hd. simpl in Hd.
        destruct (phase_marked_inv _ _ _ _ Hph) as (-> & _);
          [unfold marked; lia|]. done.
    + rewrite app_nil_r. intros H. apply not_queued_app. by apply HR.
  - destruct Hwr as [_ Htr]. rewrite Htr, statuses_app. simpl.
    rewrite app_nil_r. intros H. apply not_queued_app. by apply HR.
Qed.

Lemma exec_rejected_ok c a w w' :
  Inv w → rejected_ok w → exec c a w = Some w' → rejected_ok w'.
Proof.
  intros HI HR He. destruct a as [r id0 now pick| | |i|i now|i out now|i];
    simpl in He.
  - inversion He; subst; clear He.
    destruct (handleExtract_effect w r id0 now pick)
      as (_ & _ & evs & Htr & Hsub & _).
    intros id. rewrite Htr, statuses_app.
    destruct Hsub as [| | | |res Hres]; simpl.
    + rewrite app_nil_r. intros H. apply not_queued_app. by apply HR.
    + rewrite app_nil_r. intros H. apply not_queued_app. by apply HR.
    + destruct (String.eqb_spec id id0) as [->|Hne].
      * intros H.
        destruct (statuses id0 (trace w)) as [|? [|? [|? ?]]];
          simpl in H; discriminate.
      * rewrite app_nil_r. intros H. apply not_queued_app. by apply HR.
    + destruct (String.eqb_spec id id0) as [->|Hne].
      * intros H.
        destruct (statuses id0 (trace w)) as [|? [|? [|? ?]]];
          simpl in H; discriminate.
      * rewrite app_nil_r. intros H. apply not_queued_app. by apply HR.
    + destruct (String.eqb_spec id id0) as [->|Hne].
      * intros _. exists res. split; [exact Hres|].
        apply elem_of_app. right. do 2 constructor.
      * rewrite app_nil_r. intros H. apply not_queued_app. by apply HR.
  - destruct (dispatcher w); [|done].
    destruct (receive (mq w)) as [[msg q']|]; [|done].
    simpl in He. by inversion He; subst.
  - destruct (dispatcher w) as [|msg]; [done|].
    destruct (Z.of_nat (workerLimiter w) <? MaxWorkers c); [|done].
    by inversion He; subst.
  - destruct (workers w !! i) as [wk|] eqn:Ei; [|done]. simpl in He.
    destruct (pc wk) eqn:Epc; try done. inversion He; subst; clear He.
    destruct (processJob_get_effect w (jobMessage wk))
      as (_ & _ & _ & _ & (e & Htr) & _).
    eapply (rejected_ok_silent w); [exact HR|exact Htr|done].
  - destruct (workers w !! i) as [wk|] eqn:Ei; [|done]. simpl in He.
    destruct (pc wk) as [|p|p|] eqn:Epc; try done.
    inversion He; subst; clear He.
    destruct (worker_ok_lookup w i wk p HI Ei) as (j & Hj & Hid); [by left|].
    destruct (processJob_mark_effect w p now j Hj) as [_ Hwr].
    intros id.
    apply (rejected_ok_write w i wk p j _ _ HI HR Ei Hid Hwr). by left.
  - destruct (workers w !! i) as [wk|] eqn:Ei; [|done]. simpl in He.
    destruct (pc wk) as [|p|p|] eqn:Epc; try done.
    inversion He; subst; clear He.
    destruct (worker_ok_lookup w i wk p HI Ei) as (j & Hj & Hid); [by right|].
    destruct (processJob_finish_effect c w (jobMessage wk) p out now j Hj)
      as (_ & st & Hst & Hwr).
    intros id.
    apply (rejected_ok_write w i wk p j _ _ HI HR Ei Hid Hwr). by right.
  - destruct (workers w !! i) as [wk|] eqn:Ei; [|done]. simpl in He.
    destruct (pc wk) eqn:Epc; try done.
    destruct (workerLimiter w) as [|n]; [done|].
    by inversion He; subst.
Qed.

Lemma run_Inv c acts w :
  run c acts init = Some w → Inv w ∧ rejected_ok w.
Proof.
  apply (run_invariant c (λ w, Inv w ∧ rejected_ok w)).
  - intros a w1 w2 [HI HR] He. split.
    + by eapply exec_Inv.
    + by eapply exec_rejected_ok.
  - split; [apply Inv_init|]. intros id H. done.
Qed.

(** The sequences the specification allows. *)
Definition lifecycle (s : list JobStatus) : Prop :=
  s `prefix_of` [JobStatusPending; JobStatusProcessing; JobStatusCompleted]
  ∨ s `prefix_of` [JobStatusPending; JobStatusProcessing; JobStatusFailed].

Lemma phase_lifecycle s o a b :
  phase s o a b → lifecycle s ∨ s = [JobStatusPending; JobStatusFailed].
Proof.
  destruct 1 as [|p a Ha|p|p b Hb|p st [-> | ->]].
  - left. left. by eexists.
  - left. left. by eexists.
  - by right.
  - left. left. by eexists.
  - left. left. by exists [].
  - left. right. by exists [].
Qed.

(** C1, as the sources behave.  In every state the submission handler and
    the dispatcher can reach, the statuses written to the store for a job
    form a prefix of pending, processing, completed-or-failed, or are
    pending followed by failed; the latter happens only when the
    submission handler could not publish the job's message, which it
    records by marking the job failed. *)
Theorem status_sequence (c : Config) (acts : list Action) (w : World)
    (id : string) :
  run c acts init = Some w →
  (lifecycle (statuses id (trace w))
   ∨ statuses id (trace w) = [JobStatusPending; JobStatusFailed])
  ∧ (statuses id (trace w) = [JobStatusPending; JobStatusFailed] →
     not_queued id (trace w)).
Proof.
  intros Hrun. destruct (run_Inv c acts w Hrun) as [(_ & _ & Hph) HR].
  split.
  - eapply phase_lifecycle. apply Hph.
  - apply HR.
Qed.

Definition one_job_done : list Action :=
  [Submit one_post "job-1" 1000 SendCase; Receive; Acquire; GetStep 0;
   MarkStep 0 2000;
   FinishStep 0 (Converted "http://audio" StoreFacts.sample_meta "out/job-1.mp3")
     3000;
   Release 0].

Lemma status_sequence_witness :
  statuses "job-1" (trace (world_of (LoadConfig ∅) one_job_done))
  = [JobStatusPending; JobStatusProcessing; JobStatusCompleted]
  ∧ lifecycle (statuses "job-1" (trace (world_of (LoadConfig ∅) one_job_done))).
Proof.
  assert (run (LoadConfig ∅) one_job_done init
          = Some (world_of (LoadConfig ∅) one_job_done)) as Hrun
    by (vm_compute; reflexivity).
  assert (statuses "job-1" (trace (world_of (LoadConfig ∅) one_job_done))
          = [JobStatusPending; JobStatusProcessing; JobStatusCompleted]) as Hs
    by (vm_compute; reflexivity).
  split; [exact Hs|].
  destruct (status_sequence (LoadConfig ∅) one_job_done _ "job-1" Hrun)
    as [[H|H] _]; [exact H|].
  rewrite Hs in H. discriminate H.
Defined.

(** One hundred and one submissions while no worker takes a message: the
    bus holds one hundred, and the last job goes from pending to failed
    without ever being processing. *)
Definition flood : list Action :=
  (λ n : nat, Submit one_post (pretty n) 1000 SendCase) <$> seq 0 101.

Lemma pending_then_failed :
  run (LoadConfig ∅) flood init = Some (world_of (LoadConfig ∅) flood)
  ∧ statuses "100" (trace (world_of (LoadConfig ∅) flood))
    = [JobStatusPending; JobStatusFailed]
  ∧ ¬ lifecycle (statuses "100" (trace (world_of (LoadConfig ∅) flood))).
Proof.
  assert (statuses "100" (trace (world_of (LoadConfig ∅) flood))
          = [JobStatusPending; JobStatusFailed]) as Hs
    by (vm_compute; reflexivity).
  split; [vm_compute; reflexivity|]. split; [exact Hs|].
  rewrite Hs. intros [[k Hk]|[k Hk]]; discriminate Hk.
Qed.

(** *** The submission path and the rate limiter *)

(** Every [CreateJob] in the trace comes after an [Allow] that said
    yes. *)
Definition guarded (tr : list Event) : Prop :=
  ∀ i e, tr !! i = Some e → is_create e = true →
         ∃ k ip, (k < i)%nat ∧ tr !! k = Some (EvAllow ip true).

Lemma submission_no_Allow id evs :
  submission id evs → Forall (λ e, is_allow e = false) evs.
Proof. intros H. destruct H; repeat (constructor; [reflexivity|]); constructor. Qed.

(** C2, as the sources behave.  One run of [handleExtract] makes no call
    of [RateLimiter.Allow].  Its calls are, in order: [CreateJob] with
    status pending (none at all when the request is refused as
    malformed); [Publish], only after [CreateJob] succeeded; [UpdateJob]
    with status failed, only after [Publish] failed with an error. *)
Theorem handleExtract_calls (w : World) (r : HttpRequest) (jobID : string)
    (now : Z) (pick : Select) :
  ∃ evs,
    trace (snd (handleExtract w r jobID now pick)) = trace w ++ evs
    ∧ submission jobID evs
    ∧ Forall (λ e, is_allow e = false) evs.
Proof.
  destruct (handleExtract_effect w r jobID now pick)
    as (_ & _ & evs & Htr & Hsub & _).
  exists evs. split; [exact Htr|]. split; [exact Hsub|].
  exact (submission_no_Allow jobID evs Hsub).
Qed.

(** A well-formed submission on the fresh system: the record is created
    and no [Allow] precedes it. *)
Lemma job_created_without_Allow :
  ¬ guarded (trace (snd (handleExtract init one_post "job-1" 1000 SendCase))).
Proof.
  assert (trace (snd (handleExtract init one_post "job-1" 1000 SendCase))
          = [EvCreateJob "job-1" JobStatusPending None;
             EvPublish "job-1" Published]) as E
    by (vm_compute; reflexivity).
  rewrite E. intros H.
  destruct (H 0%nat _ eq_refl eq_refl) as (k & ip & Hk & _). lia.
Qed.

(** No step of the system calls [Allow]. *)
Lemma exec_no_Allow c a w w' :
  Inv w → exec c a w = Some w' →
  ∃ evs, trace w' = trace w ++ evs ∧ Forall (λ e, is_allow e = false) evs.
Proof.
  intros HI He. destruct a as [r id0 now pick| | |i|i now|i out now|i];
    simpl in He.
  - inversion He; subst; clear He.
    destruct (handleExtract_effect w r id0 now pick)
      as (_ & _ & evs & Htr & Hsub & _).
    exists evs. split; [exact Htr|].
    exact (submission_no_Allow id0 evs Hsub).
  - destruct (dispatcher w); [|done].
    destruct (receive (mq w)) as [[msg q']|]; [|done].
    simpl in He. inversion He; subst. exists []. by rewrite app_nil_r.
  - destruct (dispatcher w) as [|msg]; [done|].
    destruct (Z.of_nat (workerLimiter w) <? MaxWorkers c); [|done].
    inversion He; subst. exists []. by rewrite app_nil_r.
  - destruct (workers w !! i) as [wk|] eqn:Ei; [|done]. simpl in He.
    destruct (pc wk) eqn:Epc; try done. inversion He; subst; clear He.
    destruct (processJob_get_effect w (jobMessage wk))
      as (_ & _ & _ & _ & (e & Htr) & _).
    eexists. split; [exact Htr|]. by repeat constructor.
  - destruct (workers w !! i) as [wk|] eqn:Ei; [|done]. simpl in He.
    destruct (pc wk) as [|p|p|] eqn:Epc; try done.
    inversion He; subst; clear He.
    destruct (worker_ok_lookup w i wk p HI Ei) as (j & Hj & Hid); [by left|].
    destruct (processJob_mark_effect w p now j Hj)
      as [_ (_ & _ & _ & _ & Hwr)].
    change (trace (set_worker i wk (processJob_mark w p now)))
      with (trace (snd (processJob_mark w p now))).
    destruct (jobs (db w) !! ID j); destruct Hwr as [_ Htr];
      (eexists; split; [exact Htr|]; by repeat constructor).
  - destruct (workers w !! i) as [wk|] eqn:Ei; [|done]. simpl in He.
    destruct (pc wk) as [|p|p|] eqn:Epc; try done.
    inversion He; subst; clear He.
    destruct (worker_ok_lookup w i wk p HI Ei) as (j & Hj & Hid); [by right|].
    destruct (processJob_finish_effect c w (jobMessage wk) p out now j Hj)
      as (_ & st & _ & (_ & _ & _ & _ & Hwr)).
    change (trace (set_worker i wk
                     (processJob_finish c w (jobMessage wk) p out now)))
      with (trace (snd (processJob_finish c w (jobMessage wk) p out now))).
    destruct (jobs (db w) !! ID j); destruct Hwr as [_ Htr];
      (eexists; split; [exact Htr|]; by repeat constructor).
  - destruct (workers w !! i) as [wk|] eqn:Ei; [|done]. simpl in He.
    destruct (pc wk) eqn:Epc; try done.
    destruct (workerLimiter w) as [|n]; [done|].
    inversion He; subst. exists []. by rewrite app_nil_r.
Qed.

Lemma run_no_Allow c acts w :
  run c acts init = Some w → Forall (λ e, is_allow e = false) (trace w).
Proof.
  intros Hrun.
  enough (Inv w ∧ Forall (λ e, is_allow e = false) (trace w)) as [_ H]
    by exact H.
  revert Hrun.
  apply (run_invariant c
           (λ w, Inv w ∧ Forall (λ e, is_allow e = false) (trace w))).
  - intros a w1 w2 [HI HF] He. split; [by eapply exec_Inv|].
    destruct (exec_no_Allow c a w1 w2 HI He) as (evs & -> & Hev).
    apply Forall_app. by split.
  - split; [apply Inv_init|constructor].
Qed.

End SystemFacts.

(** * The rest of the stores, the bus and the limiter *)

(** ** shared/db.go: listing, and how the operations compose *)

Module VolatileStore.

Import Job DB.

(** [GetAllJobs]: a copy of every job.  Go visits the keys of a map once
    each, in an order it does not fix; the order is the input [order]. *)
Fixpoint GetAllJobs (db : InMemoryDB) (h : Heap) (order : list string)
  : list loc * Heap :=
  match order with
  | [] => ([], h)
  | k :: rest =>
      match jobs db !! k with
      | Some job =>
          match jobs_at h !! job with
          | Some j =>
              let '(copiedJob, h1) := new_job h j in
              let '(allJobs, h2) := GetAllJobs db h1 rest in
              (copiedJob :: allJobs, h2)
          | None => GetAllJobs db h rest
          end
      | None => GetAllJobs db h rest
      end
  end.

(** [order] visits every key of the store once. *)
Definition visits (db : InMemoryDB) (order : list string) : Prop :=
  NoDup order ∧ ∀ k, k ∈ order ↔ is_Some (jobs db !! k).

Lemma view_new_job h j0 p :
  is_Some (jobs_at h !! p) → view (snd (new_job h j0)) p = view h p.
Proof.
  intros [j Hj]. unfold view, new_job. simpl.
  rewrite lookup_insert_ne; [done|]. intros <-.
  pose proof (StoreFacts.new_job_fresh h j0) as Hf. unfold new_job in Hf.
  simpl in Hf. congruence.
Qed.

Lemma view_of_new_job h j :
  view (snd (new_job h j)) (fst (new_job h j))
  = Some {| v_job := j;
            v_meta := m ← Meta j; metas_at h !! m;
            v_started := t ← StartedAt j; times_at h !! t;
            v_completed := t ← CompletedAt j; times_at h !! t |}.
Proof. unfold view, new_job. simpl. by rewrite lookup_insert_eq. Qed.

Lemma wf_new_job db h j : wf db h → wf db (snd (new_job h j)).
Proof.
  intros Hwf id p Hp. destruct (Hwf id p Hp) as [j' Hj'].
  unfold new_job. simpl. exists j'.
  rewrite lookup_insert_ne; [done|]. intros <-.
  pose proof (StoreFacts.new_job_fresh h j) as Hf. unfold new_job in Hf.
  simpl in Hf. congruence.
Qed.

Lemma new_job_lookup_here h j :
  jobs_at (snd (new_job h j)) !! fst (new_job h j) = Some j.
Proof. unfold new_job. simpl. apply lookup_insert_eq. Qed.

Lemma wf_empty h : wf NewInMemoryDB h.
Proof. intros id p Hp. simpl in Hp. by rewrite lookup_empty in Hp. Qed.

Lemma wf_CreateJob db h p : wf db h → wf (snd (CreateJob db h p)) h.
Proof.
  intros Hwf. unfold CreateJob.
  destruct (jobs_at h !! p) as [j|] eqn:Hj; [|done].
  destruct (jobs db !! ID j); [done|]. simpl.
  intros id q Hq. simpl in Hq.
  destruct (decide (ID j = id)) as [<-|Hne].
  - rewrite lookup_insert_eq in Hq. inversion Hq; subst. eauto.
  - rewrite lookup_insert_ne in Hq by done. by eapply Hwf.
Qed.

Lemma GetJob_found db h id p j :
  jobs db !! id = Some p → jobs_at h !! p = Some j →
  GetJob db h id = (inr (fst (new_job h j)), snd (new_job h j)).
Proof. intros Hp Hj. unfold GetJob. by rewrite Hp, Hj. Qed.

(** X1.  A job that was created is found: [CreateJob] of a job whose id
    the store does not hold succeeds, and [GetJob] of that id then returns
    a new object, different from the one handed in, that reads the
    same. *)
Theorem CreateJob_then_GetJob (db : InMemoryDB) (h : Heap) (p : loc) (j : Job) :
  jobs_at h !! p = Some j → jobs db !! ID j = None →
  fst (CreateJob db h p) = None
  ∧ ∃ copy h',
      GetJob (snd (CreateJob db h p)) h (ID j) = (inr copy, h')
      ∧ copy ≠ p ∧ view h' copy = view h p.
Proof.
  intros Hj Hnone. unfold CreateJob. rewrite Hj, Hnone. simpl.
  split; [done|]. do 2 eexists. split.
  - apply GetJob_found with (p := p); [apply lookup_insert_eq|exact Hj].
  - split.
    + intros E. pose proof (StoreFacts.new_job_fresh h j) as Hf.
      rewrite E in Hf. congruence.
    + rewrite view_of_new_job. unfold view. by rewrite Hj.
Qed.

Definition blank_job (id : string) : Job :=
  {| ID := id; Job.OriginalURL := "https://youtu.be/a";
     Status := JobStatusPending; Meta := None; DownloadEndpoint := "";
     Error := ""; CreatedAt := 1000; StartedAt := None; CompletedAt := None;
     FilePath := "" |}.

Definition one_object : loc * Heap := new_job empty_heap (blank_job "j1").

Lemma CreateJob_then_GetJob_witness :
  fst (CreateJob NewInMemoryDB (snd one_object) (fst one_object)) = None
  ∧ ∃ copy h',
      GetJob (snd (CreateJob NewInMemoryDB (snd one_object) (fst one_object)))
        (snd one_object) "j1" = (inr copy, h')
      ∧ copy ≠ fst one_object
      ∧ view h' copy = view (snd one_object) (fst one_object).
Proof.
  apply (CreateJob_then_GetJob NewInMemoryDB (snd one_object) (fst one_object)
           (blank_job "j1")).
  - vm_compute. reflexivity.
  - vm_compute. reflexivity.
Defined.

(** X2.  Ids are unique: once a job is created, a second [CreateJob] with
    the same id fails with [AlreadyExists], whatever object it is given,
    and the store keeps the first record. *)
Theorem CreateJob_same_id_twice (db : InMemoryDB) (h : Heap) (p q : loc)
    (j j' : Job) :
  jobs_at h !! p = Some j → jobs_at h !! q = Some j' → ID j' = ID j →
  jobs db !! ID j = None →
  CreateJob (snd (CreateJob db h p)) h q
  = (Some AlreadyExists, snd (CreateJob db h p))
  ∧ stored (snd (CreateJob db h p)) h (ID j) = view h p.
Proof.
  intros Hj Hj' Hid Hnone. unfold CreateJob at 2 3 4. rewrite Hj, Hnone.
  simpl. unfold CreateJob, stored. rewrite Hj', Hid. simpl.
  by rewrite lookup_insert_eq.
Qed.

(** Two objects with the id "j1": a pending job and a failed one. *)
Definition failed_job (id : string) : Job :=
  set_Status JobStatusFailed (blank_job id).

Definition obj1 : loc := fst (new_job empty_heap (blank_job "j1")).
Definition obj2 : loc :=
  fst (new_job (snd (new_job empty_heap (blank_job "j1"))) (failed_job "j1")).
Definition heap2 : Heap :=
  snd (new_job (snd (new_job empty_heap (blank_job "j1"))) (failed_job "j1")).

(** The store after the first object was created. *)
Definition db1 : InMemoryDB := snd (CreateJob NewInMemoryDB heap2 obj1).

Lemma CreateJob_same_id_twice_witness :
  CreateJob db1 heap2 obj2 = (Some AlreadyExists, db1)
  ∧ stored db1 heap2 "j1" = view heap2 obj1.
Proof.
  apply (CreateJob_same_id_twice NewInMemoryDB heap2 obj1 obj2
           (blank_job "j1") (failed_job "j1")); vm_compute; reflexivity.
Defined.

(** X3.  [UpdateJob] replaces the record wholesale and never creates
    one: when the id is present the store then reads as the object handed
    in, whatever it held before, and every other id reads as before; when
    the id is absent the call fails with [NotFound] and changes nothing. *)
Theorem UpdateJob_replaces (db : InMemoryDB) (h : Heap) (q : loc) (j' : Job) :
  jobs_at h !! q = Some j' →
  match jobs db !! ID j' with
  | Some _ =>
      fst (UpdateJob db h q) = None
      ∧ stored (snd (UpdateJob db h q)) h (ID j') = view h q
      ∧ ∀ id, id ≠ ID j' →
              stored (snd (UpdateJob db h q)) h id = stored db h id
  | None =>
      UpdateJob db h q = (Some NotFound, db)
      ∧ fst (GetJob db h (ID j')) = inl NotFound
  end.
Proof.
  intros Hq. unfold UpdateJob, stored, GetJob. rewrite Hq.
  destruct (jobs db !! ID j') as [p|] eqn:Hp; simpl.
  - split; [done|]. split; [by rewrite lookup_insert_eq|].
    intros id Hne. by rewrite lookup_insert_ne.
  - done.
Qed.

Lemma UpdateJob_replaces_witness :
  fst (UpdateJob db1 heap2 obj2) = None
  ∧ stored (snd (UpdateJob db1 heap2 obj2)) heap2 "j1" = view heap2 obj2
  ∧ ∀ id, id ≠ "j1" →
          stored (snd (UpdateJob db1 heap2 obj2)) heap2 id
          = stored db1 heap2 id.
Proof.
  pose proof (UpdateJob_replaces db1 heap2 obj2 (failed_job "j1")) as H.
  apply H. vm_compute. reflexivity.
Defined.

(** X4.  After [DeleteJob] of a present id the job is gone: [GetJob] and
    a second [DeleteJob] fail with [NotFound], the other ids read as
    before, and the id can be created again. *)
Theorem DeleteJob_then (db : InMemoryDB) (h : Heap) (id : string) :
  is_Some (jobs db !! id) →
  fst (DeleteJob db id) = None
  ∧ fst (GetJob (snd (DeleteJob db id)) h id) = inl NotFound
  ∧ DeleteJob (snd (DeleteJob db id)) id
    = (Some NotFound, snd (DeleteJob db id))
  ∧ (∀ id', id' ≠ id →
            stored (snd (DeleteJob db id)) h id' = stored db h id')
  ∧ (∀ q j, jobs_at h !! q = Some j → ID j = id →
            fst (CreateJob (snd (DeleteJob db id)) h q) = None).
Proof.
  intros [p Hp]. unfold DeleteJob at 1 2 4 5 6 7. rewrite Hp. simpl.
  unfold GetJob, DeleteJob, stored, CreateJob. simpl.
  rewrite lookup_delete_eq. repeat split.
  - intros id' Hne. by rewrite lookup_delete_ne.
  - intros q j Hq <-. by rewrite Hq, lookup_delete_eq.
Qed.

Lemma DeleteJob_then_witness :
  fst (DeleteJob db1 "j1") = None
  ∧ fst (GetJob (snd (DeleteJob db1 "j1")) heap2 "j1") = inl NotFound.
Proof.
  destruct (DeleteJob_then db1 heap2 "j1") as (H1 & H2 & _).
  - vm_compute. eauto.
  - by split.
Defined.

(** X5.  [CreateJob] keeps the object it is handed, not a copy of it: an
    assignment the caller makes to a field of that object afterwards is
    what the store holds for the id, with no call of [UpdateJob]. *)
Theorem CreateJob_keeps_the_object (db : InMemoryDB) (h : Heap) (p : loc)
    (j : Job) (f : Job → Job) :
  jobs_at h !! p = Some j → jobs db !! ID j = None →
  (v_job <$> stored (snd (CreateJob db h p))
               (StoreFacts.caller_sets_field h p f) (ID j))
  = Some (f j).
Proof.
  intros Hj Hnone. unfold CreateJob, stored, StoreFacts.caller_sets_field.
  rewrite Hj, Hnone. simpl. rewrite lookup_insert_eq. simpl.
  unfold view. simpl. by rewrite lookup_insert_eq.
Qed.

Lemma CreateJob_keeps_the_object_witness :
  (v_job <$> stored db1
               (StoreFacts.caller_sets_field heap2 obj1
                  (set_Status JobStatusFailed)) "j1")
  = Some (failed_job "j1").
Proof.
  apply (CreateJob_keeps_the_object NewInMemoryDB heap2 obj1 (blank_job "j1")
           (set_Status JobStatusFailed)); vm_compute; reflexivity.
Defined.

(** X6.  What [GetJob] returns reads as the stored record did at the call,
    and assignments to the fields of the returned job leave every stored
    record as it was. *)
Theorem GetJob_snapshot (db : InMemoryDB) (h : Heap) (id : string)
    (job : loc) (h' : Heap) :
  wf db h → GetJob db h id = (inr job, h') →
  view h' job = stored db h id
  ∧ ∀ f id',
      stored db (StoreFacts.caller_sets_field h' job f) id' = stored db h id'.
Proof.
  intros Hwf Hget. split.
  - unfold GetJob in Hget. unfold stored.
    destruct (jobs db !! id) as [p|]; [|done]. simpl.
    destruct (jobs_at h !! p) as [j|] eqn:Hj; [|done].
    unfold new_job in Hget. simpl in Hget.
    inversion Hget; subst; clear Hget.
    unfold view. simpl. by rewrite lookup_insert_eq, Hj.
  - intros f id'. by eapply StoreFacts.GetJob_copy_fields.
Qed.

Definition copy1 : loc := fst (new_job heap2 (blank_job "j1")).
Definition heap3 : Heap := snd (new_job heap2 (blank_job "j1")).

Lemma GetJob_snapshot_witness :
  view heap3 copy1 = stored db1 heap2 "j1"
  ∧ ∀ f id',
      stored db1 (StoreFacts.caller_sets_field heap3 copy1 f) id'
      = stored db1 heap2 id'.
Proof.
  apply (GetJob_snapshot db1 heap2 "j1" copy1 heap3).
  - apply wf_CreateJob, wf_empty.
  - vm_compute. reflexivity.
Defined.

Lemma GetAllJobs_cons db h k rest :
  GetAllJobs db h (k :: rest)
  = match jobs db !! k with
    | Some job =>
        match jobs_at h !! job with
        | Some j =>
            let '(copiedJob, h1) := new_job h j in
            let '(allJobs, h2) := GetAllJobs db h1 rest in
            (copiedJob :: allJobs, h2)
        | None => GetAllJobs db h rest
        end
    | None => GetAllJobs db h rest
    end.
Proof. reflexivity. Qed.

Lemma GetAllJobs_spec db order : ∀ h,
  wf db h → Forall (λ k, is_Some (jobs db !! k)) order →
  length (fst (GetAllJobs db h order)) = length order
  ∧ (view (snd (GetAllJobs db h order)) <$> fst (GetAllJobs db h order))
    = (stored db h <$> order)
  ∧ NoDup (fst (GetAllJobs db h order))
  ∧ (∀ c, c ∈ fst (GetAllJobs db h order) → jobs_at h !! c = None)
  ∧ (∀ p, is_Some (jobs_at h !! p) →
          view (snd (GetAllJobs db h order)) p = view h p).
Proof.
  induction order as [|k rest IH]; intros h Hwf Hall.
  - simpl. repeat split; [constructor|by intros c Hc; inversion Hc].
  - apply Forall_cons in Hall as [[p Hp] Hall].
    rewrite GetAllJobs_cons, Hp.
    destruct (Hwf k p Hp) as [j Hj]. rewrite Hj.
    pose proof (StoreFacts.new_job_fresh h j) as Hfresh.
    pose proof (view_of_new_job h j) as Hview.
    pose proof (λ q, view_new_job h j q) as Hkeep.
    pose proof (wf_new_job db h j Hwf) as Hwf1.
    pose proof (new_job_lookup_here h j) as Hhere.
    destruct (new_job h j) as [c h1]. simpl in Hfresh, Hview, Hkeep, Hhere.
    specialize (IH h1 Hwf1 Hall).
    destruct (GetAllJobs db h1 rest) as [l h2]. simpl in IH.
    destruct IH as (Hlen & Hviews & Hnd & Hnew & Hsame).
    cbn [fst snd length]. rewrite !fmap_cons.
    split; [by rewrite Hlen|]. split; [|split; [|split]].
    + f_equal.
      * rewrite Hsame by eauto. rewrite Hview. unfold stored. rewrite Hp.
        simpl. unfold view. by rewrite Hj.
      * rewrite Hviews. apply list_fmap_ext. intros _ k' _.
        unfold stored. destruct (jobs db !! k') as [q|] eqn:Hq; [|done].
        simpl. apply Hkeep. by eapply Hwf.
    + constructor; [|done]. intros Hin. apply Hnew in Hin. congruence.
    + intros c' Hc'. apply elem_of_cons in Hc' as [->|Hc']; [done|].
      apply Hnew in Hc'.
      destruct (jobs_at h !! c') as [j'|] eqn:E; [|done].
      assert (is_Some (jobs_at h !! c')) as Hs by eauto.
      pose proof (Hkeep c' Hs) as Hv. unfold view in Hv.
      rewrite Hc', E in Hv. done.
    + intros q Hq. rewrite Hsame.
      * by apply Hkeep.
      * destruct Hq as [jq Hjq]. pose proof (Hkeep q (ex_intro _ jq Hjq)) as Hv.
        unfold view in Hv. rewrite Hjq in Hv.
        destruct (jobs_at h1 !! q); [eauto|done].
Qed.

Lemma visits_length db order : visits db order → length order = size (jobs db).
Proof.
  intros [Hnd Hin].
  rewrite <- size_dom, <- (size_list_to_set (C := gset string) order) by done.
  f_equal. apply set_eq. intros k.
  rewrite elem_of_list_to_set, elem_of_dom. apply Hin.
Qed.

(** X7.  [GetAllJobs] returns one copy of every job in the store, however
    Go orders the keys: as many objects as there are records, each
    reading as the record it was copied from, all of them newly allocated
    and pairwise distinct. *)
Theorem GetAllJobs_copies_all (db : InMemoryDB) (h : Heap)
    (order : list string) :
  wf db h → visits db order →
  length (fst (GetAllJobs db h order)) = size (jobs db)
  ∧ (view (snd (GetAllJobs db h order)) <$> fst (GetAllJobs db h order))
    = (stored db h <$> order)
  ∧ NoDup (fst (GetAllJobs db h order))
  ∧ ∀ c, c ∈ fst (GetAllJobs db h order) → jobs_at h !! c = None.
Proof.
  intros Hwf Hv.
  destruct (GetAllJobs_spec db order h Hwf) as (Hlen & Hviews & Hnd & Hnew & _).
  { apply Forall_forall. intros k Hk. by apply Hv. }
  split; [by rewrite Hlen, (visits_length db order)|]. done.
Qed.

Lemma GetAllJobs_copies_all_witness :
  length (fst (GetAllJobs db1 heap2 ["j1"])) = 1%nat
  ∧ NoDup (fst (GetAllJobs db1 heap2 ["j1"])).
Proof.
  destruct (GetAllJobs_copies_all db1 heap2 ["j1"]) as (H1 & _ & H3 & _).
  - apply wf_CreateJob, wf_empty.
  - assert (jobs db1 = {[ "j1" := obj1 ]}) as E by (vm_compute; reflexivity).
    split; [repeat constructor; by intros H; inversion H|].
    intros k. rewrite E, list_elem_of_singleton.
    destruct (decide (k = "j1")) as [->|Hne].
    + rewrite lookup_singleton_eq. split; eauto.
    + rewrite lookup_singleton_ne by done. split; [done|by intros [? ?]].
  - split; [|exact H3]. rewrite H1. vm_compute. reflexivity.
Defined.

End VolatileStore.

(** ** shared/db_redis.go: how the operations compose *)

Module DurableStore.

Import DB RedisDB.

Lemma jobKey_inj id id' : jobKey id = jobKey id' → id = id'.
Proof. unfold jobKey. intros H. simpl in H. by inversion H. Qed.

Definition index (srv : Redis.Server) : gmap string Z :=
  default ∅ (Redis.zsets srv !! "jobs").

Lemma exists_key_false srv key :
  exists_key srv key = false ↔ Redis.values srv !! key = None.
Proof.
  unfold exists_key. rewrite bool_decide_eq_false.
  destruct (Redis.values srv !! key); split; try done.
  intros H. destruct H. eauto.
Qed.

Lemma exists_key_true srv key :
  exists_key srv key = true ↔ is_Some (Redis.values srv !! key).
Proof. unfold exists_key. apply bool_decide_eq_true. Qed.

Lemma durable_CreateJob_ok srv id b score :
  Redis.values srv !! jobKey id = None →
  CreateJob srv id b score Redis.Answered Redis.Answered
  = (None, set_zadd srv id b score).
Proof.
  intros Hnone. apply exists_key_false in Hnone.
  unfold CreateJob. simpl. by rewrite Hnone.
Qed.

(** X8.  A job created on the durable store is found and indexed: when
    the id has no record and both round trips are answered, [CreateJob]
    returns nil, [GetJob] then returns the bytes that were written, the
    index holds the id with the given score, and a second [CreateJob] of
    the id fails with [AlreadyExists] and changes nothing. *)
Theorem durable_CreateJob_then (srv : Redis.Server) (id b b' : string)
    (score score' : Z) :
  Redis.values srv !! jobKey id = None →
  let srv1 := snd (CreateJob srv id b score Redis.Answered Redis.Answered) in
  fst (CreateJob srv id b score Redis.Answered Redis.Answered) = None
  ∧ GetJob srv1 id Redis.Answered = inr b
  ∧ index srv1 !! id = Some score
  ∧ CreateJob srv1 id b' score' Redis.Answered Redis.Answered
    = (Some AlreadyExists, srv1).
Proof.
  intros Hnone srv1. subst srv1.
  rewrite (durable_CreateJob_ok srv id b score Hnone). cbn [fst snd].
  split; [done|]. split; [|split].
  - unfold GetJob, set_zadd. simpl. by rewrite lookup_insert_eq.
  - unfold index, set_zadd. simpl. rewrite lookup_insert_eq. simpl.
    apply lookup_insert_eq.
  - unfold CreateJob. simpl.
    replace (exists_key _ (jobKey id)) with true; [done|].
    symmetry. apply exists_key_true. simpl. rewrite lookup_insert_eq. eauto.
Qed.

Lemma durable_CreateJob_then_witness :
  GetJob (snd (CreateJob Redis.empty "j1" "{}" 1700000000
                 Redis.Answered Redis.Answered)) "j1" Redis.Answered
  = inr "{}".
Proof.
  destruct (durable_CreateJob_then Redis.empty "j1" "{}" "{}" 1700000000 0)
    as (_ & H & _).
  - vm_compute. reflexivity.
  - exact H.
Defined.

(** X9.  [UpdateJob] on the durable store replaces the bytes of a record
    that exists and leaves the index, with its creation-time score, as it
    was; for an id without a record it fails with [NotFound] and writes
    nothing. *)
Theorem durable_UpdateJob (srv : Redis.Server) (id b : string) :
  match Redis.values srv !! jobKey id with
  | Some _ =>
      fst (UpdateJob srv id b Redis.Answered Redis.Answered) = None
      ∧ GetJob (snd (UpdateJob srv id b Redis.Answered Redis.Answered)) id
          Redis.Answered = inr b
      ∧ Redis.zsets (snd (UpdateJob srv id b Redis.Answered Redis.Answered))
        = Redis.zsets srv
  | None =>
      UpdateJob srv id b Redis.Answered Redis.Answered = (Some NotFound, srv)
  end.
Proof.
  destruct (Redis.values srv !! jobKey id) as [old|] eqn:E.
  - assert (exists_key srv (jobKey id) = true) as Hex
      by (apply exists_key_true; eauto).
    unfold UpdateJob, GetJob. simpl. rewrite Hex. simpl.
    by rewrite lookup_insert_eq.
  - apply exists_key_false in E. unfold UpdateJob. simpl. by rewrite E.
Qed.

(** X10.  After the durable [DeleteJob] is answered, the record and its
    index entry are both gone, so [GetJob] fails with [NotFound]; the
    records and index entries of the other ids are untouched. *)
Theorem durable_DeleteJob_then (srv : Redis.Server) (id : string) :
  let srv1 := snd (DeleteJob srv id Redis.Answered) in
  GetJob srv1 id Redis.Answered = inl NotFound
  ∧ index srv1 !! id = None
  ∧ ∀ id', id' ≠ id →
           GetJob srv1 id' Redis.Answered = GetJob srv id' Redis.Answered
           ∧ index srv1 !! id' = index srv !! id'.
Proof.
  unfold DeleteJob, GetJob, index, del_zrem. simpl. split; [|split].
  - by rewrite lookup_delete_eq.
  - destruct (Redis.zsets srv !! "jobs") as [z|] eqn:Ez.
    + rewrite lookup_insert_eq. simpl. apply lookup_delete_eq.
    + rewrite Ez. done.
  - intros id' Hne. split.
    + rewrite lookup_delete_ne; [done|]. intros E. by apply jobKey_inj in E.
    + destruct (Redis.zsets srv !! "jobs") as [z|] eqn:Ez.
      * rewrite lookup_insert_eq. simpl. by rewrite lookup_delete_ne.
      * by rewrite Ez.
Qed.

End DurableStore.

(** ** shared/queue.go: order, capacity and shutdown *)

Module Bus.

Import Queue.

(** Receiving from the channel of [Consume] up to [n] times, stopping
    when a receive cannot proceed. *)
Fixpoint drain (n : nat) (q : InMemoryQueue) : list JobMessage * InMemoryQueue :=
  match n with
  | O => ([], q)
  | S n' =>
      match receive q with
      | None => ([], q)
      | Some (m, q1) => let '(ms, q2) := drain n' q1 in (m :: ms, q2)
      end
  end.

(** The calls a program can make on the bus. *)
Inductive Op :=
  | DoPublish (m : JobMessage) (pick : Select)
  | DoReceive
  | DoClose.

Definition apply_op (q : InMemoryQueue) (o : Op) : InMemoryQueue :=
  match o with
  | DoPublish m pick => snd (Publish q m pick)
  | DoReceive => match receive q with Some (_, q') => q' | None => q end
  | DoClose => Close q
  end.

Definition apply_ops (q : InMemoryQueue) (ops : list Op) : InMemoryQueue :=
  foldl apply_op q ops.

(** The flags of a queue move together: [Close] sets all three. *)
Definition coherent (q : InMemoryQueue) : Prop :=
  closed (queue q) = once q ∧ stop q = once q.

(** How many more messages the buffer takes. *)
Definition room_left (q : InMemoryQueue) : nat :=
  Z.to_nat (cap (queue q) - Z.of_nat (length (buf (queue q)))).

Lemma publish_all_cons q m ms pick :
  publish_all q (m :: ms) pick
  = let '(r, q1) := Publish q m pick in
    let '(rs, q2) := publish_all q1 ms pick in (r :: rs, q2).
Proof. reflexivity. Qed.

(** Publishing into a queue that was not closed, with no consumer: the
    messages that fit are appended in order, the others are refused. *)
Lemma publish_all_fills ms : ∀ q pick,
  QueueFacts.open q →
  fst (publish_all q ms pick)
  = replicate (min (room_left q) (length ms)) Published
    ++ replicate (length ms - room_left q) QueueFull
  ∧ buf (queue (snd (publish_all q ms pick)))
    = buf (queue q) ++ take (room_left q) ms
  ∧ cap (queue (snd (publish_all q ms pick))) = cap (queue q)
  ∧ QueueFacts.open (snd (publish_all q ms pick)).
Proof.
  induction ms as [|m ms IH]; intros q pick Ho.
  - simpl. rewrite Nat.min_0_r, take_nil. simpl.
    by rewrite app_nil_r.
  - rewrite publish_all_cons. destruct (QueueFacts.room q) eqn:Hr.
    + rewrite (QueueFacts.Publish_open_room q m pick Ho Hr).
      set (q1 := {| queue := _; stop := _; once := _ |}).
      assert (QueueFacts.open q1) as Ho1 by (destruct Ho; by split).
      specialize (IH q1 pick Ho1).
      destruct (publish_all q1 ms pick) as [rs q2].
      destruct IH as (Hrs & Hbuf & Hcap & Hopen). cbn [fst snd] in *.
      unfold QueueFacts.room in Hr. apply Z.ltb_lt in Hr.
      assert (room_left q = S (room_left q1)) as Hroom.
      { unfold room_left, q1. simpl. rewrite length_app. simpl. lia. }
      rewrite Hroom. simpl. rewrite Hrs, Hbuf. subst q1. simpl.
      rewrite <- app_assoc. done.
    + rewrite (QueueFacts.Publish_open_full q m pick Ho Hr).
      specialize (IH q pick Ho).
      destruct (publish_all q ms pick) as [rs q2].
      destruct IH as (Hrs & Hbuf & Hcap & Hopen). cbn [fst snd] in *.
      unfold QueueFacts.room in Hr. apply Z.ltb_ge in Hr.
      assert (room_left q = 0%nat) as Hroom by (unfold room_left; lia).
      rewrite Hroom in *. simpl in *. rewrite Nat.sub_0_r in Hrs.
      rewrite Hrs, Hbuf. by rewrite take_0.
Qed.

Lemma receive_cons q m ms :
  buf (queue q) = m :: ms →
  receive q
  = Some (m, {| queue := {| buf := ms; cap := cap (queue q);
                            closed := closed (queue q) |};
                stop := stop q; once := once q |}).
Proof. intros Hb. unfold receive. by rewrite Hb. Qed.

Lemma drain_S n q :
  drain (S n) q
  = match receive q with
    | None => ([], q)
    | Some (m, q1) => let '(ms, q2) := drain n q1 in (m :: ms, q2)
    end.
Proof. reflexivity. Qed.

Lemma drain_all ms : ∀ q,
  buf (queue q) = ms →
  fst (drain (length ms) q) = ms
  ∧ buf (queue (snd (drain (length ms) q))) = []
  ∧ receive (snd (drain (length ms) q)) = None.
Proof.
  induction ms as [|m ms IH]; intros q Hb.
  - simpl. unfold receive. by rewrite Hb.
  - cbn [length]. rewrite drain_S, (receive_cons q m ms Hb).
    set (q1 := {| queue := _; stop := _; once := _ |}).
    specialize (IH q1 eq_refl).
    destruct (drain (length ms) q1) as [l q2]. cbn [fst snd] in *.
    destruct IH as (-> & ? & ?). done.
Qed.

(** X11.  The bus is first in, first out and loses nothing: messages
    published into a new queue that has room for them are all accepted,
    and the consumer then receives exactly those messages, in the order
    they were published, after which a receive cannot proceed. *)
Theorem published_then_received_in_order (bufferSize : nat)
    (ms : list JobMessage) (pick : Select) :
  (length ms ≤ bufferSize)%nat →
  let q := snd (publish_all (NewInMemoryQueue (Z.of_nat bufferSize)) ms pick) in
  fst (publish_all (NewInMemoryQueue (Z.of_nat bufferSize)) ms pick)
  = replicate (length ms) Published
  ∧ fst (drain (length ms) q) = ms
  ∧ receive (snd (drain (length ms) q)) = None.
Proof.
  intros Hlen q.
  destruct (publish_all_fills ms (NewInMemoryQueue (Z.of_nat bufferSize)) pick)
    as (Hrs & Hbuf & _ & _); [done|].
  assert (room_left (NewInMemoryQueue (Z.of_nat bufferSize)) = bufferSize)
    as Hroom by (unfold room_left; simpl; lia).
  rewrite Hroom in Hrs, Hbuf. simpl in Hbuf.
  rewrite take_ge in Hbuf by lia.
  split.
  - rewrite Hrs, Nat.min_r by lia.
    replace (length ms - bufferSize)%nat with 0%nat by lia.
    apply app_nil_r.
  - destruct (drain_all ms q Hbuf) as (H1 & _ & H3). done.
Qed.

Definition msg (id : string) : JobMessage :=
  {| JobID := id; OriginalURL := "https://youtu.be/" +:+ id |}.

Lemma published_then_received_in_order_witness :
  fst (drain 3 (snd (publish_all (NewInMemoryQueue 3)
                       [msg "a"; msg "b"; msg "c"] SendCase)))
  = [msg "a"; msg "b"; msg "c"].
Proof.
  destruct (published_then_received_in_order 3 [msg "a"; msg "b"; msg "c"]
              SendCase) as (_ & H & _).
  - simpl. lia.
  - exact H.
Defined.

(** X12.  A new queue with no consumer takes [bufferSize] messages and
    refuses every later one with [QueueFull]; a refused message is not
    stored and no accepted message is displaced: the buffer holds the
    first [bufferSize] messages, in order. *)
Theorem over_capacity_refused (bufferSize : nat) (ms : list JobMessage)
    (pick : Select) :
  (bufferSize ≤ length ms)%nat →
  fst (publish_all (NewInMemoryQueue (Z.of_nat bufferSize)) ms pick)
  = replicate bufferSize Published
    ++ replicate (length ms - bufferSize) QueueFull
  ∧ buf (queue (snd (publish_all (NewInMemoryQueue (Z.of_nat bufferSize))
                       ms pick)))
    = take bufferSize ms.
Proof.
  intros Hlen.
  destruct (publish_all_fills ms (NewInMemoryQueue (Z.of_nat bufferSize)) pick)
    as (Hrs & Hbuf & _ & _); [done|].
  assert (room_left (NewInMemoryQueue (Z.of_nat bufferSize)) = bufferSize)
    as Hroom by (unfold room_left; simpl; lia).
  rewrite Hroom in Hrs, Hbuf. rewrite Nat.min_l in Hrs by lia. done.
Qed.

Lemma over_capacity_refused_witness :
  fst (publish_all (NewInMemoryQueue 2) [msg "a"; msg "b"; msg "c"] SendCase)
  = [Published; Published; QueueFull]
  ∧ buf (queue (snd (publish_all (NewInMemoryQueue 2)
                       [msg "a"; msg "b"; msg "c"] SendCase)))
    = [msg "a"; msg "b"].
Proof.
  apply (over_capacity_refused 2 [msg "a"; msg "b"; msg "c"] SendCase).
  simpl. lia.
Defined.

Lemma apply_ops_invariant (P : InMemoryQueue → Prop) :
  (∀ q o, P q → P (apply_op q o)) →
  ∀ ops q, P q → P (apply_ops q ops).
Proof.
  intros Hstep. induction ops as [|o ops IH]; intros q Hq; [done|].
  simpl. apply IH. by apply Hstep.
Qed.

Definition within_capacity (n : Z) (q : InMemoryQueue) : Prop :=
  cap (queue q) = n ∧ Z.of_nat (length (buf (queue q))) <= n.

Lemma apply_op_within_capacity n q o :
  within_capacity n q → within_capacity n (apply_op q o).
Proof.
  intros [Hc Hl]. destruct o as [m pick| |]; simpl.
  - unfold Publish, send, send_ready.
    destruct (closed (queue q)) eqn:Ecl; simpl.
    + by destruct (stop q), pick.
    + destruct (Z.ltb_spec (Z.of_nat (length (buf (queue q)))) (cap (queue q)));
        [|by destruct (stop q)].
      destruct (stop q), pick; simpl; try done;
        (split; simpl; [done|rewrite length_app; simpl; lia]).
  - unfold receive. destruct (buf (queue q)) as [|m rest] eqn:Eb.
    + split; [done|]. by rewrite Eb.
    + split; simpl; [done|]. simpl in Hl. lia.
  - unfold Close. destruct (once q); by split.
Qed.

(** X13.  The buffer never holds more messages than the capacity the
    queue was made with, whatever sequence of [Publish], receive and
    [Close] is applied to it and whichever case each [select] takes. *)
Theorem buffer_within_capacity (bufferSize : Z) (ops : list Op) :
  0 <= bufferSize →
  Z.of_nat (length (buf (queue (apply_ops (NewInMemoryQueue bufferSize) ops))))
  <= bufferSize.
Proof.
  intros Hn.
  apply (apply_ops_invariant (within_capacity bufferSize)).
  - intros q o. apply apply_op_within_capacity.
  - split; simpl; [done|lia].
Qed.

Lemma buffer_within_capacity_witness :
  Z.of_nat (length (buf (queue (apply_ops (NewInMemoryQueue 1)
                                  [DoPublish (msg "a") SendCase;
                                   DoPublish (msg "b") SendCase;
                                   DoReceive;
                                   DoPublish (msg "c") StopCase]))))
  <= 1.
Proof. apply buffer_within_capacity. lia. Defined.

Lemma apply_op_coherent q o : coherent q → coherent (apply_op q o).
Proof.
  intros [Hc Hs]. destruct o as [m pick| |]; simpl.
  - unfold Publish, send.
    destruct (send_ready (queue q)), (stop q) eqn:Est, pick,
      (closed (queue q)) eqn:Ecl; simpl; try done;
      split; simpl; congruence.
  - unfold receive. destruct (buf (queue q)); by split.
  - unfold Close. destruct (once q) eqn:E; split; simpl; congruence.
Qed.

(** A queue on which [Close] has run. *)
Definition shut (q : InMemoryQueue) : Prop :=
  closed (queue q) = true ∧ stop q = true ∧ once q = true.

Lemma Close_shut q : coherent q → shut (Close q).
Proof.
  intros [Hc Hs]. unfold Close, shut.
  destruct (once q) eqn:E; simpl; [|done]. by rewrite Hc, Hs, E.
Qed.

Lemma Close_of_shut q : shut q → Close q = q.
Proof. intros (_ & _ & Ho). unfold Close. by rewrite Ho. Qed.

Lemma Publish_shut q m pick :
  shut q →
  snd (Publish q m pick) = q
  ∧ (fst (Publish q m pick) = QueueClosed
     ∨ fst (Publish q m pick) = SendOnClosedChannel).
Proof.
  intros (Hc & Hs & _). unfold Publish, send, send_ready.
  rewrite Hc, Hs. simpl. destruct pick; simpl; auto.
Qed.

Lemma receive_Close q :
  receive (Close q) = (λ mq, (fst mq, Close (snd mq))) <$> receive q.
Proof.
  unfold Close, receive.
  destruct (once q) eqn:Eo; simpl;
    destruct (buf (queue q)); simpl; try done; by rewrite Eo.
Qed.

(** X14.  Shutdown keeps what is buffered and takes nothing more: on a
    queue in any reachable state, [Close] leaves the buffered messages in
    place for the consumer, a second [Close] changes nothing, and from
    then on no [Publish] stores a message, whichever case its [select]
    takes (it returns the closed error or panics). *)
Theorem Close_keeps_buffer_and_stops_intake (bufferSize : Z) (ops : list Op) :
  let q := apply_ops (NewInMemoryQueue bufferSize) ops in
  buf (queue (Close q)) = buf (queue q)
  ∧ receive (Close q)
    = (λ mq, (fst mq, Close (snd mq))) <$> receive q
  ∧ Close (Close q) = Close q
  ∧ ∀ m pick,
      snd (Publish (Close q) m pick) = Close q
      ∧ (fst (Publish (Close q) m pick) = QueueClosed
         ∨ fst (Publish (Close q) m pick) = SendOnClosedChannel).
Proof.
  intros q.
  assert (coherent q) as Hco.
  { apply (apply_ops_invariant coherent); [apply apply_op_coherent|by split]. }
  pose proof (Close_shut q Hco) as Hshut.
  split; [unfold Close; by destruct (once q)|].
  split; [apply receive_Close|].
  split; [by apply Close_of_shut|].
  intros m pick. by apply Publish_shut.
Qed.

End Bus.

(** ** shared/ratelimit.go: windows, clients and keys *)

Module Limiter.

Import Config GoTime RateLimit GoIntFacts.

Lemma allowInMem_run_cons r ip rpm t ts :
  allowInMem_run r ip rpm (t :: ts)
  = let '(res, r1) := allowInMem r ip rpm t in
    let '(out, r2) := allowInMem_run r1 ip rpm ts in (res :: out, r2).
Proof. reflexivity. Qed.

(** X15.  The volatile limiter lets a client through exactly [rpm] times
    per window: of the calls of one client that fall into the window
    opened by its first call, call number [k] (from 1) is allowed exactly
    when [k <= rpm] and reports [rpm - k] as remaining. *)
Theorem volatile_window_allows_rpm (r : RateLimiter) (ip : string)
    (rpm t0 : Z) (ts : list Z) (k : nat) :
  0 < rpm → in_int rpm →
  60 * Second < Sub t0 (inMemTTL r) →
  Forall (λ t, Sub t t0 <= 60 * Second) ts →
  Z.of_nat (length ts) + 1 < int_max →
  (k ≤ length ts)%nat →
  fst (allowInMem_run r ip rpm (t0 :: ts)) !! k
  = Some (Z.of_nat k + 1 <=? rpm, rpm - (Z.of_nat k + 1)).
Proof.
  intros Hq Hin Hnew Hall Hmax Hk.
  rewrite allowInMem_run_cons.
  rewrite (RateLimitFacts.allowInMem_new_window r ip rpm t0 Hnew).
  set (r1 := {| cfg := cfg r; redis := redis r;
                inMemCount := {[ ip := 1 ]}; inMemTTL := t0 |}).
  destruct (RateLimitFacts.allowInMem_run_window ts r1 ip rpm 1 Hq Hin)
    as (Hres & _ & _).
  { subst r1. simpl. by rewrite lookup_singleton_eq. }
  { lia. } { lia. } { exact Hall. }
  destruct (allowInMem_run r1 ip rpm ts) as [out r2]. cbn [fst snd] in *.
  destruct k as [|k]; simpl.
  - rewrite int_sub_small by (unfold in_int, int_min, int_max in *; lia).
    done.
  - rewrite Hres by lia. do 2 f_equal; [f_equal|]; lia.
Qed.

Lemma volatile_window_allows_rpm_witness :
  fst (allowInMem_run (NewRateLimiter RateLimitFacts.quota2 None) "A" 2
         [RateLimitFacts.t_first; RateLimitFacts.t_second;
          RateLimitFacts.t_third]) !! 2%nat
  = Some (false, -1).
Proof.
  apply (volatile_window_allows_rpm (NewRateLimiter RateLimitFacts.quota2 None)
           "A" 2 RateLimitFacts.t_first
           [RateLimitFacts.t_second; RateLimitFacts.t_third] 2).
  - lia.
  - unfold in_int, int_min, int_max. lia.
  - vm_compute. reflexivity.
  - repeat constructor; vm_compute; congruence.
  - vm_compute. reflexivity.
  - simpl. lia.
Defined.

(** X16.  The volatile limiter keeps one window for all clients: the call
    that opens a new window, by whichever client, clears the count of
    every other client, so a client that had used up its quota is allowed
    again on its next call in that window. *)
Theorem new_window_clears_every_client (r : RateLimiter) (ipA ipB : string)
    (rpm t t' : Z) :
  0 < rpm → in_int rpm → ipA ≠ ipB →
  60 * Second < Sub t (inMemTTL r) →
  Sub t' t <= 60 * Second →
  fst (allowInMem (snd (allowInMem r ipA rpm t)) ipB rpm t')
  = (true, rpm - 1).
Proof.
  intros Hq Hin Hne Hnew Hsame.
  rewrite (RateLimitFacts.allowInMem_new_window r ipA rpm t Hnew).
  cbn [snd].
  rewrite RateLimitFacts.allowInMem_same_window by exact Hsame.
  cbn [fst inMemCount]. rewrite lookup_singleton_ne by done. simpl.
  rewrite (int_add_small 0 1) by (unfold in_int, int_min, int_max; lia).
  rewrite int_sub_small by (unfold in_int, int_min, int_max in *; lia).
  f_equal. simpl. apply Z.leb_le. lia.
Qed.

(** A limiter in whose window client "B" has made five calls. *)
Definition B_exhausted : RateLimiter :=
  {| cfg := RateLimitFacts.quota2; redis := None;
     inMemCount := {[ "B" := 5 ]}; inMemTTL := RateLimitFacts.t_first |}.

Lemma new_window_clears_every_client_witness :
  fst (allowInMem B_exhausted "B" 2 RateLimitFacts.t_second) = (false, -4)
  ∧ fst (allowInMem (snd (allowInMem B_exhausted "A" 2 RateLimitFacts.t_later))
           "B" 2 RateLimitFacts.t_later)
    = (true, 1).
Proof.
  split; [vm_compute; reflexivity|].
  apply (new_window_clears_every_client B_exhausted "A" "B" 2).
  - lia.
  - unfold in_int, int_min, int_max. lia.
  - done.
  - vm_compute. reflexivity.
  - vm_compute. congruence.
Defined.

(** X17.  Inside a window the clients do not affect each other on the
    volatile path: a call of one client that does not open a new window
    leaves the verdict of any later call of another client as it would
    have been. *)
Theorem same_window_clients_independent (r : RateLimiter) (ipA ipB : string)
    (rpm t t' : Z) :
  ipA ≠ ipB →
  Sub t (inMemTTL r) <= 60 * Second →
  fst (allowInMem (snd (allowInMem r ipA rpm t)) ipB rpm t')
  = fst (allowInMem r ipB rpm t').
Proof.
  intros Hne Hsame.
  rewrite (RateLimitFacts.allowInMem_same_window r ipA rpm t Hsame).
  cbn [snd]. unfold allowInMem. cbn [inMemTTL inMemCount].
  destruct (60 * Second <? Sub t' (inMemTTL r)); cbn [fst]; [done|].
  by rewrite lookup_insert_ne.
Qed.

Lemma same_window_clients_independent_witness :
  fst (allowInMem (snd (allowInMem B_exhausted "A" 2 RateLimitFacts.t_second))
         "B" 2 RateLimitFacts.t_third)
  = fst (allowInMem B_exhausted "B" 2 RateLimitFacts.t_third).
Proof.
  apply (same_window_clients_independent B_exhausted "A" "B" 2).
  - done.
  - vm_compute. congruence.
Defined.

(** X18.  On the durable path the expiry is set by the first hit of a
    window and by no other: an answered call that finds no live counter
    under the minute key gives the key a deadline 65 seconds ahead (when
    EXPIRE gets through), and an answered call that finds a live counter
    leaves every deadline as it is. *)
Theorem expiry_set_by_first_hit_only (r : RateLimiter) (srv : Redis.Server)
    (ip : string) (tk tm : Z) (n2 : Redis.Net) (c : Client) :
  0 < RateLimitRPM (cfg r) → redis r = Some c →
  0 <= Redis.live_counter srv (minuteKey ip tk) tk < int_max →
  let srv' := snd (Allow r srv ip tk tm Redis.Answered n2) in
  if Redis.live_counter srv (minuteKey ip tk) tk =? 0
  then Redis.applied n2 = true →
       Redis.deadlines srv' !! minuteKey ip tk = Some (tk + 65 * Second)
  else Redis.deadlines srv' = Redis.deadlines srv.
Proof.
  intros Hq Hr Hv srv'. subst srv'. unfold Allow. rewrite Hr.
  destruct (RateLimitRPM (cfg r) <=? 0) eqn:E; [lia|].
  set (key := minuteKey ip tk) in *.
  unfold Redis.Incr, Redis.incr.
  destruct (int_max <=? Redis.live_counter srv key tk) eqn:E2; [lia|].
  destruct (Z.eqb_spec (Redis.live_counter srv key tk) 0) as [H0|H0].
  - rewrite H0. simpl. intros Happ.
    unfold Redis.Expire, Redis.expire. rewrite Happ. simpl.
    rewrite lookup_insert_eq.
    assert (Redis.expired
              {| Redis.counters := <[key := 0 + 1]> (Redis.counters srv);
                 Redis.deadlines :=
                   if Redis.expired srv key tk
                   then delete key (Redis.deadlines srv)
                   else Redis.deadlines srv;
                 Redis.values := Redis.values srv;
                 Redis.zsets := Redis.zsets srv |} key tk = false) as ->.
    { unfold Redis.expired at 1. simpl.
      destruct (Redis.expired srv key tk) eqn:Ex.
      - by rewrite lookup_delete_eq.
      - unfold Redis.expired in Ex.
        by destruct (Redis.deadlines srv !! key). }
    simpl. apply lookup_insert_eq.
  - assert (Redis.expired srv key tk = false) as Hex.
    { unfold Redis.live_counter in H0.
      by destruct (Redis.expired srv key tk). }
    destruct (Redis.live_counter srv key tk + 1 =? 1) eqn:E1; [lia|].
    simpl. by rewrite Hex.
Qed.

Lemma expiry_set_by_first_hit_only_witness :
  Redis.deadlines
    (snd (Allow (RateLimitFacts.redis_limiter 2) Redis.empty "A"
            RateLimitFacts.t_first RateLimitFacts.t_first
            Redis.Answered Redis.Answered))
  !! minuteKey "A" RateLimitFacts.t_first
  = Some (RateLimitFacts.t_first + 65 * Second).
Proof.
  pose proof (expiry_set_by_first_hit_only (RateLimitFacts.redis_limiter 2)
                Redis.empty "A" RateLimitFacts.t_first RateLimitFacts.t_first
                Redis.Answered {| Addr := "localhost:6379"; Password := "";
                                  DB := 0 |}) as H.
  assert (Redis.live_counter Redis.empty (minuteKey "A" RateLimitFacts.t_first)
            RateLimitFacts.t_first = 0) as E by (vm_compute; reflexivity).
  rewrite E in H. cbv zeta in H. simpl (0 =? 0) in H. cbv iota in H.
  apply H.
  - simpl. lia.
  - reflexivity.
  - unfold int_max. lia.
  - reflexivity.
Defined.

(** *** Keys *)

Lemma string_length_app (s t : string) :
  String.length (s +:+ t) = (String.length s + String.length t)%nat.
Proof. induction s as [|a s IH]; simpl; [done|]. by rewrite IH. Qed.

Lemma string_app_inv_tail (s1 s2 t : string) : s1 +:+ t = s2 +:+ t → s1 = s2.
Proof.
  revert s2. induction s1 as [|a s1 IH]; intros [|b s2] H.
  - done.
  - apply (f_equal String.length) in H.
    rewrite !string_length_app in H. simpl in H. lia.
  - apply (f_equal String.length) in H.
    rewrite !string_length_app in H. simpl in H. lia.
  - simpl in H. inversion H; subst. f_equal. by apply IH.
Qed.

(** X19.  The minute key separates clients and minutes: at one instant
    two different clients have different keys, and for one client two
    instants have the same key exactly when they fall into the same
    minute, so a counter is never shared between clients nor carried into
    another minute. *)
Theorem minuteKey_separates (ip ip' : string) (t t' : Z) :
  (minuteKey ip t = minuteKey ip' t → ip = ip')
  ∧ (minuteKey ip t = minuteKey ip t'
     ↔ Z.quot (Unix t) 60 = Z.quot (Unix t') 60).
Proof.
  unfold minuteKey. split.
  - intros H. apply (inj (String.append "ratelimit:")) in H.
    by apply string_app_inv_tail in H.
  - split.
    + intros H. apply (inj (String.append "ratelimit:")) in H.
      apply (inj (String.append ip)) in H.
      apply (inj (String.append ":")) in H.
      by apply (inj pretty) in H.
    + by intros ->.
Qed.

End Limiter.

(** ** api-gateway/main.go and worker/main.go: replies, progress and results *)

Module Pipeline.

Import Config Job DB Queue System SystemFacts.

(** X20.  A reply "accepted" means the job is stored and queued: when
    [handleExtract] answers with a job id, the request was a POST with a
    non-empty URL, the id is the fresh one and had no record, the store now
    holds under it a pending record with that URL and creation time and no
    metadata or timestamps, and the message for it is the newest in the
    bus. *)
Theorem accepted_job_is_stored_and_queued (w : World) (r : HttpRequest)
    (jobID : string) (now : Z) (pick : Select) (id : string)
    (st : JobStatus) :
  fst (handleExtract w r jobID now pick) = Accepted id st →
  let w' := snd (handleExtract w r jobID now pick) in
  id = jobID ∧ st = JobStatusPending ∧ Method r = "POST"
  ∧ jobs (db w) !! jobID = None
  ∧ ∃ url, decoded r = Some {| URL := url |} ∧ url ≠ ""
      ∧ stored (db w') (heap w') jobID
        = Some {| v_job :=
                    {| ID := jobID; Job.OriginalURL := url;
                       Status := JobStatusPending; Meta := None;
                       DownloadEndpoint := ""; Error := ""; CreatedAt := now;
                       StartedAt := None; CompletedAt := None;
                       FilePath := "" |};
                  v_meta := None; v_started := None; v_completed := None |}
      ∧ buf (queue (mq w'))
        = buf (queue (mq w))
          ++ [{| JobID := jobID; Queue.OriginalURL := url |}].
Proof.
  unfold handleExtract.
  destruct (String.eqb (Method r) "OPTIONS"); [done|].
  destruct (String.eqb (Method r) "POST") eqn:Em; [|done].
  apply String.eqb_eq in Em. simpl negb. cbv iota.
  destruct (decoded r) as [[url]|]; [|done]. simpl URL.
  destruct (String.eqb url "") eqn:Eu; [done|].
  apply String.eqb_neq in Eu.
  set (j0 := {| ID := jobID; Job.OriginalURL := url;
                Status := JobStatusPending; Meta := None;
                DownloadEndpoint := ""; Error := ""; CreatedAt := now;
                StartedAt := None; CompletedAt := None; FilePath := "" |}).
  pose proof (new_job_lookup (heap w) j0) as Hp.
  destruct (new_job (heap w) j0) as [p h1]. simpl in Hp.
  set (w1 := with_heap h1 w).
  destruct (db_CreateJob_spec w1 p j0 Hp) as (Hh2 & Hq2 & Hpool2 & Hc).
  destruct (db_CreateJob w1 p) as [err w2]. simpl in Hh2, Hq2, Hpool2, Hc.
  change (ID j0) with jobID in Hc.
  change (jobs (db w1)) with (jobs (db w)) in Hc.
  destruct (jobs (db w) !! jobID) as [p0|] eqn:Elook.
  { by destruct Hc as (-> & _). }
  destruct Hc as (-> & Hdb & Htr).
  set (m := {| JobID := jobID; Queue.OriginalURL := url |}).
  destruct (mq_Publish_spec w2 m pick) as (Hh3 & Hd3 & Hpool3 & Hr3 & Hq3 & Ht3).
  destruct (Publish_cases (mq w2) m pick) as [[Hres Hbuf]|[Hres Hsame]].
  - destruct (mq_Publish w2 m pick) as [res w3].
    simpl in Hh3, Hd3, Hpool3, Hr3, Hq3, Ht3. rewrite Hres in Hr3. subst res.
    simpl. intros [= <- <-]. do 4 (split; [done|]). exists url.
    do 2 (split; [done|]). split.
    + unfold stored. rewrite Hd3, Hdb, lookup_insert_eq. simpl.
      unfold view. rewrite Hh3, Hh2. change (heap w1) with h1. rewrite Hp.
      done.
    + by rewrite Hq3, Hbuf, Hq2.
  - destruct (mq_Publish w2 m pick) as [res w3]. simpl in Hr3.
    rewrite <- Hr3 in Hres. destruct res; try done.
    + by destruct (db_UpdateJob _ p).
    + by destruct (db_UpdateJob _ p).
Qed.

Lemma accepted_job_is_stored_and_queued_witness :
  fst (handleExtract init one_post "job-1" 1000 SendCase)
  = Accepted "job-1" JobStatusPending
  ∧ buf (queue (mq (snd (handleExtract init one_post "job-1" 1000 SendCase))))
    = [{| JobID := "job-1"; Queue.OriginalURL := "https://youtu.be/a" |}].
Proof.
  assert (fst (handleExtract init one_post "job-1" 1000 SendCase)
          = Accepted "job-1" JobStatusPending) as H
    by (vm_compute; reflexivity).
  split; [exact H|].
  destruct (accepted_job_is_stored_and_queued _ _ _ _ _ _ _ H)
    as (_ & _ & _ & _ & url & Hd & _ & _ & Hb).
  inversion Hd; subst url. exact Hb.
Defined.

Lemma Publish_refused q m pick :
  fst (Publish q m pick) = QueueClosed ∨ fst (Publish q m pick) = QueueFull →
  snd (Publish q m pick) = q
  ∧ fst (Publish q m pick) = (if stop q then QueueClosed else QueueFull).
Proof.
  unfold Publish, send.
  destruct (send_ready (queue q)), (stop q), pick, (closed (queue q));
    simpl; intros [?|?]; done.
Qed.

(** X21.  A job the bus refuses is left in the store as failed: when
    [handleExtract] answers 500 "Failed to submit job to processing queue",
    the bus is as it was, the id had no record before, and the record now
    stored under it has status failed, the error text of [Publish] (closed
    when [stop] is closed, full otherwise) behind "Failed to queue job: ",
    and no completion time. *)
Theorem unqueued_job_is_marked_failed (w : World) (r : HttpRequest)
    (jobID : string) (now : Z) (pick : Select) :
  fst (handleExtract w r jobID now pick)
  = HttpError 500 "Failed to submit job to processing queue" →
  let w' := snd (handleExtract w r jobID now pick) in
  mq w' = mq w
  ∧ jobs (db w) !! jobID = None
  ∧ ∃ v, stored (db w') (heap w') jobID = Some v
         ∧ ID (v_job v) = jobID
         ∧ Status (v_job v) = JobStatusFailed
         ∧ Error (v_job v)
           = "Failed to queue job: "
             +:+ (if stop (mq w) then "queue is closed, cannot publish"
                  else "queue is full, cannot publish job " +:+ jobID)
         ∧ v_completed v = None.
Proof.
  unfold handleExtract.
  destruct (String.eqb (Method r) "OPTIONS"); [done|].
  destruct (String.eqb (Method r) "POST") eqn:Em; [|done].
  simpl negb. cbv iota.
  destruct (decoded r) as [[url]|]; [|done]. simpl URL.
  destruct (String.eqb url "") eqn:Eu; [done|].
  set (j0 := {| ID := jobID; Job.OriginalURL := url;
                Status := JobStatusPending; Meta := None;
                DownloadEndpoint := ""; Error := ""; CreatedAt := now;
                StartedAt := None; CompletedAt := None; FilePath := "" |}).
  pose proof (new_job_lookup (heap w) j0) as Hp.
  destruct (new_job (heap w) j0) as [p h1]. simpl in Hp.
  set (w1 := with_heap h1 w).
  destruct (db_CreateJob_spec w1 p j0 Hp) as (Hh2 & Hq2 & Hpool2 & Hc).
  destruct (db_CreateJob w1 p) as [err w2]. simpl in Hh2, Hq2, Hpool2, Hc.
  change (ID j0) with jobID in Hc.
  change (jobs (db w1)) with (jobs (db w)) in Hc.
  change (mq w1) with (mq w) in Hq2.
  destruct (jobs (db w) !! jobID) as [p0|] eqn:Elook.
  { by destruct Hc as (-> & _). }
  destruct Hc as (-> & Hdb & Htr).
  set (m := {| JobID := jobID; Queue.OriginalURL := url |}).
  destruct (mq_Publish_spec w2 m pick) as (Hh3 & Hd3 & Hpool3 & Hr3 & Hq3 & Ht3).
  pose proof (Publish_refused (mq w2) m pick) as Href.
  destruct (mq_Publish w2 m pick) as [res w3].
  simpl in Hh3, Hd3, Hpool3, Hr3, Hq3, Ht3. rewrite <- Hr3 in Href.
  assert (jobs_at (heap w3) !! p = Some j0) as Hp3 by (rewrite Hh3, Hh2; done).
  destruct res eqn:Eres; [done| | |done].
  all: destruct Href as [Hsame Hstop]; [by auto|]; rewrite Hq2 in Hstop.
  all: destruct (assign_spec w3 p (set_Status JobStatusFailed) j0 Hp3 eq_refl)
         as (Ho4 & Hle4 & Hp4).
  all: match goal with
       | |- context [assign ?w4 ?q (set_Error ?e)] =>
           destruct (assign_spec w4 q (set_Error e) _ Hp4 eq_refl)
             as (Ho5 & Hle5 & Hp5);
           set (w5 := assign w4 q (set_Error e)) in *;
           destruct (db_UpdateJob_spec w5 q _ Hp5) as (Hh6 & Hq6 & Hpool6 & Hu);
           destruct (db_UpdateJob w5 q) as [e6 w6]
       end.
  all: simpl in Hh6, Hq6, Hpool6, Hu.
  all: simpl ID in Hu.
  all: destruct (only_heap_trans _ _ _ Ho4 Ho5) as (Ed & Eq & El & Edi & Ew & Et).
  all: rewrite Ed, Hd3, Hdb, lookup_insert_eq in Hu; destruct Hu as [Hj6 _].
  all: simpl; intros _.
  all: split; [by rewrite Hq6, Eq, Hq3, Hsame, Hq2|]; split; [done|].
  all: eexists; split;
         [unfold stored; rewrite Hj6, lookup_insert_eq; simpl;
          unfold view; rewrite Hh6, Hp5; reflexivity|].
  all: simpl; by destruct (stop (mq w)).
Qed.

Definition shut_world : World := with_mq (Close (mq init)) init.

Lemma unqueued_job_is_marked_failed_witness :
  fst (handleExtract shut_world one_post "job-1" 1000 StopCase)
  = HttpError 500 "Failed to submit job to processing queue"
  ∧ ∃ v, stored (db (snd (handleExtract shut_world one_post "job-1" 1000
                            StopCase)))
                (heap (snd (handleExtract shut_world one_post "job-1" 1000
                              StopCase))) "job-1" = Some v
         ∧ Status (v_job v) = JobStatusFailed
         ∧ Error (v_job v)
           = "Failed to queue job: queue is closed, cannot publish".
Proof.
  assert (fst (handleExtract shut_world one_post "job-1" 1000 StopCase)
          = HttpError 500 "Failed to submit job to processing queue") as H
    by (vm_compute; reflexivity).
  split; [exact H|].
  destruct (unqueued_job_is_marked_failed _ _ _ _ _ H)
    as (_ & _ & v & Hv & _ & Hs & He & _).
  exists v. split; [exact Hv|]. split; [exact Hs|exact He].
Defined.

(** The next step of a spawned goroutine, whatever the clock and the
    executor say. *)
Definition can_step (c : Config) (w : World) (i : nat) (wk : Worker) : Prop :=
  match pc wk with
  | AtGetJob => is_Some (exec c (GetStep i) w)
  | AtProcessing _ => ∀ now, is_Some (exec c (MarkStep i now) w)
  | AtExecutor _ => ∀ out now, is_Some (exec c (FinishStep i out now) w)
  | Returned => is_Some (exec c (Release i) w)
  end.

Lemma run_pool_ok c acts w :
  0 <= MaxWorkers c → run c acts init = Some w → pool_ok c w.
Proof.
  intros Hc Hrun. eapply (run_invariant c (pool_ok c)); [| |exact Hrun].
  - intros a w1 w2. apply exec_pool_ok.
  - split; [reflexivity|exact Hc].
Qed.

Lemma pool_ok_can_step c w i wk :
  pool_ok c w → workers w !! i = Some wk → can_step c w i wk.
Proof.
  intros [Hl _] Hi. unfold can_step.
  destruct (pc wk) as [|p|p|] eqn:Epc; [|intros now|intros out now|];
    simpl; rewrite Hi; simpl; rewrite Epc; [by eauto..|].
  apply lookup_lt_Some in Hi.
  destruct (workerLimiter w); [simpl in *; lia|by eauto].
Qed.

(** X22.  Nothing in the worker blocks for good: in every state reachable
    with at least one worker slot, each spawned goroutine can take its next
    step, in particular the deferred receive on [workerLimiter] of a
    goroutine whose [processJob] has returned finds a token, and when the
    dispatch loop holds a message either a slot is free or a goroutine that
    holds one can step. *)
Theorem no_goroutine_is_stuck (c : Config) (acts : list Action) (w : World) :
  1 <= MaxWorkers c →
  run c acts init = Some w →
  (∀ i wk, workers w !! i = Some wk → can_step c w i wk)
  ∧ (∀ msg, dispatcher w = Acquiring msg →
       is_Some (exec c Acquire w)
       ∨ ∃ wk, workers w !! 0%nat = Some wk ∧ can_step c w 0 wk).
Proof.
  intros Hc Hrun.
  assert (pool_ok c w) as Hp by (apply (run_pool_ok c acts); [lia|done]).
  split; [intros i wk; by apply pool_ok_can_step|].
  intros msg Hd. simpl. rewrite Hd.
  destruct (Z.ltb_spec (Z.of_nat (workerLimiter w)) (MaxWorkers c)) as [Hlt|Hge];
    [left; by eauto|right].
  destruct Hp as [Hl Hm].
  destruct (workers w) as [|wk ws] eqn:Ew; [simpl in Hl; lia|].
  exists wk. split; [done|]. apply pool_ok_can_step; [|by rewrite Ew].
  split; [by rewrite Ew|done].
Qed.

Lemma no_goroutine_is_stuck_witness :
  1 <= MaxWorkers (LoadConfig ∅)
  ∧ run (LoadConfig ∅) one_job_running init
    = Some (world_of (LoadConfig ∅) one_job_running)
  ∧ ∀ i wk, workers (world_of (LoadConfig ∅) one_job_running) !! i = Some wk →
            can_step (LoadConfig ∅) (world_of (LoadConfig ∅) one_job_running)
              i wk.
Proof.
  assert (1 <= MaxWorkers (LoadConfig ∅)) as H1 by (vm_compute; congruence).
  assert (run (LoadConfig ∅) one_job_running init
          = Some (world_of (LoadConfig ∅) one_job_running)) as H2
    by (vm_compute; reflexivity).
  split; [exact H1|]. split; [exact H2|].
  exact (proj1 (no_goroutine_is_stuck _ _ _ H1 H2)).
Defined.

(** *** What the steps do to the set of job ids *)

Lemma assign_db w p f : db (assign w p f) = db w.
Proof. unfold assign. by destruct (jobs_at (heap w) !! p). Qed.

Lemma db_UpdateJob_dom w p :
  dom (jobs (db (snd (db_UpdateJob w p)))) = dom (jobs (db w)).
Proof.
  unfold db_UpdateJob, UpdateJob.
  destruct (jobs_at (heap w) !! p) as [j|]; [|done].
  destruct (jobs (db w) !! ID j) as [p0|] eqn:E; simpl; [|done].
  by rewrite dom_insert_lookup_L by eauto.
Qed.

Lemma handleJobFailure_dom w p errMsg t :
  dom (jobs (db (handleJobFailure w p errMsg t))) = dom (jobs (db w)).
Proof.
  unfold handleJobFailure. destruct (new_time _ t) as [l h].
  rewrite db_UpdateJob_dom, assign_db. simpl. by rewrite !assign_db.
Qed.

Lemma processJob_mark_dom w p now :
  dom (jobs (db (snd (processJob_mark w p now)))) = dom (jobs (db w)).
Proof.
  unfold processJob_mark. destruct (new_time _ now) as [l h]. cbn [snd].
  rewrite db_UpdateJob_dom, assign_db. simpl. by rewrite assign_db.
Qed.

Lemma processJob_finish_dom c w m p out now :
  dom (jobs (db (snd (processJob_finish c w m p out now))))
  = dom (jobs (db w)).
Proof.
  unfold processJob_finish. destruct out as [err|a meta err|a meta filePath].
  - apply handleJobFailure_dom.
  - destruct (new_meta _ meta) as [mp h]. cbn [snd].
    by rewrite handleJobFailure_dom.
  - destruct (new_meta _ meta) as [mp h].
    destruct (new_time _ now) as [t h']. cbn [snd].
    rewrite db_UpdateJob_dom, assign_db. simpl. by rewrite !assign_db.
Qed.

(** X23.  Only the submission handler changes which ids the store holds:
    a step of the dispatch loop or of a goroutine in [processJob] or
    [handleJobFailure] leaves the set of ids as it is (their [UpdateJob]
    never creates a record), and a submission leaves it as it is or adds
    its own id, which was not there. *)
Theorem store_ids_change_only_by_submission (c : Config) (a : Action)
    (w w' : World) :
  exec c a w = Some w' →
  match a with
  | Submit _ jobID _ _ =>
      dom (jobs (db w')) = dom (jobs (db w))
      ∨ (jobs (db w) !! jobID = None
         ∧ dom (jobs (db w')) = {[jobID]} ∪ dom (jobs (db w)))
  | _ => dom (jobs (db w')) = dom (jobs (db w))
  end.
Proof.
  intros He. destruct a as [r id now pick| | |i|i now|i out now|i];
    simpl in He.
  - inversion He; subst; clear He.
    destruct (handleExtract_effect w r id now pick)
      as (_ & _ & evs & _ & _ & Hcase).
    destruct evs as [|e1 [|e2 evs]].
    + left. by rewrite Hcase.
    + left. destruct Hcase as (_ & -> & _). done.
    + destruct e2; try done. destruct Hcase as (Hno & (p & j & Hd & _) & _).
      right. split; [done|]. by rewrite Hd, dom_insert_L.
  - destruct (dispatcher w); [|done].
    destruct (receive (mq w)) as [[msg q']|]; [|done].
    simpl in He. by inversion He; subst.
  - destruct (dispatcher w) as [|msg]; [done|].
    destruct (Z.of_nat (workerLimiter w) <? MaxWorkers c); [|done].
    by inversion He; subst.
  - destruct (workers w !! i) as [wk|]; [|done]. simpl in He.
    destruct (pc wk); try done. inversion He; subst; clear He.
    unfold set_worker. simpl.
    by destruct (processJob_get_effect w (jobMessage wk)) as (_ & -> & _).
  - destruct (workers w !! i) as [wk|]; [|done]. simpl in He.
    destruct (pc wk); try done. inversion He; subst; clear He.
    unfold set_worker. simpl. apply processJob_mark_dom.
  - destruct (workers w !! i) as [wk|]; [|done]. simpl in He.
    destruct (pc wk); try done. inversion He; subst; clear He.
    unfold set_worker. simpl. apply processJob_finish_dom.
  - destruct (workers w !! i) as [wk|]; [|done]. simpl in He.
    destruct (pc wk); try done.
    destruct (workerLimiter w); [done|]. by inversion He; subst.
Qed.

Definition one_job_fetched : list Action :=
  [Submit one_post "job-1" 1000 SendCase; Receive; Acquire; GetStep 0].

Lemma store_ids_change_only_by_submission_witness :
  exec (LoadConfig ∅) (MarkStep 0 2000)
    (world_of (LoadConfig ∅) one_job_fetched)
  = Some (world_of (LoadConfig ∅) one_job_running)
  ∧ dom (jobs (db (world_of (LoadConfig ∅) one_job_running)))
    = dom (jobs (db (world_of (LoadConfig ∅) one_job_fetched))).
Proof.
  assert (exec (LoadConfig ∅) (MarkStep 0 2000)
            (world_of (LoadConfig ∅) one_job_fetched)
          = Some (world_of (LoadConfig ∅) one_job_running)) as H
    by (vm_compute; reflexivity).
  split; [exact H|].
  exact (store_ids_change_only_by_submission _ _ _ _ H).
Defined.

(** *** What the worker leaves in the store *)

(** The innermost pending assignment through a pointer whose object is
    known is carried out. *)
Ltac step_assign :=
  match goal with
  | |- context [assign ?w ?p ?f] =>
      lazymatch w with
      | context [assign] => fail
      | _ => idtac
      end;
      erewrite (assign_hit w p f)
        by (first [eassumption | apply lookup_insert_eq])
  end.

(** X24.  What [processJob] leaves in the store when the executor has
    reported, for a job whose record exists: the record read under the id
    has the completion time [now] and keeps id, URL, creation and start
    time; after a failure of yt-dlp or ffmpeg it is failed with the
    prefixed error text and nothing else changed; after a conversion it is
    completed with the executor's metadata and file path and the download
    endpoint "http://localhost:<port>/download/<job id>", the error text
    left as it was. *)
Theorem finish_writes_the_result (c : Config) (w : World) (m : JobMessage)
    (p : loc) (j : Job) (out : Outcome) (now : Z) :
  jobs_at (heap w) !! p = Some j →
  is_Some (jobs (db w) !! ID j) →
  let w' := snd (processJob_finish c w m p out now) in
  ∃ v, stored (db w') (heap w') (ID j) = Some v
       ∧ v_completed v = Some now
       ∧ ID (v_job v) = ID j
       ∧ Job.OriginalURL (v_job v) = Job.OriginalURL j
       ∧ CreatedAt (v_job v) = CreatedAt j
       ∧ StartedAt (v_job v) = StartedAt j
       ∧ match out with
         | YtDlpFailed err =>
             Status (v_job v) = JobStatusFailed
             ∧ Error (v_job v) = "yt-dlp failed: " +:+ err
             ∧ Meta (v_job v) = Meta j
             ∧ FilePath (v_job v) = FilePath j
             ∧ DownloadEndpoint (v_job v) = DownloadEndpoint j
         | FfmpegFailed _ _ err =>
             Status (v_job v) = JobStatusFailed
             ∧ Error (v_job v) = "ffmpeg failed: " +:+ err
             ∧ Meta (v_job v) = Meta j
             ∧ FilePath (v_job v) = FilePath j
             ∧ DownloadEndpoint (v_job v) = DownloadEndpoint j
         | Converted _ meta filePath =>
             Status (v_job v) = JobStatusCompleted
             ∧ v_meta v = Some meta
             ∧ FilePath (v_job v) = filePath
             ∧ DownloadEndpoint (v_job v)
               = "http://localhost:" +:+ APIGatewayPort c +:+ "/download/"
                 +:+ JobID m
             ∧ Error (v_job v) = Error j
         end.
Proof.
  intros H [p0 Hs].
  unfold processJob_finish, handleJobFailure, new_meta, new_time.
  destruct out as [err|a meta err|a meta filePath]; cbv zeta; cbn [snd].
  all: repeat step_assign.
  all: match goal with
       | |- context [db_UpdateJob ?W ?q] =>
           eassert (jobs_at (heap W) !! q = Some _) as Hl
             by apply lookup_insert_eq;
           destruct (db_UpdateJob_spec W q _ Hl) as (Hh & _ & _ & Hu);
           set (w' := snd (db_UpdateJob W q)) in *
       end.
  all: simpl in Hu; rewrite Hs in Hu; destruct Hu as [Hj _].
  all: unfold stored; rewrite Hj, lookup_insert_eq; simpl.
  all: unfold view; rewrite Hh, Hl; simpl.
  all: eexists; split; [reflexivity|]; simpl.
  all: rewrite !lookup_insert_eq; by repeat split.
Qed.

(** A world in which a goroutine holds the copy [copy1] of the stored job
    "j1". *)
Definition fetched_world : World :=
  {| heap := VolatileStore.heap3; db := VolatileStore.db1;
     mq := NewInMemoryQueue 100; workerLimiter := 1; dispatcher := Ranging;
     workers := [{| jobMessage := {| JobID := "j1";
                                     Queue.OriginalURL := "https://youtu.be/a" |};
                    pc := AtExecutor VolatileStore.copy1 |}];
     trace := [] |}.

Lemma finish_writes_the_result_witness :
  ∃ v, stored
         (db (snd (processJob_finish (LoadConfig ∅) fetched_world
                     {| JobID := "j1"; Queue.OriginalURL := "https://youtu.be/a" |}
                     VolatileStore.copy1
                     (Converted "https://cdn/a" StoreFacts.sample_meta
                        "/tmp/j1.mp3") 3000)))
         (heap (snd (processJob_finish (LoadConfig ∅) fetched_world
                       {| JobID := "j1"; Queue.OriginalURL := "https://youtu.be/a" |}
                       VolatileStore.copy1
                       (Converted "https://cdn/a" StoreFacts.sample_meta
                          "/tmp/j1.mp3") 3000))) "j1" = Some v
       ∧ v_completed v = Some 3000
       ∧ Status (v_job v) = JobStatusCompleted
       ∧ v_meta v = Some StoreFacts.sample_meta
       ∧ FilePath (v_job v) = "/tmp/j1.mp3".
Proof.
  destruct (finish_writes_the_result (LoadConfig ∅) fetched_world
              {| JobID := "j1"; Queue.OriginalURL := "https://youtu.be/a" |}
              VolatileStore.copy1 (VolatileStore.blank_job "j1")
              (Converted "https://cdn/a" StoreFacts.sample_meta "/tmp/j1.mp3")
              3000)
    as (v & Hv & Hc & _ & _ & _ & _ & Hs & Hm & Hf & _).
  - vm_compute. reflexivity.
  - vm_compute. eexists. reflexivity.
  - exists v. split; [exact Hv|]. split; [exact Hc|]. split; [exact Hs|].
    split; [exact Hm|exact Hf].
Defined.

End Pipeline.

(** ** shared/config.go: the integer settings *)

Module Settings.

Import Config ConfigFacts Strconv.

(** A decimal integer of at least zero that fits an [int]. *)
Definition nonneg_int (s : string) : option Z :=
  match Atoi s with
  | (n, false) => if 0 <=? n then Some n else None
  | (_, true) => None
  end.

Lemma digit_of_range c d : digit_of c = Some d → 0 <= d <= 9.
Proof.
  unfold digit_of.
  destruct ((0 <=? _) && (_ <=? 9)) eqn:E; [|done].
  intros [= <-]. apply andb_true_iff in E as [E1 E2].
  apply Z.leb_le in E1, E2. done.
Qed.

Lemma digits_nonneg s : ∀ acc n, 0 <= acc → digits s acc = Some n → 0 <= n.
Proof.
  induction s as [|c s IH]; intros acc n Hacc; simpl.
  - by intros [= <-].
  - destruct (digit_of c) as [d|] eqn:Ed; [|done].
    apply digit_of_range in Ed. apply IH. lia.
Qed.

Lemma Atoi_in_int s n : Atoi s = (n, false) → in_int n.
Proof.
  unfold Atoi, in_int, int_min, int_max.
  destruct (split_sign s) as [neg body].
  destruct body as [|c body]; [done|].
  destruct (digits (String c body) 0) as [un|] eqn:Ed; [|done].
  apply digits_nonneg in Ed; [|done].
  destruct neg.
  - destruct (Z.ltb_spec (2 ^ 63) un); [done|]. intros [= <-]. lia.
  - destruct (Z.leb_spec (2 ^ 63) un); [done|]. intros [= <-]. lia.
Qed.

Lemma env_int_in_int lo dflt v :
  in_int dflt → in_int (env_int Atoi lo dflt v).
Proof.
  intros Hd. unfold env_int.
  destruct (String.eqb v ""); [done|].
  destruct (Atoi v) as [n [|]] eqn:E; simpl; [done|].
  destruct (lo <=? n); [|done]. by apply Atoi_in_int in E.
Qed.

Lemma env_int_value lo dflt v :
  env_int Atoi lo dflt v
  = default dflt (match Atoi v with
                  | (n, false) => if lo <=? n then Some n else None
                  | (_, true) => None
                  end).
Proof.
  unfold env_int. destruct (String.eqb v "") eqn:E.
  - apply String.eqb_eq in E. by subst v.
  - destruct (Atoi v) as [n [|]]; simpl; [done|]. by destruct (lo <=? n).
Qed.

(** X25.  The other integer settings of [LoadConfig]: [RedisDB] and
    [QueueMaxLength] are never negative and are 0 unless the variable is a
    decimal integer of at least zero, [MaxVideoDurationSeconds] is at least
    one and is 1200 unless the variable is a decimal integer of at least
    one, and all five integer settings lie in the range of [int]. *)
Theorem LoadConfig_integer_settings (env : gmap string string) :
  let c := LoadConfig env in
  (0 <= RedisDB c ∧ 0 <= QueueMaxLength c ∧ 1 <= MaxVideoDurationSeconds c)
  ∧ (in_int (MaxWorkers c) ∧ in_int (RedisDB c) ∧ in_int (QueueMaxLength c)
     ∧ in_int (RateLimitRPM c) ∧ in_int (MaxVideoDurationSeconds c))
  ∧ RedisDB c = default 0 (nonneg_int (Getenv env "REDIS_DB"))
  ∧ QueueMaxLength c = default 0 (nonneg_int (Getenv env "QUEUE_MAX_LENGTH"))
  ∧ MaxVideoDurationSeconds c
    = default 1200 (positive_int (Getenv env "MAX_VIDEO_DURATION_SECONDS")).
Proof.
  unfold LoadConfig, LoadConfig_with, nonneg_int, positive_int.
  destruct (Atoi (Getenv env "MAX_WORKERS")) as [n0 e0] eqn:E0. simpl.
  split; [|split; [|split; [|split]]].
  - split; [|split]; apply env_int_lower; unfold DefaultMaxVideoDurationSeconds; lia.
  - split; [|repeat split; apply env_int_in_int; vm_compute; split; congruence].
    destruct (e0 || (n0 <=? 0)) eqn:E; [vm_compute; split; congruence|].
    apply orb_false_iff in E as [-> _]. by apply Atoi_in_int in E0.
  - apply env_int_value.
  - apply env_int_value.
  - apply env_int_value.
Qed.

(** *** Decimal settings are read back *)

Lemma digit_of_pretty_N_char r :
  (r < 10)%N → digit_of (pretty_N_char r) = Some (Z.of_N r).
Proof.
  intros H.
  assert (r = 0 ∨ r = 1 ∨ r = 2 ∨ r = 3 ∨ r = 4 ∨ r = 5 ∨ r = 6 ∨ r = 7
          ∨ r = 8 ∨ r = 9)%N as Hr by lia.
  repeat (destruct Hr as [->|Hr]; [reflexivity|]). by subst.
Qed.

(** [digits] reads what [pretty_N_go] wrote in front of [s]. *)
Lemma digits_pretty_N_go x :
  ∃ k, 0 <= k ∧ ∀ s acc,
    digits (pretty_N_go x s) acc = digits s (acc * 10 ^ k + Z.of_N x).
Proof.
  induction (N.lt_wf_0 x) as [x _ IH].
  assert (x = 0 ∨ 0 < x)%N as [->|Hx] by lia.
  - exists 0. split; [done|]. intros s acc. rewrite pretty_N_go_0.
    f_equal. simpl. lia.
  - destruct (IH (x `div` 10)%N) as (k & Hk & Hd); [by apply N.div_lt|].
    exists (k + 1). split; [lia|]. intros s acc.
    rewrite pretty_N_go_step, Hd by done. simpl.
    rewrite digit_of_pretty_N_char by (by apply N.mod_lt).
    f_equal. rewrite Z.pow_add_r, Z.pow_1_r by lia.
    rewrite N2Z.inj_div, N2Z.inj_mod. change (Z.of_N 10) with 10.
    pose proof (Z.div_mod (Z.of_N x) 10). lia.
Qed.

(** A string that does not begin with a sign. *)
Definition unsigned (s : string) : Prop :=
  ∃ c rest, s = String c rest
            ∧ Ascii.eqb c "-" = false ∧ Ascii.eqb c "+" = false.

Lemma pretty_N_char_unsigned r s : unsigned (String (pretty_N_char r) s).
Proof.
  exists (pretty_N_char r), s. split; [done|].
  unfold pretty_N_char. by repeat case_match.
Qed.

Lemma pretty_N_go_unsigned x : ∀ s,
  (0 < x)%N ∨ unsigned s → unsigned (pretty_N_go x s).
Proof.
  induction (N.lt_wf_0 x) as [x _ IH]. intros s Hs.
  assert (x = 0 ∨ 0 < x)%N as [->|Hx] by lia.
  - rewrite pretty_N_go_0. destruct Hs as [Hs|Hs]; [lia|done].
  - rewrite pretty_N_go_step by done. apply IH; [by apply N.div_lt|].
    right. apply pretty_N_char_unsigned.
Qed.

Lemma Atoi_unsigned s n :
  unsigned s → digits s 0 = Some n → n <= int_max → Atoi s = (n, false).
Proof.
  intros (c & rest & -> & Hm & Hp) Hd Hn. unfold Atoi, split_sign.
  rewrite Hm, Hp, Hd. unfold int_max in Hn.
  destruct (Z.leb_spec (2 ^ 63) n); [lia|done].
Qed.

Lemma digits_pretty_pos p : digits (pretty_N_go (N.pos p) "") 0 = Some (Z.pos p).
Proof.
  destruct (digits_pretty_N_go (N.pos p)) as (k & _ & ->). simpl. done.
Qed.

(** [Atoi] reads back the decimal rendering of every [int]. *)
Lemma Atoi_pretty n : in_int n → Atoi (pretty n) = (n, false).
Proof.
  intros [Hlo Hhi]. destruct n as [|p|p].
  - reflexivity.
  - apply Atoi_unsigned; [|apply digits_pretty_pos|done].
    apply pretty_N_go_unsigned. left. lia.
  - unfold pretty, pretty_Z, pretty, pretty_positive, pretty, pretty_N.
    rewrite decide_False by done.
    change ("-" +:+ pretty_N_go (N.pos p) "")
      with (String "-" (pretty_N_go (N.pos p) "")).
    unfold Atoi. cbn [split_sign Ascii.eqb Bool.eqb].
    pose proof (pretty_N_go_unsigned (N.pos p) "") as (c & rest & E & _);
      [left; lia|].
    pose proof (digits_pretty_pos p) as Hd. rewrite E in Hd |- *.
    rewrite Hd. unfold int_min in Hlo.
    destruct (Z.ltb_spec (2 ^ 63) (Z.pos p)); [lia|done].
Qed.

Lemma pretty_not_empty (n : Z) : String.eqb (pretty n) "" = false.
Proof.
  apply String.eqb_neq. intros E.
  assert (String.length (pretty n) = 0%nat) as Hl by (by rewrite E).
  destruct n as [|p|p]; [done| |done].
  pose proof (pretty_N_go_unsigned (N.pos p) "") as (c & rest & E' & _);
    [left; lia|].
  unfold pretty, pretty_Z, pretty, pretty_positive, pretty, pretty_N in E.
  rewrite decide_False in E by done. by rewrite E' in E.
Qed.

Lemma env_int_pretty lo dflt n :
  in_int n → env_int Atoi lo dflt (pretty n) = (if lo <=? n then n else dflt).
Proof.
  intros Hn. unfold env_int. by rewrite pretty_not_empty, Atoi_pretty.
Qed.

(** X26.  A setting written in decimal is read back: when a variable holds
    the decimal rendering of an [int] [n], [LoadConfig] returns [n] for it
    if [n] is at least the setting's lower bound (one for MAX_WORKERS,
    RATE_LIMIT_RPM and MAX_VIDEO_DURATION_SECONDS, zero for REDIS_DB and
    QUEUE_MAX_LENGTH) and the default otherwise. *)
Theorem decimal_setting_is_honoured (env : gmap string string) (n : Z) :
  in_int n →
  let set k := LoadConfig (<[k := pretty n]> env) in
  MaxWorkers (set "MAX_WORKERS") = (if 1 <=? n then n else 3)
  ∧ RateLimitRPM (set "RATE_LIMIT_RPM") = (if 1 <=? n then n else 300)
  ∧ MaxVideoDurationSeconds (set "MAX_VIDEO_DURATION_SECONDS")
    = (if 1 <=? n then n else 1200)
  ∧ RedisDB (set "REDIS_DB") = (if 0 <=? n then n else 0)
  ∧ QueueMaxLength (set "QUEUE_MAX_LENGTH") = (if 0 <=? n then n else 0).
Proof.
  intros Hn set. subst set. cbv beta.
  unfold LoadConfig, LoadConfig_with, Getenv.
  rewrite !lookup_insert_eq. simpl default.
  split; [|split; [|split; [|split]]].
  - rewrite Atoi_pretty by done. simpl.
    destruct (Z.leb_spec n 0), (Z.leb_spec 1 n); (lia || done).
  - destruct (Atoi _) as [n0 e0]. simpl. by apply env_int_pretty.
  - destruct (Atoi _) as [n0 e0]. simpl. by apply env_int_pretty.
  - destruct (Atoi _) as [n0 e0]. simpl. by apply env_int_pretty.
  - destruct (Atoi _) as [n0 e0]. simpl. by apply env_int_pretty.
Qed.

Lemma decimal_setting_is_honoured_witness :
  in_int 8 ∧ MaxWorkers (LoadConfig (<["MAX_WORKERS" := pretty 8]> ∅)) = 8.
Proof.
  assert (in_int 8) as H by (vm_compute; split; congruence).
  split; [exact H|].
  exact (proj1 (decimal_setting_is_honoured ∅ 8 H)).
Defined.

End Settings.

(** ** shared/db_redis.go: the index and the records *)

Module DurableIndex.

Import DB RedisDB DurableStore.

(** The index names exactly the ids that have a record. *)
Definition consistent (srv : Redis.Server) : Prop :=
  ∀ id, is_Some (Redis.values srv !! jobKey id) ↔ is_Some (index srv !! id).

(** A call on the durable store, with the fate of each of its round
    trips. *)
Inductive Call :=
  | CallCreate (jobID b : string) (score : Z) (n1 n2 : Redis.Net)
  | CallUpdate (jobID b : string) (n1 n2 : Redis.Net)
  | CallDelete (jobID : string) (n1 : Redis.Net).

Definition call (srv : Redis.Server) (c : Call) : Redis.Server :=
  match c with
  | CallCreate jobID b score n1 n2 => snd (CreateJob srv jobID b score n1 n2)
  | CallUpdate jobID b n1 n2 => snd (UpdateJob srv jobID b n1 n2)
  | CallDelete jobID n1 => snd (DeleteJob srv jobID n1)
  end.

Lemma index_set_zadd srv id b score :
  index (set_zadd srv id b score) = <[id := score]> (index srv).
Proof. unfold index, set_zadd. simpl. by rewrite lookup_insert_eq. Qed.

Lemma index_del_zrem srv id :
  index (del_zrem srv id) = delete id (index srv).
Proof.
  unfold index, del_zrem. simpl.
  destruct (Redis.zsets srv !! "jobs") as [z|] eqn:Ez.
  - by rewrite lookup_insert_eq.
  - rewrite Ez. simpl. by rewrite delete_empty.
Qed.

Lemma consistent_set_zadd srv id b score :
  consistent srv → consistent (set_zadd srv id b score).
Proof.
  intros H id'. rewrite index_set_zadd. simpl.
  destruct (decide (id' = id)) as [->|Hne].
  - rewrite !lookup_insert_eq. split; eauto.
  - rewrite !lookup_insert_ne; [apply H|done|].
    intros E. by apply jobKey_inj in E.
Qed.

Lemma consistent_del_zrem srv id :
  consistent srv → consistent (del_zrem srv id).
Proof.
  intros H id'. rewrite index_del_zrem.
  change (Redis.values (del_zrem srv id))
    with (delete (jobKey id) (Redis.values srv)).
  destruct (decide (id' = id)) as [->|Hne].
  - rewrite !lookup_delete_eq. split; intros [? ?]; done.
  - rewrite !lookup_delete_ne; [apply H|done|].
    intros E. by apply jobKey_inj in E.
Qed.

Lemma consistent_call srv c : consistent srv → consistent (call srv c).
Proof.
  intros H. destruct c as [id b score n1 n2|id b n1 n2|id n1]; simpl.
  - unfold CreateJob. destruct (Redis.failed n1); [done|].
    destruct (exists_key srv (jobKey id)); [done|]. simpl.
    destruct (Redis.applied n2); [|done]. by apply consistent_set_zadd.
  - unfold UpdateJob. destruct (Redis.failed n1); [done|].
    destruct (exists_key srv (jobKey id)) eqn:Ex; [|done]. simpl.
    destruct (Redis.applied n2); [|done].
    apply exists_key_true in Ex. intros id'. unfold index. simpl.
    destruct (decide (id' = id)) as [->|Hne].
    + rewrite lookup_insert_eq. split; [intros _; by apply H|by eauto].
    + rewrite lookup_insert_ne; [apply H|].
      intros E. by apply jobKey_inj in E.
  - unfold DeleteJob. simpl.
    destruct (Redis.applied n1); [|done]. by apply consistent_del_zrem.
Qed.

Theorem index_matches_records (calls : list Call) :
  consistent (foldl call Redis.empty calls).
Proof.
  assert (consistent Redis.empty) as H0.
  { intros id. unfold index. simpl. rewrite !lookup_empty. simpl.
    rewrite lookup_empty. done. }
  revert H0. generalize Redis.empty.
  induction calls as [|c calls IH]; intros srv H; simpl; [done|].
  apply IH. by apply consistent_call.
Qed.

(** [GetAllJobs]: ZREVRANGE jobs 0 -1, then one [GetJob] for each id of
    the reply, an id whose [GetJob] fails being skipped.  [ids] is the reply
    of ZREVRANGE, [n0] the fate of that round trip and [fate id] the one of
    the GET for [id]; the result holds the bytes that were read. *)
Definition read_one (srv : Redis.Server) (fate : string → Redis.Net)
    (id : string) : option string :=
  match GetJob srv id (fate id) with
  | inr b => Some b
  | inl _ => None
  end.

Definition GetAllJobs (srv : Redis.Server) (ids : list string)
    (n0 : Redis.Net) (fate : string → Redis.Net) : error + list string :=
  if Redis.failed n0 then inl BackendUnavailable
  else inr (omap (read_one srv fate) ids).





End DurableIndex.

(** ** The whole pipeline, once through *)

Module EndToEnd.

Import Config Job DB Queue System SystemFacts.




Definition j0 (url jobID : string) (t0 : Z) : Job :=
  {| ID := jobID; Job.OriginalURL := url; Status := JobStatusPending;
     Meta := None; DownloadEndpoint := ""; Error := ""; CreatedAt := t0;
     StartedAt := None; CompletedAt := None; FilePath := "" |}.











End EndToEnd.
